(** * TeX Checker: a shallow embedding of [tex_checker.py]

    The script reads TeX files, strips comments and equations with
    regular-expression substitutions, and runs a battery of line-based
    pattern checks.  Nearly everything it does goes through Python's [re]
    module, so the development starts with a model of that module: a
    backtracking matcher over byte strings with the constructs the script's
    patterns use, and the scanning loop shared by [re.sub] and [re.findall].

    The script asks for plain [python], and the pattern of [stripeqns]
    contains the escape [\e], which [re] reads as the letter e up to Python
    3.6 and refuses from 3.7 on.  The model follows Python 2: strings are
    8-bit strings, [\d], [\s] and IGNORECASE are the ASCII ones, and the
    scanning loop of [re.sub] and [re.findall] is the one of those
    versions. *)

From Stdlib Require Import Ascii String Bool Arith Lia List.
Import ListNotations.

(** ** Text *)

Definition text := list ascii.

Definition T (s : string) : text := list_ascii_of_string s.
Arguments T s%_string.

Definition NL : ascii := "010"%char.
Definition CR : ascii := "013"%char.
Definition TAB : ascii := "009"%char.
Definition VT : ascii := "011"%char.
Definition FF : ascii := "012"%char.

Definition code (c : ascii) : nat := nat_of_ascii c.

Definition in_range (lo hi c : ascii) : bool :=
  (code lo <=? code c) && (code c <=? code hi).

(** Character classes are predicates on bytes. *)
Definition charset := ascii -> bool.

Definition only (c : ascii) : charset := Ascii.eqb c.
Definition except (c : ascii) : charset := fun a => negb (Ascii.eqb c a).
Definition one_of (s : string) : charset :=
  fun a => existsb (Ascii.eqb a) (T s).
Definition none_of (s : string) : charset := fun a => negb (one_of s a).
Arguments only c%_char _.
Arguments except c%_char _.
Arguments one_of s%_string _.
Arguments none_of s%_string _.
Definition cs_or (p q : charset) : charset := fun a => p a || q a.

(** [.] without DOTALL, and with it. *)
Definition dot : charset := except NL.
Definition dotall : charset := fun _ => true.

(** [\d] and [\s] on 8-bit strings. *)
Definition digit : charset := in_range "0" "9".
Definition space : charset :=
  fun a => existsb (Ascii.eqb a) [" "%char; TAB; NL; CR; FF; VT].
Definition upper : charset := in_range "A" "Z".
Definition lower : charset := in_range "a" "z".

(** IGNORECASE on a literal letter: both cases match. *)
Definition to_lower (c : ascii) : ascii :=
  if upper c then ascii_of_nat (code c + 32) else c.
Definition is_nocase (c : ascii) : charset :=
  fun a => Ascii.eqb (to_lower c) (to_lower a).

(** ** Regular expressions

    The constructs that occur in the script.  Every repetition in the
    script's patterns ([*], [*?], [+], [{n}]) is applied to a single
    character or class, so [Star] takes a class; [?] is also applied to
    groups, so [Opt] takes an expression. *)

Inductive regex : Type :=
| Eps : regex
| Chr : charset -> regex
| Bol : regex                        (* ^ with MULTILINE *)
| Eol : regex                        (* $ with MULTILINE *)
| Bos : regex                        (* ^ without MULTILINE *)
| Eos : regex                        (* $ without MULTILINE *)
| Seq : regex -> regex -> regex
| Alt : regex -> regex -> regex
| Star : bool -> charset -> regex    (* greedy?, class *)
| Opt : regex -> regex               (* greedy r? *)
| Grp : nat -> regex -> regex.       (* capturing group number n *)

Declare Scope regex_scope.
Delimit Scope regex_scope with re.
Bind Scope regex_scope with regex.
Infix ";;" := Seq (at level 60, right associativity) : regex_scope.
Infix "<|>" := Alt (at level 70, right associativity) : regex_scope.

(** A literal string, and the same under IGNORECASE. *)
Fixpoint lit_text (s : text) : regex :=
  match s with
  | [] => Eps
  | [c] => Chr (only c)
  | c :: s' => Seq (Chr (only c)) (lit_text s')
  end.
Definition lit (s : string) : regex := lit_text (T s).
Arguments lit s%_string.

Fixpoint liti_text (s : text) : regex :=
  match s with
  | [] => Eps
  | [c] => Chr (is_nocase c)
  | c :: s' => Seq (Chr (is_nocase c)) (liti_text s')
  end.
Definition liti (s : string) : regex := liti_text (T s).
Arguments liti s%_string.

Definition many (c : charset) : regex := Star true c.
Definition few (c : charset) : regex := Star false c.
Definition many1 (c : charset) : regex := Seq (Chr c) (Star true c).
Fixpoint times (n : nat) (c : charset) : regex :=
  match n with
  | 0 => Eps
  | S n' => Seq (Chr c) (times n' c)
  end.

(** ** The matcher

    A cursor is a position in the subject: the text before it, nearest
    character first, and the text after it. *)

Record cursor : Type := Cursor { before : text; after : text }.

Definition captures := list (nat * text).

Fixpoint group (n : nat) (cs : captures) : option text :=
  match cs with
  | [] => None
  | (k, t) :: cs' => if Nat.eqb n k then Some t else group n cs'
  end.

Definition outcome := option (cursor * captures).
Definition kont := cursor -> captures -> outcome.

Definition orelse (a : outcome) (b : outcome) : outcome :=
  match a with
  | Some r => Some r
  | None => b
  end.

Definition at_bol (cur : cursor) : bool :=
  match before cur with
  | [] => true
  | c :: _ => Ascii.eqb c NL
  end.

Definition at_eol (cur : cursor) : bool :=
  match after cur with
  | [] => true
  | c :: _ => Ascii.eqb c NL
  end.

Definition at_bos (cur : cursor) : bool :=
  match before cur with
  | [] => true
  | _ => false
  end.

(** [$] without MULTILINE: at the end, or before a final newline. *)
Definition at_eos (cur : cursor) : bool :=
  match after cur with
  | [] => true
  | [c] => Ascii.eqb c NL
  | _ => false
  end.

(** The text between two cursors of one subject. *)
Definition span (c1 c2 : cursor) : text :=
  firstn (length (before c2) - length (before c1)) (after c1).

Fixpoint star_greedy (c : charset) (pre rest : text) (cs : captures)
    (k : kont) : outcome :=
  match rest with
  | a :: rest' =>
      if c a
      then orelse (star_greedy c (a :: pre) rest' cs k) (k (Cursor pre rest) cs)
      else k (Cursor pre rest) cs
  | [] => k (Cursor pre rest) cs
  end.

Fixpoint star_lazy (c : charset) (pre rest : text) (cs : captures)
    (k : kont) : outcome :=
  match k (Cursor pre rest) cs with
  | Some r => Some r
  | None =>
      match rest with
      | a :: rest' => if c a then star_lazy c (a :: pre) rest' cs k else None
      | [] => None
      end
  end.

(** Backtracking in continuation-passing style: [k] is the rest of the
    pattern; alternatives are tried in order, a greedy repetition tries the
    longest run first and a lazy one the shortest. *)
Fixpoint rmatch (r : regex) (cur : cursor) (cs : captures) (k : kont)
    {struct r} : outcome :=
  match r with
  | Eps => k cur cs
  | Chr c =>
      match after cur with
      | a :: rest' =>
          if c a then k (Cursor (a :: before cur) rest') cs else None
      | [] => None
      end
  | Bol => if at_bol cur then k cur cs else None
  | Eol => if at_eol cur then k cur cs else None
  | Bos => if at_bos cur then k cur cs else None
  | Eos => if at_eos cur then k cur cs else None
  | Seq r1 r2 => rmatch r1 cur cs (fun cur' cs' => rmatch r2 cur' cs' k)
  | Alt r1 r2 => orelse (rmatch r1 cur cs k) (rmatch r2 cur cs k)
  | Star true c => star_greedy c (before cur) (after cur) cs k
  | Star false c => star_lazy c (before cur) (after cur) cs k
  | Opt r1 => orelse (rmatch r1 cur cs k) (k cur cs)
  | Grp n r1 =>
      rmatch r1 cur cs (fun cur' cs' => k cur' ((n, span cur cur') :: cs'))
  end.

Definition accept : kont := fun cur cs => Some (cur, cs).

(** One attempt at a given position. *)
Definition match_at (r : regex) (cur : cursor) : outcome :=
  rmatch r cur [] accept.

(** ** Scanning: the loop of [re.sub] and [re.findall]

    Both search for the leftmost match from the current position, record
    it, and go on from its end; after an empty match they go on one
    character further.  [scan] walks the subject once: [skip] counts the
    characters of the last match that are still to be passed, and
    [adj] tells that the position is the end of the previous match. *)

Inductive piece : Type :=
| Keep : ascii -> piece                       (* a character outside any match *)
| Hit : bool -> text -> captures -> piece.    (* a match: adjacent?, text, groups *)

Fixpoint scan (r : regex) (pre rest : text) (skip : nat) (adj : bool)
    : list piece :=
  match skip with
  | S n =>
      match rest with
      | a :: rest' => scan r (a :: pre) rest' n (Nat.eqb n 0)
      | [] => []
      end
  | 0 =>
      match match_at r (Cursor pre rest) with
      | None =>
          match rest with
          | a :: rest' => Keep a :: scan r (a :: pre) rest' 0 false
          | [] => []
          end
      | Some (cur', cs) =>
          let w := span (Cursor pre rest) cur' in
          match length w with
          | 0 =>
              Hit adj w cs ::
              match rest with
              | a :: rest' => Keep a :: scan r (a :: pre) rest' 0 false
              | [] => []
              end
          | S n =>
              Hit adj w cs ::
              match rest with
              | a :: rest' => scan r (a :: pre) rest' n (Nat.eqb n 0)
              | [] => []
              end
          end
      end
  end.

(** The first match at or after a position: [re.search].  A match object
    is kept as the cursors where the match starts and ends and its groups. *)
Definition found_match : Type := (cursor * cursor * captures)%type.

Fixpoint search_from (r : regex) (pre rest : text) : option found_match :=
  match match_at r (Cursor pre rest) with
  | Some (cur', cs) => Some (Cursor pre rest, cur', cs)
  | None =>
      match rest with
      | a :: rest' => search_from r (a :: pre) rest'
      | [] => None
      end
  end.

Definition re_search (r : regex) (s : text) : option found_match :=
  search_from r [] s.

Definition found (o : option found_match) : bool :=
  match o with
  | Some _ => true
  | None => false
  end.

(** [m.group(0)] *)
Definition group0 (m : found_match) : text :=
  match m with
  | (cur, cur', _) => span cur cur'
  end.

(** [re.findall] for a pattern without groups: the texts of the matches. *)
Definition hit_text (p : piece) : list text :=
  match p with
  | Keep _ => []
  | Hit _ w _ => [w]
  end.

Definition re_findall (r : regex) (s : text) : list text :=
  flat_map hit_text (scan r [] s 0 false).

(** Replacement templates: literal text and group references. *)
Inductive titem : Type :=
| TLit : text -> titem
| TGrp : nat -> titem.

Definition expand_item (cs : captures) (i : titem) : text :=
  match i with
  | TLit t => t
  | TGrp n =>
      match group n cs with
      | Some t => t
      | None => []
      end
  end.

Definition expand (tmpl : list titem) (cs : captures) : text :=
  flat_map (expand_item cs) tmpl.

(** [re.sub]: characters outside matches are copied, matches are replaced
    by the expanded template; an empty match at the end of the previous
    match is passed over. *)
Definition render (tmpl : list titem) (p : piece) : text :=
  match p with
  | Keep a => [a]
  | Hit adj w cs =>
      match w with
      | [] => if adj then [] else expand tmpl cs
      | _ => expand tmpl cs
      end
  end.

Definition re_sub (r : regex) (tmpl : list titem) (s : text) : text :=
  flat_map (render tmpl) (scan r [] s 0 false).

(** * The normalizer *)

Definition blank : charset :=
  fun a => Ascii.eqb a " " || Ascii.eqb a TAB.
Definition blank_tie : charset := cs_or blank (only "~").
Definition space_tie : charset := cs_or space (only "~").

(** [^[ \t]*%.*$] *)
Definition comment_line_re : regex :=
  (Bol ;; many blank ;; Chr (only "%") ;; many dot ;; Eol)%re.

(** [^(.*[^\\\n])%.*$] *)
Definition comment_tail_re : regex :=
  (Bol ;; Grp 1 (many dot ;; Chr (fun a => except "\" a && except NL a)) ;;
   Chr (only "%") ;; many dot ;; Eol)%re.

(** [\\begin\{verbatim\}.*?\\end\{verbatim\}] with DOTALL *)
Definition verbatim_re : regex :=
  (lit "\begin{verbatim}" ;; few dotall ;; lit "\end{verbatim}")%re.

(** [\\begin\{lstlisting\}.*?\\end\{lstlisting\}] with DOTALL *)
Definition lstlisting_re : regex :=
  (lit "\begin{lstlisting}" ;; few dotall ;; lit "\end{lstlisting}")%re.

(** The two comment substitutions of [stripcomments]. *)
Definition strip_comment_marks (fstr : text) : text :=
  let fstr_new := re_sub comment_line_re [] fstr in
  re_sub comment_tail_re [TGrp 1] fstr_new.

(** The two block substitutions of [stripcomments]. *)
Definition collapse_blocks (fstr_new : text) : text :=
  let fstr_new :=
    re_sub verbatim_re [TLit (T "\begin{verbatim} \end{verbatim}")] fstr_new in
  re_sub lstlisting_re [TLit (T "\begin{lstlisting} \end{lstlisting}")] fstr_new.

Definition stripcomments (fstr : text) : text :=
  collapse_blocks (strip_comment_marks fstr).

(** [(math|equation\*?|displaymath|eqnarray\*?|align)] *)
Definition eqn_env : regex :=
  (lit "math" <|> (lit "equation" ;; Opt (Chr (only "*"))) <|>
   lit "displaymath" <|> (lit "eqnarray" ;; Opt (Chr (only "*"))) <|>
   lit "align")%re.

(** [(\\begin\{(...)\}|\\[\(\[]).*?(\\\end\{(...)\}|\\[\]\)])] with DOTALL;
    the escape [\e] stands for the letter e. *)
Definition eqn_open : regex :=
  ((lit "\begin{" ;; Grp 2 eqn_env ;; lit "}") <|>
   (Chr (only "\") ;; Chr (one_of "([")))%re.

Definition eqn_close : regex :=
  ((lit "\end{" ;; Grp 4 eqn_env ;; lit "}") <|>
   (Chr (only "\") ;; Chr (one_of "])")))%re.

Definition eqn_re : regex :=
  (Grp 1 eqn_open ;; few dotall ;; Grp 3 eqn_close)%re.

Definition stripeqns (fstr : text) : text :=
  re_sub eqn_re [TGrp 1; TLit (T " xxx "); TGrp 3] fstr.

(** [([^\\])\$\$.*?[^\\]\$\$] and [([^\\])\$.*?[^\\]\$] with DOTALL *)
Definition display_dollar_re : regex :=
  (Grp 1 (Chr (except "\")) ;; lit "$$" ;; few dotall ;;
   Chr (except "\") ;; lit "$$")%re.

Definition inline_dollar_re : regex :=
  (Grp 1 (Chr (except "\")) ;; lit "$" ;; few dotall ;;
   Chr (except "\") ;; lit "$")%re.

Definition xxx_tmpl : list titem := [TGrp 1; TLit (T "$xxx$")].

Definition stripinline (fstr : text) : text :=
  let fstr_new := re_sub display_dollar_re xxx_tmpl fstr in
  re_sub inline_dollar_re xxx_tmpl fstr_new.

(** * Reports

    What the script prints is kept as a list of events.  [reportissues]
    prints a heading made from its message and the offending lines, or
    nothing when there are none; the messages are named by a category. *)

Inductive category : Type :=
| MissingBackslashSpace      (* missing "\ " *)
| RepetitionOfWords          (* repetition of words *)
| EqRefBrackets.             (* "Eq.\ \ref" (brackets needed) *)

Inductive check : Type :=
| Checknonascii | Checkdoubledots | Checkat | Checkdoublecapitalisation
| Checkmissingcapitalisation | Checkmissingbackslash | Checkinvcommas
| Checkanconsonant | Checkavowel | Checkerthat | Checkspacestop
| Checkstopcolon | Checklyhyphen | Checkneedendash | Checkrep | Checkeqref
| Checkeqspace | Checkwrongabbrev | Checkmissabbrev | Checkendash
| Checkrefcase | Checkminus | Checkbib | Checkacronyms
| Checkmultipleacronyms | Checkfoils | Checknotfoils | Checkwordcite
| Checksuperscriptcite.

Inductive event : Type :=
| Banner : event                               (* the two title lines *)
| Usage : event                                (* the usage line *)
| Checking : text -> event                     (* Checking file <arg>. *)
| Call : check -> text -> event                (* a check applied to a view *)
| Issues : category -> list text -> event      (* heading and lines *)
| BibProblem : nat -> option text -> event     (* checkbib's lines *)
| Done : event.                                (* the closing line *)

Definition reportissues (x : list text) (message : category) : list event :=
  match x with
  | [] => []
  | _ => [Issues message x]
  end.

(** * Checks *)

(** "^.*(?:i\.e\.|e\.g.\|n\.b\.)(?:[ \t~].*)?$" with MULTILINE and
    IGNORECASE.  The second alternative is written "e\.g.\|n\.b\." in the
    script: e, a period, g, any character, a vertical bar, and n.b. with
    its periods. *)
Definition ie_eg_nb_re : regex :=
  (Bol ;; many dot ;;
   (liti "i.e." <|> (liti "e.g" ;; Chr dot ;; liti "|n.b.")) ;;
   Opt (Chr blank_tie ;; many dot) ;; Eol)%re.

(** "^.*a\.u\.\s+[a-z].*$" with MULTILINE *)
Definition au_re : regex :=
  (Bol ;; many dot ;; lit "a.u." ;; many1 space ;; Chr lower ;;
   many dot ;; Eol)%re.

Definition checkmissingbackslash (fstr : text) : list event :=
  let x := re_findall ie_eg_nb_re fstr in
  reportissues x MissingBackslashSpace ++
  let x := re_findall au_re fstr in
  reportissues x MissingBackslashSpace.

(** "^(?:.*[ \t~])?(?:[eE]qn?s?\.?\\?|[eE]quations?)[\s~]+(?:\\ref|\d).*$"
    with MULTILINE *)
Definition eqref_re : regex :=
  (Bol ;; Opt (many dot ;; Chr blank_tie) ;;
   ((Chr (one_of "eE") ;; Chr (only "q") ;; Opt (Chr (only "n")) ;;
     Opt (Chr (only "s")) ;; Opt (Chr (only ".")) ;; Opt (Chr (only "\"))) <|>
    (Chr (one_of "eE") ;; lit "quation" ;; Opt (Chr (only "s")))) ;;
   many1 space_tie ;; (lit "\ref" <|> Chr digit) ;; many dot ;; Eol)%re.

Definition checkeqref (fstr : text) : list event :=
  let x := re_findall eqref_re fstr in
  reportissues x EqRefBrackets.

(** "^$(?:.*[ \t~])?(?:[eE]qn?|[rR]ef|[fF]ig|[sS]ec)s?\.?(?:[ \t~].*)?$"
    with MULTILINE *)
Definition abbrev_re : regex :=
  ((Chr (one_of "eE") ;; Chr (only "q") ;; Opt (Chr (only "n"))) <|>
   (Chr (one_of "rR") ;; lit "ef") <|>
   (Chr (one_of "fF") ;; lit "ig") <|>
   (Chr (one_of "sS") ;; lit "ec"))%re.

Definition eqspace_re : regex :=
  (Bol ;; Eol ;; Opt (many dot ;; Chr blank_tie) ;; abbrev_re ;;
   Opt (Chr (only "s")) ;; Opt (Chr (only ".")) ;;
   Opt (Chr blank_tie ;; many dot) ;; Eol)%re.

Definition checkeqspace (fstr : text) : list event :=
  let x := re_findall eqspace_re fstr in
  reportissues x MissingBackslashSpace.

(** ** Repetition of words *)

(** [str.splitlines] on an 8-bit string: lines end at LF, CR or CR LF, and
    there is no empty last line. *)
Fixpoint splitlines_aux (cur : text) (s : text) : list text :=
  match s with
  | [] =>
      match cur with
      | [] => []
      | _ => [rev cur]
      end
  | a :: s' =>
      if Ascii.eqb a NL then rev cur :: splitlines_aux [] s'
      else if Ascii.eqb a CR then
        match s' with
        | b :: s'' =>
            if Ascii.eqb b NL then rev cur :: splitlines_aux [] s''
            else rev cur :: splitlines_aux [] s'
        | [] => [rev cur]
        end
      else splitlines_aux (a :: cur) s'
  end.

Definition splitlines (s : text) : list text := splitlines_aux [] s.

(** [str.split] without argument: the maximal runs of non-space bytes. *)
Fixpoint split_aux (cur : text) (s : text) : list text :=
  match s with
  | [] =>
      match cur with
      | [] => []
      | _ => [rev cur]
      end
  | a :: s' =>
      if space a then
        match cur with
        | [] => split_aux [] s'
        | _ => rev cur :: split_aux [] s'
        end
      else split_aux (a :: cur) s'
  end.

Definition split (s : text) : list text := split_aux [] s.

Definition text_eqb (a b : text) : bool :=
  if list_eq_dec ascii_dec a b then true else false.

Definition rep_excludes : list text :=
  [T "\hline"; T "&"; T "\\"; T "\end{itemize}"; T "\end{enumerate}";
   T "\end{description}"].

(** [^\d+,?$|^[A-Z]\.?\\?$] *)
Definition rep_excludesre : regex :=
  ((Bos ;; many1 digit ;; Opt (Chr (only ",")) ;; Eos) <|>
   (Bos ;; Chr upper ;; Opt (Chr (only ".")) ;; Opt (Chr (only "\")) ;;
    Eos))%re.

Definition rep_hit (w lw : text) : bool :=
  text_eqb w lw && negb (existsb (text_eqb w) rep_excludes) &&
  negb (found (re_search rep_excludesre w)).

(** The inner loop of [checkrep] over the words of line [l], from index
    [iw]; [lw] is the last word seen.  Returns the issues added and the
    last word afterwards. *)
Fixpoint rep_words (l : text) (ws : list text) (iw : nat) (lw : text)
    : list text * text :=
  match ws with
  | [] => ([], lw)
  | w :: ws' =>
      let x :=
        if rep_hit w lw
        then match iw with
             | 0 => [T "... " ++ w ++ [NL] ++ l]
             | _ => [l]
             end
        else [] in
      let (xs, lw') := rep_words l ws' (S iw) w in
      (x ++ xs, lw')
  end.

(** The outer loop: [lw] is carried from one line to the next. *)
Fixpoint rep_lines (ls : list text) (lw : text) : list text :=
  match ls with
  | [] => []
  | l :: ls' =>
      let (x, lw') := rep_words l (split l) 0 lw in
      x ++ rep_lines ls' lw'
  end.

Definition checkrep_issues (fstr : text) : list text :=
  rep_lines (splitlines fstr) [].

Definition checkrep (fstr : text) : list event :=
  reportissues (checkrep_issues fstr) RepetitionOfWords.

(** ** Size of thebibliography *)

Definition bibitem_re : regex := lit "\bibitem".

(** [\{thebibliography}{\d{nd}\}] *)
Definition bibwidth_re (nd : nat) : regex :=
  (lit "{thebibliography}{" ;; times nd digit ;; lit "}")%re.

(** [\{thebibliography\}\{\d*\}] *)
Definition bibdecl_re : regex :=
  (lit "{thebibliography}{" ;; many digit ;; lit "}")%re.

Section Checkbib.

(** [nd=int(math.log(float(nb))/math.log(10.0))+1] is computed in
    floating point; the model takes the function from [nb] to [nd] as
    given. *)
Variable nd_of : nat -> nat.

Definition checkbib (fstr : text) : list event :=
  let nb := length (re_findall bibitem_re fstr) in
  if 0 <? nb then
    let nd := nd_of nb in
    if negb (found (re_search (bibwidth_re nd) fstr)) then
      let bibmatch := re_search bibdecl_re fstr in
      [BibProblem nb (option_map group0 bibmatch)]
    else []
  else [].

End Checkbib.

(** The number of decimal digits of [nb], which is what [nd] is on the
    reals. *)
Fixpoint digits_upto (fuel nb : nat) : nat :=
  match fuel with
  | 0 => 1
  | S f => if nb <? 10 then 1 else S (digits_upto f (nb / 10))
  end.

Definition digits (nb : nat) : nat := digits_upto nb nb.

(** * The driver *)

(** The three document-class patterns; MULTILINE has no effect on them. *)
Definition foilsre : regex :=
  (lit "\documentclass" ;; many dot ;; lit "foils")%re.
Definition apsre : regex :=
  (lit "\documentclass" ;; many dot ;;
   ((lit "prb" ;; many space ;; Chr (one_of ",]")) <|> lit "achemso"))%re.
Definition natre : regex :=
  (lit "\documentclass" ;; many dot ;; lit "nature")%re.

Fixpoint startswith (s pre : text) : bool :=
  match pre, s with
  | [], _ => true
  | p :: pre', a :: s' => Ascii.eqb a p && startswith s' pre'
  | _ :: _, [] => false
  end.

Definition endswith (s suf : text) : bool := startswith (rev s) (rev suf).

Definition is_help (arg : text) : bool :=
  text_eqb arg (T "-help") || text_eqb arg (T "--help").

Inductive error : Type :=
| NeedTeXFile : error            (* Need to supply a TeX file ... *)
| CannotRead : text -> error.    (* Cannot read <arg>. *)

(** What a run leaves behind: the trace of what was printed and called, the
    message of [errstop] if it was called, and the exit status. *)
Record run : Type := Run {
  trace : list event;
  stopped : option error;
  status : nat
}.

Section Driver.

(** [open(arg)] followed by [f.read()]: the contents, or [None] when
    IOError is raised. *)
Variable read_file : text -> option text.

Variable nd_of : nat -> nat.

(** A call of a check leaves a [Call] event; the checks modelled above
    also leave what they print. *)
Definition call (c : check) (view : text) : list event :=
  Call c view ::
  match c with
  | Checkmissingbackslash => checkmissingbackslash view
  | Checkrep => checkrep view
  | Checkeqref => checkeqref view
  | Checkeqspace => checkeqspace view
  | Checkbib => checkbib nd_of view
  | _ => []
  end.

(** The body of the loop once the file has been read. *)
Definition check_file (fstr : text) : list event :=
  let fstr := stripcomments fstr in
  let fstr_noeqns := stripeqns fstr in
  let fstr_nomath := stripinline fstr_noeqns in
  let aps := found (re_search apsre fstr) in
  let nat := found (re_search natre fstr) in
  let foils := found (re_search foilsre fstr) in
  call Checknonascii fstr ++
  call Checkdoubledots fstr ++
  call Checkat fstr_noeqns ++
  call Checkdoublecapitalisation fstr_nomath ++
  call Checkmissingcapitalisation fstr_noeqns ++
  call Checkmissingbackslash fstr_noeqns ++
  call Checkinvcommas fstr ++
  call Checkanconsonant fstr_nomath ++
  call Checkavowel fstr_nomath ++
  call Checkerthat fstr_noeqns ++
  call Checkspacestop fstr_noeqns ++
  call Checkstopcolon fstr_noeqns ++
  call Checklyhyphen fstr_noeqns ++
  call Checkneedendash fstr_noeqns ++
  call Checkrep fstr_noeqns ++
  call Checkeqref fstr_noeqns ++
  call Checkeqspace fstr_noeqns ++
  call Checkwrongabbrev fstr_noeqns ++
  (if negb nat then call Checkmissabbrev fstr_noeqns else []) ++
  call Checkendash fstr_nomath ++
  call Checkrefcase fstr_noeqns ++
  call Checkminus fstr_nomath ++
  call Checkbib fstr ++
  call Checkacronyms fstr_noeqns ++
  call Checkmultipleacronyms fstr_noeqns ++
  (if foils then call Checkfoils fstr else call Checknotfoils fstr) ++
  (if aps || nat then call Checkwordcite fstr_noeqns
   else call Checksuperscriptcite fstr_noeqns).

(** The loop over [sys.argv[1:]]. *)
Fixpoint loop (args : list text) : run :=
  match args with
  | [] => Run [Done] None 0
  | arg :: args' =>
      if is_help arg then Run [Usage] None 0
      else if negb (endswith arg (T ".tex"))
      then Run [Checking arg] (Some NeedTeXFile) 1
      else
        match read_file arg with
        | None => Run [Checking arg] (Some (CannotRead arg)) 1
        | Some fstr =>
            let rest := loop args' in
            Run (Checking arg :: check_file fstr ++ trace rest)
                (stopped rest) (status rest)
        end
  end.

Definition main (args : list text) : run :=
  let r := loop args in
  Run (Banner :: trace r) (stopped r) (status r).

End Driver.

(** [cur'] is [cur] moved forward over [w]. *)
Definition advance (cur : cursor) (w : text) (cur' : cursor) : Prop :=
  before cur' = rev w ++ before cur /\ after cur = w ++ after cur'.


(** * What a pattern can match

    [matches r cur cs cur' cs'] says that [r] can take the cursor from [cur]
    to [cur'], turning the groups [cs] into [cs'], whatever the order in
    which the matcher tries things. *)

Inductive matches : regex -> cursor -> captures -> cursor -> captures -> Prop :=
| M_Eps cur cs : matches Eps cur cs cur cs
| M_Chr (c : charset) a pre rest cs :
    c a = true ->
    matches (Chr c) (Cursor pre (a :: rest)) cs (Cursor (a :: pre) rest) cs
| M_Bol cur cs : at_bol cur = true -> matches Bol cur cs cur cs
| M_Eol cur cs : at_eol cur = true -> matches Eol cur cs cur cs
| M_Bos cur cs : at_bos cur = true -> matches Bos cur cs cur cs
| M_Eos cur cs : at_eos cur = true -> matches Eos cur cs cur cs
| M_Seq r1 r2 c1 cs1 c2 cs2 c3 cs3 :
    matches r1 c1 cs1 c2 cs2 -> matches r2 c2 cs2 c3 cs3 ->
    matches (Seq r1 r2) c1 cs1 c3 cs3
| M_AltL r1 r2 c1 cs1 c2 cs2 :
    matches r1 c1 cs1 c2 cs2 -> matches (Alt r1 r2) c1 cs1 c2 cs2
| M_AltR r1 r2 c1 cs1 c2 cs2 :
    matches r2 c1 cs1 c2 cs2 -> matches (Alt r1 r2) c1 cs1 c2 cs2
| M_Star g (c : charset) pre w rest cs :
    forallb c w = true ->
    matches (Star g c) (Cursor pre (w ++ rest)) cs
            (Cursor (rev w ++ pre) rest) cs
| M_OptSome r1 c1 cs1 c2 cs2 :
    matches r1 c1 cs1 c2 cs2 -> matches (Opt r1) c1 cs1 c2 cs2
| M_OptNone r1 cur cs : matches (Opt r1) cur cs cur cs
| M_Grp n r1 c1 cs1 c2 cs2 :
    matches r1 c1 cs1 c2 cs2 ->
    matches (Grp n r1) c1 cs1 c2 ((n, span c1 c2) :: cs2).


(** * Lines

    The number of lines of a text is one more than its number of
    newlines, as for the anchors of MULTILINE. *)

Definition count_nl (s : text) : nat := count_occ ascii_dec s NL.

Definition line_count (s : text) : nat := S (count_nl s).

Definition nl_weight (a : ascii) : nat := if ascii_dec a NL then 1 else 0.

(** No character that the pattern consumes is a newline. *)
Fixpoint nlfree (r : regex) : bool :=
  match r with
  | Chr c => negb (c NL)
  | Star _ c => negb (c NL)
  | Seq r1 r2 => nlfree r1 && nlfree r2
  | Alt r1 r2 => nlfree r1 && nlfree r2
  | Opt r1 => nlfree r1
  | Grp _ r1 => nlfree r1
  | _ => true
  end.

(** No group of the pattern can capture a newline. *)
Fixpoint groups_nlfree (r : regex) : bool :=
  match r with
  | Seq r1 r2 => groups_nlfree r1 && groups_nlfree r2
  | Alt r1 r2 => groups_nlfree r1 && groups_nlfree r2
  | Opt r1 => groups_nlfree r1
  | Grp _ r1 => nlfree r1
  | _ => true
  end.

(** The pattern has no group. *)
Fixpoint groupless (r : regex) : bool :=
  match r with
  | Seq r1 r2 => groupless r1 && groupless r2
  | Alt r1 r2 => groupless r1 && groupless r2
  | Opt r1 => groupless r1
  | Grp _ _ => false
  | _ => true
  end.

Definition caps_nlfree (cs : captures) : Prop :=
  Forall (fun p => count_nl (snd p) = 0) cs.

Definition tmpl_nlfree (tmpl : list titem) : Prop :=
  Forall (fun i => match i with TLit t => count_nl t = 0 | TGrp _ => True end)
         tmpl.


(** Lines joined by newlines, to write texts of several lines. *)
Fixpoint join_nl (ls : list text) : text :=
  match ls with
  | [] => []
  | [l] => l
  | l :: ls' => l ++ NL :: join_nl ls'
  end.


(** * Reading a trace *)

(** The checks that were called, with the view each was given. *)
Definition calls (tr : list event) : list (check * text) :=
  flat_map (fun e => match e with Call c v => [(c, v)] | _ => [] end) tr.

(** The checks that the driver calls under a condition. *)
Definition conditional (c : check) : bool :=
  match c with
  | Checkmissabbrev | Checkfoils | Checknotfoils | Checkwordcite
  | Checksuperscriptcite => true
  | _ => false
  end.

Definition conditional_calls (tr : list event) : list (check * text) :=
  filter (fun p => conditional (fst p)) (calls tr).

(** A file was looked at or a check was run. *)
Definition processing (e : event) : bool :=
  match e with
  | Checking _ | Call _ _ | Issues _ _ | BibProblem _ _ => true
  | _ => false
  end.


(** An argument that passes both tests of the loop: it ends in [.tex] and
    can be read. *)
Definition well_named (arg : text) : bool := endswith arg (T ".tex").

Definition readable (read_file : text -> option text) (arg : text) : bool :=
  match read_file arg with
  | Some _ => true
  | None => false
  end.

Definition good (read_file : text -> option text) (arg : text) : bool :=
  well_named arg && readable read_file arg.

(** What the loop prints for a good argument. *)
Definition file_events (read_file : text -> option text) (nd_of : nat -> nat)
    (arg : text) : list event :=
  match read_file arg with
  | Some fstr => Checking arg :: check_file nd_of fstr
  | None => []
  end.


(** Two small file systems to run the driver on: one where every path can
    be read, one that holds the single file [a.tex]. *)
Definition any_file : text -> option text := fun _ => Some (T "x").

Definition only_a_tex : text -> option text :=
  fun p => if text_eqb p (T "a.tex") then Some (T "the the") else None.


(** The last word seen by [checkrep] after the lines [ls]. *)
Fixpoint rep_last (ls : list text) (lw : text) : text :=
  match ls with
  | [] => lw
  | l :: ls' => rep_last ls' (snd (rep_words l (split l) 0 lw))
  end.


(** The document declares thebibliography with an argument of exactly
    [nd] digits. *)
Definition declares_width (nd : nat) (fstr : text) : Prop :=
  exists pre ds post,
    length ds = nd /\ forallb digit ds = true /\
    fstr = pre ++ T "{thebibliography}{" ++ ds ++ T "}" ++ post.

(** A bibliography of six items declared with the argument 5. *)
Definition six_items_width_5 : text :=
  join_nl [T "\begin{thebibliography}{5}";
           T "\bibitem{a} A."; T "\bibitem{b} B."; T "\bibitem{c} C.";
           T "\bibitem{d} D."; T "\bibitem{e} E."; T "\bibitem{f} F.";
           T "\end{thebibliography}"].


(** * Dollars

    Two adjacent dollars somewhere in a text. *)
Definition starts_dollar (s : text) : bool :=
  match s with
  | b :: _ => only "$" b
  | [] => false
  end.

Fixpoint has_dd (s : text) : bool :=
  match s with
  | a :: s' => (only "$" a && starts_dollar s') || has_dd s'
  | [] => false
  end.

(** The shortest text from a position that ends with a character other
    than a backslash followed by a dollar, and what comes after it: where
    the lazy ".*?[^\\]\$" stops. *)
Fixpoint closing (rest : text) : option (text * text) :=
  match rest with
  | [] => None
  | x :: rest' =>
      if except "\" x && starts_dollar rest'
      then Some ([x; "$"%char], tl rest')
      else match closing rest' with
           | Some (w, r) => Some (x :: w, r)
           | None => None
           end
  end.

(** Where the pattern of inline formulas matches at the start of a text:
    the first character, the rest of the match, and what comes after. *)
Definition inline_at (rest : text) : option (ascii * text * text) :=
  match rest with
  | c :: d :: rest1 =>
      if except "\" c && only "$" d
      then match closing rest1 with
           | Some (w, r) => Some (c, d :: w, r)
           | None => None
           end
      else None
  | _ => None
  end.

(** The loop of [re.sub] from a position. *)
Definition sub_from (r : regex) (tmpl : list titem) (pre rest : text)
    (adj : bool) : text :=
  flat_map (render tmpl) (scan r pre rest 0 adj).


(** The substitution of inline formulas, step by step. *)
Definition inline_sub (pre rest : text) (adj : bool) : text :=
  sub_from inline_dollar_re xxx_tmpl pre rest adj.

(** * More checks

    The checks below report through [reportissues] as well; their messages
    are named by a heading, and a report is a heading with its lines. *)

Inductive heading : Type :=
| NeedAt                     (* need for "\@" *)
| SpeechMarks                (* erroneous speech marks *)
| BackslashAfterColon        (* need for backslash after colon *)
| UnnecessaryHyphen          (* unnecessary hyphen *)
| SpaceBeforeDash            (* need to delete space before dash *)
| SpaceAfterDash             (* need to delete space after dash *)
| NeedCapital                (* need to use a capital letter *)
| MathModeMinus              (* need to use math mode for minus sign *)
| NonPrintable               (* non-printable-ASCII character(s) *)
| Textit                     (* "\textit" *)
| Textsc                     (* "\textsc" *)
| EquationEnv                (* "equation" *)
| MissingTie                 (* missing "~" *)
| Textsl                     (* "\textsl" *)
| Displaymath                (* "displaymath" *)
| EqnarrayStar               (* "eqnarray*" *)
| FootnoteTie                (* "\footnote{~" *)
| SpaceCite                  (* " \cite" *)
| DotCite                    (* ".\cite" *)
| MissingCapitalisation      (* missing capitalisation *)
| AnConsonant                (* "an consonant" *)
| AVowel                     (* "a vowel" *)
| ErThat                     (* "...er that" *)
| NeedEnDash                 (* need for an en-dash *)
| NonabbreviatedForm         (* need to use nonabbreviated form at start of
                                a sentence *)
| AbbreviatedForm.           (* need to use abbreviated form in middle of a
                                sentence *)

Definition report : Type := (heading * list text)%type.

Definition reportlines (x : list text) (message : heading) : list report :=
  match x with
  | [] => []
  | _ => [(message, x)]
  end.

(** [\w] on 8-bit strings, and a letter of either case. *)
Definition word : charset :=
  fun a => lower a || upper a || digit a || Ascii.eqb a "_".
Definition letter : charset := fun a => lower a || upper a.

Definition DQUOTE : ascii := "034"%char.

(** "^.*\w[A-Z][\)\]']*\.[\)\]']*(?:[ \t~].*)?$" with MULTILINE *)
Definition at_re : regex :=
  (Bol ;; many dot ;; Chr word ;; Chr upper ;; many (one_of ")]'") ;;
   Chr (only ".") ;; many (one_of ")]'") ;;
   Opt (Chr blank_tie ;; many dot) ;; Eol)%re.

Definition checkat (fstr : text) : list report :=
  let x := re_findall at_re fstr in
  reportlines x NeedAt.

(** The three alternatives of the pattern of [checkinvcommas], with
    MULTILINE: a double quote after a character other than a backslash;
    an apostrophe at the start of the line or after a blank or tie; a
    backquote at the end of the line or before a blank or tie. *)
Definition invcommas_re : regex :=
  ((Bol ;; many dot ;; Chr (fun a => except "\" a && except NL a) ;;
    Chr (only DQUOTE) ;; many dot ;; Eol) <|>
   (Bol ;; Opt (many dot ;; Chr blank_tie) ;; Chr (only "'") ;;
    many dot ;; Eol) <|>
   (Bol ;; many dot ;; Chr (only "`") ;;
    Opt (Chr blank_tie ;; many dot) ;; Eol))%re.

Definition checkinvcommas (fstr : text) : list report :=
  let x := re_findall invcommas_re fstr in
  reportlines x SpeechMarks.

(** "^.*\.:(?:[ \t~].*)?$" with MULTILINE *)
Definition stopcolon_re : regex :=
  (Bol ;; many dot ;; lit ".:" ;; Opt (Chr blank_tie ;; many dot) ;; Eol)%re.

Definition checkstopcolon (fstr : text) : list report :=
  let x := re_findall stopcolon_re fstr in
  reportlines x BackslashAfterColon.

(** [^.*ly-[a-z].*$] with MULTILINE and IGNORECASE *)
Definition lyhyphen_re : regex :=
  (Bol ;; many dot ;; liti "ly-" ;; Chr letter ;; many dot ;; Eol)%re.

Definition checklyhyphen (fstr : text) : list report :=
  let x := re_findall lyhyphen_re fstr in
  reportlines x UnnecessaryHyphen.

(** [^(?:.*[ \t~])?--.*$] with MULTILINE *)
Definition dash_before_re : regex :=
  (Bol ;; Opt (many dot ;; Chr blank_tie) ;; lit "--" ;; many dot ;; Eol)%re.

(** "^.*[^\d\n]--(?:[ \t~].*)?$" with MULTILINE *)
Definition dash_after_re : regex :=
  (Bol ;; many dot ;; Chr (fun a => negb (digit a) && except NL a) ;;
   lit "--" ;; Opt (Chr blank_tie ;; many dot) ;; Eol)%re.

Definition checkendash (fstr : text) : list report :=
  let x := re_findall dash_before_re fstr in
  reportlines x SpaceBeforeDash ++
  let x := re_findall dash_after_re fstr in
  reportlines x SpaceAfterDash.

(** "^(?:.*[ \t~])?(?:eqn?|fig|sec|table|ref)s?\.($:[ \t~].*)?$" with
    MULTILINE.  The group holds a line end, a colon, a blank or tie and
    the rest of the line. *)
Definition refcase_re : regex :=
  (Bol ;; Opt (many dot ;; Chr blank_tie) ;;
   ((lit "eq" ;; Opt (Chr (only "n"))) <|> lit "fig" <|> lit "sec" <|>
    lit "table" <|> lit "ref") ;;
   Opt (Chr (only "s")) ;; Chr (only ".") ;;
   Opt (Grp 1 (Eol ;; Chr (only ":") ;; Chr blank_tie ;; many dot)) ;;
   Eol)%re.

(** [re.findall] for a pattern with one group: the text of the group for
    each match, empty when the group took no part. *)
Definition hit_group (n : nat) (p : piece) : list text :=
  match p with
  | Keep _ => []
  | Hit _ _ cs =>
      match group n cs with
      | Some t => [t]
      | None => [[]]
      end
  end.

Definition re_findall_group (n : nat) (r : regex) (s : text) : list text :=
  flat_map (hit_group n) (scan r [] s 0 false).

Definition checkrefcase (fstr : text) : list report :=
  let x := re_findall_group 1 refcase_re fstr in
  reportlines x NeedCapital.

(** "^(?:.*(?:[ \t~]|[^\{\n]\d))?-\d.*$" with MULTILINE *)
Definition minus_re : regex :=
  (Bol ;;
   Opt (many dot ;;
        (Chr blank_tie <|>
         (Chr (fun a => except "{" a && except NL a) ;; Chr digit))) ;;
   Chr (only "-") ;; Chr digit ;; many dot ;; Eol)%re.

Definition checkminus (fstr : text) : list report :=
  let x := re_findall minus_re fstr in
  reportlines x MathModeMinus.

(** [[^\x20-\x7E\x0A\x0D\n]] *)
Definition nonprintable : charset :=
  fun a => negb (in_range " " "~" a) && except NL a && except CR a.

(** [^.*[^\x20-\x7E\x0A\x0D\n].*$] with MULTILINE *)
Definition nonascii_re : regex :=
  (Bol ;; many dot ;; Chr nonprintable ;; many dot ;; Eol)%re.

(** [checknonascii] reports the lines and then, when the text holds a
    carriage return, prints the notice about MS-DOS line ends: the second
    component tells whether it does. *)
Definition checknonascii (fstr : text) : list report * bool :=
  let x := re_findall nonascii_re fstr in
  (reportlines x NonPrintable, existsb (Ascii.eqb CR) fstr).

(** A pattern "^.*<literal>.*$" with MULTILINE. *)
Definition holding (s : string) : regex :=
  (Bol ;; many dot ;; lit s ;; many dot ;; Eol)%re.
Arguments holding s%_string.

(** "^.*\\footnote{[^~].*$" with MULTILINE *)
Definition footnote_re : regex :=
  (Bol ;; many dot ;; lit "\footnote{" ;; Chr (except "~") ;; many dot ;;
   Eol)%re.

Definition checkfoils (fstr : text) : list report :=
  let x := re_findall (holding "\textit") fstr in
  reportlines x Textit ++
  let x := re_findall (holding "\textsc") fstr in
  reportlines x Textsc ++
  let x := re_findall (holding "\begin{equation}") fstr in
  reportlines x EquationEnv ++
  let x := re_findall footnote_re fstr in
  reportlines x MissingTie.

Definition checknotfoils (fstr : text) : list report :=
  let x := re_findall (holding "\textsl") fstr in
  reportlines x Textsl ++
  let x := re_findall (holding "\begin{displaymath}") fstr in
  reportlines x Displaymath ++
  let x := re_findall (holding "\begin{eqnarray*}") fstr in
  reportlines x EqnarrayStar ++
  let x := re_findall (holding "\footnote{~") fstr in
  reportlines x FootnoteTie.

(** [^(?:.*[ \t~])?\\cite.*$] with MULTILINE *)
Definition wordcite_re : regex :=
  (Bol ;; Opt (many dot ;; Chr blank_tie) ;; lit "\cite" ;; many dot ;;
   Eol)%re.

Definition checkwordcite (fstr : text) : list report :=
  let x := re_findall wordcite_re fstr in
  reportlines x SpaceCite.

(** [^.*[^\s~\n]\\cite.*$] with MULTILINE *)
Definition superscriptcite_re : regex :=
  (Bol ;; many dot ;; Chr (fun a => negb (space_tie a) && except NL a) ;;
   lit "\cite" ;; many dot ;; Eol)%re.

Definition checksuperscriptcite (fstr : text) : list report :=
  let x := re_findall superscriptcite_re fstr in
  reportlines x DotCite.


(** ** Checks whose patterns can run over a line break

    In the patterns below the class [\s] stands between two parts of the
    text looked for; it holds the newline, so a match can start on one
    line and end on a later one. *)

(** "^.*\.[\)\]\}']*[\s~]+[a-z].*$" with MULTILINE *)
Definition missingcap_re : regex :=
  (Bol ;; many dot ;; Chr (only ".") ;; many (one_of ")]}'") ;;
   many1 space_tie ;; Chr lower ;; many dot ;; Eol)%re.

Definition checkmissingcapitalisation (fstr : text) : list report :=
  let x := re_findall missingcap_re fstr in
  reportlines x MissingCapitalisation.

(** "^(?:.*[ \t~])?[Aa]n[\s~]+(?:[bcdfgjklmnpqrstvwxyz]|[BCDFGJKLMNPQRSTVWXYZ][a-z]).*$"
    with MULTILINE *)
Definition anconsonant_re : regex :=
  (Bol ;; Opt (many dot ;; Chr blank_tie) ;; Chr (one_of "Aa") ;;
   Chr (only "n") ;; many1 space_tie ;;
   (Chr (one_of "bcdfgjklmnpqrstvwxyz") <|>
    (Chr (one_of "BCDFGJKLMNPQRSTVWXYZ") ;; Chr lower)) ;;
   many dot ;; Eol)%re.

Definition checkanconsonant (fstr : text) : list report :=
  let x := re_findall anconsonant_re fstr in
  reportlines x AnConsonant.

(** "^(?:.*[ \t~])?a[\s~]+[aei].*$" with MULTILINE and IGNORECASE *)
Definition avowel_re : regex :=
  (Bol ;; Opt (many dot ;; Chr blank_tie) ;; Chr (is_nocase "a") ;;
   many1 space_tie ;; Chr (one_of "aeiAEI") ;; many dot ;; Eol)%re.

Definition checkavowel (fstr : text) : list report :=
  let x := re_findall avowel_re fstr in
  reportlines x AVowel.

(** "(?:remember|order|layer|however|compiler|power|parameter|barrier)[\s~]+that"
    with IGNORECASE *)
Definition erthat_excludere : regex :=
  ((liti "remember" <|> liti "order" <|> liti "layer" <|> liti "however" <|>
    liti "compiler" <|> liti "power" <|> liti "parameter" <|>
    liti "barrier") ;;
   many1 space_tie ;; liti "that")%re.

(** "^.*er[\s~]+that[\s~].*$|^(?:.*[ \t~])?less[\s~]+that(?:[ \t~].*)?$"
    with MULTILINE and IGNORECASE *)
Definition erthat_re : regex :=
  ((Bol ;; many dot ;; liti "er" ;; many1 space_tie ;; liti "that" ;;
    Chr space_tie ;; many dot ;; Eol) <|>
   (Bol ;; Opt (many dot ;; Chr blank_tie) ;; liti "less" ;;
    many1 space_tie ;; liti "that" ;; Opt (Chr blank_tie ;; many dot) ;;
    Eol))%re.

Definition checkerthat (fstr : text) : list report :=
  let y := re_findall erthat_re fstr in
  let x := filter (fun t => negb (found (re_search erthat_excludere t))) y in
  reportlines x ErThat.

(** "^(?:.*[^\{\d\n][ \t~]*)?\d+[\s~\$]*-[\s~\$]*\d.*$" with MULTILINE *)
Definition needendash_re : regex :=
  (Bol ;;
   Opt (many dot ;;
        Chr (fun a => except "{" a && negb (digit a) && except NL a) ;;
        many blank_tie) ;;
   many1 digit ;; many (cs_or space_tie (only "$")) ;; Chr (only "-") ;;
   many (cs_or space_tie (only "$")) ;; Chr digit ;; many dot ;; Eol)%re.

Definition checkneedendash (fstr : text) : list report :=
  let x := re_findall needendash_re fstr in
  reportlines x NeedEnDash.

(** "^.*\.\s+(?:Eqn?|Ref|Fig|Sec)s?\..*$" with MULTILINE and IGNORECASE *)
Definition wrongabbrev_re : regex :=
  (Bol ;; many dot ;; Chr (only ".") ;; many1 space ;;
   ((liti "eq" ;; Opt (Chr (is_nocase "n"))) <|> liti "ref" <|>
    liti "fig" <|> liti "sec") ;;
   Opt (Chr (is_nocase "s")) ;; Chr (only ".") ;; many dot ;; Eol)%re.

Definition checkwrongabbrev (fstr : text) : list report :=
  let x := re_findall wrongabbrev_re fstr in
  reportlines x NonabbreviatedForm.

(** "^.*[A-Z,;:a-z]\s+(?:Equation|Reference|Figure|Section)[\s~]*(?:\(?\\ref|\d).*$"
    with MULTILINE *)
Definition missabbrev_re : regex :=
  (Bol ;; many dot ;;
   Chr (fun a => upper a || one_of ",;:" a || lower a) ;; many1 space ;;
   (lit "Equation" <|> lit "Reference" <|> lit "Figure" <|> lit "Section") ;;
   many space_tie ;;
   ((Opt (Chr (only "(")) ;; lit "\ref") <|> Chr digit) ;;
   many dot ;; Eol)%re.

Definition checkmissabbrev (fstr : text) : list report :=
  let x := re_findall missabbrev_re fstr in
  reportlines x AbbreviatedForm.


(** * Lines of a text

    The lines that the anchors of MULTILINE delimit: the text between
    newlines.  The empty text has one empty line, and a text that ends
    with a newline has an empty last line. *)
Fixpoint split_nl (s : text) : list text :=
  match s with
  | [] => [[]]
  | a :: s' =>
      if Ascii.eqb a NL then [] :: split_nl s'
      else match split_nl s' with
           | l :: ls => (a :: l) :: ls
           | [] => [[a]]
           end
  end.

Definition line_start (pre : text) : bool :=
  match pre with
  | [] => true
  | c :: _ => Ascii.eqb c NL
  end.

Definition line_end (rest : text) : bool :=
  match rest with
  | [] => true
  | c :: _ => Ascii.eqb c NL
  end.

(** The pattern has no anchor of the whole string. *)
Fixpoint no_string_anchor (r : regex) : bool :=
  match r with
  | Bos | Eos => false
  | Seq r1 r2 => no_string_anchor r1 && no_string_anchor r2
  | Alt r1 r2 => no_string_anchor r1 && no_string_anchor r2
  | Opt r1 => no_string_anchor r1
  | Grp _ r1 => no_string_anchor r1
  | _ => true
  end.

(** Every way through the pattern starts with [^], ends with [$]. *)
Fixpoint starts_bol (r : regex) : bool :=
  match r with
  | Bol => true
  | Seq r1 _ => starts_bol r1
  | Alt r1 r2 => starts_bol r1 && starts_bol r2
  | Grp _ r1 => starts_bol r1
  | _ => false
  end.

Fixpoint ends_eol (r : regex) : bool :=
  match r with
  | Eol => true
  | Seq _ r2 => ends_eol r2
  | Alt r1 r2 => ends_eol r1 && ends_eol r2
  | Grp _ r1 => ends_eol r1
  | _ => false
  end.

(** A pattern that is anchored to a line at both ends and cannot consume
    a newline. *)
Definition line_pattern (r : regex) : bool :=
  nlfree r && no_string_anchor r && starts_bol r && ends_eol r.

(** The pattern matches the line taken on its own. *)
Definition line_hit (r : regex) (l : text) : bool :=
  match match_at r (Cursor [] l) with
  | Some _ => true
  | None => false
  end.


(** The patterns of the script that are anchored to a line at both ends,
    cannot consume a newline and have no capturing group, so that
    [re.findall] gives the texts of the matches: those of [checkat],
    [checkinvcommas], [checkstopcolon], [checklyhyphen], [checkendash],
    [checkminus], [checknonascii], [checkwordcite], [checksuperscriptcite]
    and [checkeqspace], the first of [checkmissingbackslash], the first
    three of [checkfoils] and the four of [checknotfoils].  The pattern of
    [checkrefcase] has a group and is treated apart. *)
Definition line_checks : list regex :=
  [at_re; invcommas_re; stopcolon_re; lyhyphen_re; dash_before_re;
   dash_after_re; minus_re; nonascii_re; wordcite_re;
   superscriptcite_re; eqspace_re; ie_eg_nb_re;
   holding "\textit"; holding "\textsc"; holding "\begin{equation}";
   holding "\textsl"; holding "\begin{displaymath}";
   holding "\begin{eqnarray*}"; holding "\footnote{~"].

(** [x] occurs in [l]. *)
Fixpoint contains (x l : text) : bool :=
  startswith l x ||
  match l with
  | _ :: l' => contains x l'
  | [] => false
  end.

(** [x] occurs in [l] at a place where the character before it, if any,
    passes the test [ok]; [prev] is the character before [l]. *)
Fixpoint occurs_after (ok : option ascii -> bool) (x : text)
    (prev : option ascii) (l : text) : bool :=
  (ok prev && startswith l x) ||
  match l with
  | a :: l' => occurs_after ok x (Some a) l'
  | [] => false
  end.

(** At the start of the line or after a blank or tie. *)
Definition after_blank (prev : option ascii) : bool :=
  match prev with
  | None => true
  | Some b => blank_tie b
  end.

(** After a character that is neither white space nor a tie. *)
Definition after_nonspace (prev : option ascii) : bool :=
  match prev with
  | None => false
  | Some b => negb (space_tie b) && except NL b
  end.


(** The character before the end of [u], or [prev] when [u] is empty. *)
Definition last_char (prev : option ascii) (u : text) : option ascii :=
  match rev u with
  | b :: _ => Some b
  | [] => prev
  end.


(** [l] ends with [x], and the character before that [x], if any, passes
    the test [ok]; [prev] is the character before [l]. *)
Fixpoint ends_after (ok : option ascii -> bool) (x : text)
    (prev : option ascii) (l : text) : bool :=
  (ok prev && text_eqb l x) ||
  match l with
  | a :: l' => ends_after ok x (Some a) l'
  | [] => false
  end.

(** The words that "(?:eqn?|fig|sec|table|ref)s?" in the pattern of
    [checkrefcase] accepts, and the part of the pattern from there on. *)
Definition refcase_words : list text :=
  map T ["eq"; "eqn"; "fig"; "sec"; "table"; "ref";
         "eqs"; "eqns"; "figs"; "secs"; "tables"; "refs"]%string.

Definition refcase_end : regex :=
  (Chr (only ".") ;;
   Opt (Grp 1 (Eol ;; Chr (only ":") ;; Chr blank_tie ;; many dot)) ;;
   Eol)%re.

Definition refcase_mid : regex :=
  (((lit "eq" ;; Opt (Chr (only "n"))) <|> lit "fig" <|> lit "sec" <|>
    lit "table" <|> lit "ref") ;;
   Opt (Chr (only "s")) ;; refcase_end)%re.

(** A line that ends with one of the words and a full stop, the word
    standing at the start of the line or after a blank or tie. *)
Definition refcase_line (l : text) : bool :=
  existsb (fun k => ends_after after_blank (k ++ T ".") None l) refcase_words.


(** A line whose first character after blanks is a percent sign. *)
Fixpoint comment_only (l : text) : bool :=
  match l with
  | [] => false
  | a :: l' => if blank a then comment_only l' else Ascii.eqb a "%"
  end.

(** The line cut before its last percent sign that follows a character
    other than a backslash, when it has one. *)
Fixpoint cut_tail (l : text) : option text :=
  match l with
  | b :: l' =>
      match cut_tail l' with
      | Some x => Some (b :: x)
      | None =>
          match l' with
          | p :: _ =>
              if only "%" p && except "\" b then Some [b] else None
          | [] => None
          end
      end
  | [] => None
  end.

(** What the two comment substitutions leave of a line. *)
Definition strip_line (l : text) : text :=
  if comment_only l then []
  else match cut_tail l with
       | Some x => x
       | None => l
       end.


(** The number of words in [ws] that [checkrep] takes for a repetition
    of the word before them; [lw] is the word before the first. *)
Fixpoint reps (lw : text) (ws : list text) : nat :=
  match ws with
  | [] => 0
  | w :: ws' => (if rep_hit w lw then 1 else 0) + reps w ws'
  end.


(** What a check leaves in the trace. *)
Definition left_by_check (e : event) : bool :=
  match e with
  | Call _ _ | Issues _ _ | BibProblem _ _ => true
  | _ => false
  end.


(** The matches found are pieces of the text that follow one another,
    each of them starting at the start of a line and ending at the end of
    a line.  [blocks pre rest hs]: the pieces [hs] lie in [rest] in this
    way, [pre] being the text before [rest], last character first. *)
Inductive blocks : text -> text -> list text -> Prop :=
| blocks_nil pre rest : blocks pre rest []
| blocks_skip pre a rest hs :
    blocks (a :: pre) rest hs -> blocks pre (a :: rest) hs
| blocks_hit pre w rest hs :
    line_start pre = true -> line_end rest = true ->
    blocks (rev w ++ pre) rest hs -> blocks pre (w ++ rest) (w :: hs).

(** The patterns of the script that start with [^] and end with [$]
    under MULTILINE but can consume a newline. *)
Definition spanning_checks : list regex :=
  [missingcap_re; anconsonant_re; avowel_re; erthat_re; needendash_re;
   wrongabbrev_re; missabbrev_re; footnote_re; au_re; eqref_re].


(** ** Display formulas, in plain terms

    The environment names of [stripeqns]; the texts that open a display
    formula and those that close one, with the groups that the pattern
    records inside them. *)
Definition eqn_names : list text :=
  map T ["math"; "equation"; "equation*"; "displaymath"; "eqnarray";
         "eqnarray*"; "align"]%string.

Definition opener_table : list (text * captures) :=
  map (fun n => (T "\begin{" ++ n ++ T "}", [(2, n)])) eqn_names ++
  [(T "\(", []); (T "\[", [])].

Definition closer_table : list (text * captures) :=
  map (fun n => (T "\end{" ++ n ++ T "}", [(4, n)])) eqn_names ++
  [(T "\]", []); (T "\)", [])].

Definition openers : list text := map fst opener_table.
Definition closers : list text := map fst closer_table.

(** The entry of a table whose text the text [rest] starts with. *)
Definition entry_at (tbl : list (text * captures)) (rest : text)
    : option (text * captures) :=
  find (fun e => startswith rest (fst e)) tbl.

(** The text up to the first closer, and the entry of that closer. *)
Fixpoint first_closer (rest : text) : option (text * (text * captures)) :=
  match entry_at closer_table rest with
  | Some e => Some ([], e)
  | None =>
      match rest with
      | x :: rest' =>
          match first_closer rest' with
          | Some (b, e) => Some (x :: b, e)
          | None => None
          end
      | [] => None
      end
  end.

(** A display formula at the start of a text: an opener, the text up to
    the first closer after it, of whatever kind, and that closer. *)
Definition eqn_at (rest : text) : option (text * text * text) :=
  match entry_at opener_table rest with
  | Some (o, _) =>
      match first_closer (skipn (length o) rest) with
      | Some (b, (c, _)) => Some (o, b, c)
      | None => None
      end
  | None => None
  end.

(** From left to right, every display formula is replaced by its opener,
    the letters xxx between spaces, and its closer; [skip] characters
    are passed over first. *)
Fixpoint collapse_eqns (skip : nat) (rest : text) : text :=
  match rest with
  | [] => []
  | a :: rest' =>
      match skip with
      | S n => collapse_eqns n rest'
      | 0 =>
          match eqn_at rest with
          | Some (o, b, c) =>
              o ++ T " xxx " ++ c ++
              collapse_eqns (length (o ++ b ++ c) - 1) rest'
          | None => a :: collapse_eqns 0 rest'
          end
      end
  end.

(** The substitution of [stripeqns], step by step. *)
Definition eqn_tmpl : list titem := [TGrp 1; TLit (T " xxx "); TGrp 3].

Definition eqn_sub (pre rest : text) (adj : bool) : text :=
  sub_from eqn_re eqn_tmpl pre rest adj.


(** The shape that the opening and the closing part of the pattern of
    [stripeqns] share: a keyword, a recorded environment name and a
    closing brace, or a backslash and a bracket. *)
Definition delim_re (kw : text) (gn : nat) (brc : charset) : regex :=
  ((lit_text kw ;; Grp gn eqn_env ;; lit "}") <|>
   (Chr (only "\") ;; Chr brc))%re.

Definition delim_table (kw : text) (gn : nat) (brs : list ascii)
    : list (text * captures) :=
  map (fun n => (kw ++ n ++ T "}", [(gn, n)])) eqn_names ++
  map (fun b => (["\"%char; b], @nil (nat * text))) brs.


(** A text that is empty or starts with a backslash. *)
Definition bs_or_end (y : text) : bool :=
  match y with
  | [] => true
  | a :: _ => only "\" a
  end.


(** ** Verbatim and listing blocks, in plain terms *)

(** The text before the first occurrence of [B]. *)
Fixpoint first_at (B : text) (rest : text) : option text :=
  if startswith rest B then Some []
  else match rest with
       | x :: rest' =>
           match first_at B rest' with
           | Some b => Some (x :: b)
           | None => None
           end
       | [] => None
       end.

(** A block at the start of a text: [A], then the text up to the first
    [B] after it. *)
Definition block_at (A B rest : text) : option text :=
  if startswith rest A then first_at B (skipn (length A) rest) else None.

(** From left to right, every block from [A] to the first [B] after it
    is replaced by [t]; [skip] characters are passed over first. *)
Fixpoint collapse_block (A B t : text) (skip : nat) (rest : text) : text :=
  match rest with
  | [] => []
  | a :: rest' =>
      match skip with
      | S n => collapse_block A B t n rest'
      | 0 =>
          match block_at A B rest with
          | Some b =>
              t ++ collapse_block A B t (length (A ++ b ++ B) - 1) rest'
          | None => a :: collapse_block A B t 0 rest'
          end
      end
  end.

Definition block_re (A B : text) : regex :=
  (lit_text A ;; few dotall ;; lit_text B)%re.


(** Character tests are kept folded in proofs. *)
Arguments only c%_char _ : simpl never.
Arguments except c%_char _ : simpl never.
Arguments one_of s%_string _ : simpl never.
Arguments none_of s%_string _ : simpl never.
Arguments dot _ : simpl never.
Arguments digit _ : simpl never.
Arguments space _ : simpl never.
Arguments blank _ : simpl never.


(** * The definitions at work *)

Example stripcomments_example :
  stripcomments
    (join_nl [T "% header"; T "Cost: 5\% of total % aside";
              T "\begin{verbatim}"; T "raw % text"; T "\end{verbatim} end"]) =
  join_nl [T ""; T "Cost: 5\% of total ";
           T "\begin{verbatim} \end{verbatim} end"].
Proof. vm_compute. reflexivity. Qed.

Example stripeqns_example :
  stripeqns (T "see \[ a+b \] and \begin{equation}x\end{equation}.") =
  T "see \[ xxx \] and \begin{equation} xxx \end{equation}.".
Proof. vm_compute. reflexivity. Qed.

Example stripinline_example :
  stripinline (T "if $a<b$ then $$c$$ costs \$5") =
  T "if $xxx$ then $xxx$ costs \$5".
Proof. vm_compute. reflexivity. Qed.

Example splitlines_example :
  splitlines (T "a b" ++ [CR; NL] ++ T "c" ++ [NL; NL] ++ T "d" ++ [NL]) =
  [T "a b"; T "c"; T ""; T "d"].
Proof. vm_compute. reflexivity. Qed.

Example split_example :
  split (T "  the  cat" ++ [TAB] ++ T "sat ") = [T "the"; T "cat"; T "sat"].
Proof. vm_compute. reflexivity. Qed.

Example checkrep_example :
  checkrep (T "the the cat sat") =
    [Issues RepetitionOfWords [T "the the cat sat"]] /\
  checkrep (T "\hline \hline") = [] /\
  checkrep (T "items 12 12 and A. A.") = [].
Proof. vm_compute. repeat split; reflexivity. Qed.

Example checkbib_example :
  checkbib digits (join_nl [T "\begin{thebibliography}{99}"; T "\bibitem{a} A."]) =
    [BibProblem 1 (Some (T "{thebibliography}{99}"))] /\
  checkbib digits (T "\bibitem{a} A.") = [BibProblem 1 None] /\
  checkbib digits (T "no items") = [].
Proof. vm_compute. repeat split; reflexivity. Qed.

Example flags_example :
  found (re_search apsre (T "\documentclass[aps,prb,twocolumn]{revtex4}")) = true /\
  found (re_search natre (T "\documentclass{nature}")) = true /\
  found (re_search foilsre (T "\documentclass{article}")) = false.
Proof. vm_compute. repeat split; reflexivity. Qed.

(** * Properties of the matcher *)

(** ** Cursors and spans *)

Lemma advance_nil cur : advance cur [] cur.
Proof. split; reflexivity. Qed.

Lemma advance_one a pre rest :
  advance (Cursor pre (a :: rest)) [a] (Cursor (a :: pre) rest).
Proof. split; reflexivity. Qed.

Lemma advance_trans c1 c2 c3 w1 w2 :
  advance c1 w1 c2 -> advance c2 w2 c3 -> advance c1 (w1 ++ w2) c3.
Proof.
  intros [Hb1 Ha1] [Hb2 Ha2]. split.
  - rewrite Hb2, Hb1, rev_app_distr, app_assoc. reflexivity.
  - rewrite Ha1, Ha2, app_assoc. reflexivity.
Qed.

Lemma advance_span cur w cur' : advance cur w cur' -> span cur cur' = w.
Proof.
  intros [Hb Ha]. unfold span.
  rewrite Hb, Ha, length_app, length_rev.
  replace (length w + length (before cur) - length (before cur))
    with (length w + 0) by lia.
  rewrite firstn_app_2. simpl. apply app_nil_r.
Qed.

Lemma advance_cursor pre w rest :
  advance (Cursor pre (w ++ rest)) w (Cursor (rev w ++ pre) rest).
Proof. split; reflexivity. Qed.

Lemma advance_inv cur w cur' :
  advance cur w cur' ->
  cur = Cursor (before cur) (w ++ after cur') /\
  cur' = Cursor (rev w ++ before cur) (after cur').
Proof.
  destruct cur as [p r], cur' as [p' r']. simpl.
  intros [Hb Ha]. simpl in *. subst. split; reflexivity.
Qed.

#[local] Hint Constructors matches : core.

Lemma star_greedy_sound c k res : forall rest pre cs,
  star_greedy c pre rest cs k = Some res ->
  exists w rest', rest = w ++ rest' /\ forallb c w = true /\
                  k (Cursor (rev w ++ pre) rest') cs = Some res.
Proof.
  induction rest as [|a rest IH]; intros pre cs H; simpl in H.
  - exists [], []. auto.
  - destruct (c a) eqn:Ha.
    + destruct (star_greedy c (a :: pre) rest cs k) eqn:E; simpl in H.
      * injection H as <-. apply IH in E as (w & rest' & -> & Hw & Hk).
        exists (a :: w), rest'. simpl. rewrite Ha, Hw, <- app_assoc. auto.
      * exists [], (a :: rest). auto.
    + exists [], (a :: rest). auto.
Qed.

Lemma star_greedy_complete c k : forall rest pre cs,
  star_greedy c pre rest cs k = None ->
  forall w rest', rest = w ++ rest' -> forallb c w = true ->
                  k (Cursor (rev w ++ pre) rest') cs = None.
Proof.
  induction rest as [|a rest IH]; intros pre cs H w rest' Hs Hw; simpl in H.
  - destruct w; [|discriminate]. simpl in Hs. subst. exact H.
  - destruct w as [|b w]; simpl in Hs.
    + subst rest'. destruct (c a); [|exact H].
      destruct (star_greedy c (a :: pre) rest cs k); [discriminate|exact H].
    + injection Hs as <- ->. simpl in Hw. apply andb_true_iff in Hw as [Ha Hw].
      rewrite Ha in H.
      destruct (star_greedy c (a :: pre) (w ++ rest') cs k) eqn:E;
        [discriminate|].
      simpl. rewrite <- app_assoc. apply (IH _ _ E w rest'); auto.
Qed.

Lemma star_lazy_sound c k res : forall rest pre cs,
  star_lazy c pre rest cs k = Some res ->
  exists w rest', rest = w ++ rest' /\ forallb c w = true /\
                  k (Cursor (rev w ++ pre) rest') cs = Some res.
Proof.
  induction rest as [|a rest IH]; intros pre cs H; simpl in H.
  - destruct (k (Cursor pre []) cs) eqn:E; [|discriminate].
    exists [], []. injection H as <-. auto.
  - destruct (k (Cursor pre (a :: rest)) cs) eqn:E.
    + injection H as <-. exists [], (a :: rest). auto.
    + destruct (c a) eqn:Ha; [|discriminate].
      apply IH in H as (w & rest' & -> & Hw & Hk).
      exists (a :: w), rest'. simpl. rewrite Ha, Hw, <- app_assoc. auto.
Qed.

Lemma star_lazy_complete c k : forall rest pre cs,
  star_lazy c pre rest cs k = None ->
  forall w rest', rest = w ++ rest' -> forallb c w = true ->
                  k (Cursor (rev w ++ pre) rest') cs = None.
Proof.
  induction rest as [|a rest IH]; intros pre cs H w rest' Hs Hw; simpl in H.
  - destruct w; [|discriminate]. simpl in Hs. subst. simpl.
    destruct (k (Cursor pre []) cs) eqn:E; [discriminate|reflexivity].
  - destruct (k (Cursor pre (a :: rest)) cs) eqn:E; [discriminate|].
    destruct w as [|b w]; simpl in Hs.
    + subst rest'. exact E.
    + injection Hs as <- ->. simpl in Hw. apply andb_true_iff in Hw as [Ha Hw].
      rewrite Ha in H. simpl. rewrite <- app_assoc.
      apply (IH _ _ H w rest'); auto.
Qed.

(** The matcher finds only what the pattern can match ... *)
Lemma rmatch_sound : forall r cur cs k res,
  rmatch r cur cs k = Some res ->
  exists cur' cs', matches r cur cs cur' cs' /\ k cur' cs' = Some res.
Proof.
  induction r as [|c| | | | |r1 IH1 r2 IH2|r1 IH1 r2 IH2|g c|r1 IH1|n r1 IH1];
    intros cur cs k res H; simpl in H.
  - eauto.
  - destruct cur as [pre [|a rest]]; simpl in H; [discriminate|].
    destruct (c a) eqn:Ha; [|discriminate]. eauto.
  - destruct (at_bol cur) eqn:E; [|discriminate]. eauto.
  - destruct (at_eol cur) eqn:E; [|discriminate]. eauto.
  - destruct (at_bos cur) eqn:E; [|discriminate]. eauto.
  - destruct (at_eos cur) eqn:E; [|discriminate]. eauto.
  - apply IH1 in H as (c2 & cs2 & M1 & H).
    apply IH2 in H as (c3 & cs3 & M2 & H). eauto.
  - destruct (rmatch r1 cur cs k) eqn:E; simpl in H.
    + injection H as <-. apply IH1 in E as (c2 & cs2 & M & H). eauto.
    + apply IH2 in H as (c2 & cs2 & M & H). eauto.
  - destruct cur as [pre rest]. simpl in H. destruct g.
    + apply star_greedy_sound in H as (w & rest' & -> & Hw & Hk). eauto.
    + apply star_lazy_sound in H as (w & rest' & -> & Hw & Hk). eauto.
  - destruct (rmatch r1 cur cs k) eqn:E; simpl in H.
    + injection H as <-. apply IH1 in E as (c2 & cs2 & M & H). eauto.
    + eauto.
  - apply IH1 in H as (c2 & cs2 & M & H).
    exists c2, ((n, span cur c2) :: cs2). split; [constructor|]; assumption.
Qed.

(** ... and it fails only when nothing the pattern can match is accepted by
    what follows. *)
Lemma rmatch_complete : forall r cur cs k,
  rmatch r cur cs k = None ->
  forall cur' cs', matches r cur cs cur' cs' -> k cur' cs' = None.
Proof.
  induction r as [|c| | | | |r1 IH1 r2 IH2|r1 IH1 r2 IH2|g c|r1 IH1|n r1 IH1];
    intros cur cs k H cur' cs' M; simpl in H; inversion M; subst; clear M;
    try (match goal with E : _ = true |- _ => simpl in H; rewrite E in H end;
         exact H).
  - exact H.
  - apply (IH2 c2 cs2); [|assumption].
    apply (IH1 _ _ _ H c2 cs2). assumption.
  - destruct (rmatch r1 _ _ _) eqn:E; [discriminate|].
    apply (IH1 _ _ _ E). assumption.
  - destruct (rmatch r1 _ _ _) eqn:E; [discriminate|]. simpl in H.
    apply (IH2 _ _ _ H). assumption.
  - simpl in H. destruct g.
    + apply (star_greedy_complete _ _ _ _ _ H w rest); auto.
    + apply (star_lazy_complete _ _ _ _ _ H w rest); auto.
  - destruct (rmatch r1 _ _ _) eqn:E; [discriminate|].
    apply (IH1 _ _ _ E). assumption.
  - destruct (rmatch r1 _ _ _) eqn:E; [discriminate|]. exact H.
  - match goal with
    | Hm : matches r1 _ _ _ _ |- _ => exact (IH1 _ _ _ H _ _ Hm)
    end.
Qed.

Lemma match_at_sound r cur cur' cs :
  match_at r cur = Some (cur', cs) -> matches r cur [] cur' cs.
Proof.
  unfold match_at. intros H.
  apply rmatch_sound in H as (c2 & cs2 & M & H).
  unfold accept in H. injection H as <- <-. exact M.
Qed.

Lemma match_at_complete r cur :
  match_at r cur = None -> forall cur' cs, ~ matches r cur [] cur' cs.
Proof.
  unfold match_at. intros H cur' cs M.
  pose proof (rmatch_complete _ _ _ _ H _ _ M) as E. discriminate.
Qed.

(** A match only moves the cursor forward in the same subject. *)
Lemma matches_advance r cur cs cur' cs' :
  matches r cur cs cur' cs' -> exists w, advance cur w cur'.
Proof.
  induction 1; try (exists []; apply advance_nil).
  - exists [a]. apply advance_one.
  - destruct IHmatches1 as [w1 H1], IHmatches2 as [w2 H2].
    exists (w1 ++ w2). eapply advance_trans; eauto.
  - assumption.
  - assumption.
  - exists w. apply advance_cursor.
  - assumption.
  - assumption.
Qed.

Lemma match_at_advance r cur cur' cs :
  match_at r cur = Some (cur', cs) -> exists w, advance cur w cur'.
Proof.
  intros H. apply match_at_sound in H. eapply matches_advance; eauto.
Qed.

(** ** The scanning loop, one step at a time *)

Lemma scan_skip r : forall w pre rest2 adj,
  w <> [] ->
  scan r pre (w ++ rest2) (length w) adj = scan r (rev w ++ pre) rest2 0 true.
Proof.
  induction w as [|a w IH]; intros pre rest2 adj Hw; [congruence|].
  simpl. destruct w as [|b w].
  - reflexivity.
  - rewrite IH by discriminate. simpl. rewrite <- !app_assoc. reflexivity.
Qed.

(** The ways a step of the loop can go at a position: a character is
    passed, a non-empty match is taken, or an empty match is recorded. *)
Lemma scan_end r pre adj :
  match_at r (Cursor pre []) = None -> scan r pre [] 0 adj = [].
Proof. intros E. simpl. rewrite E. reflexivity. Qed.

Lemma scan_keep r pre a rest adj :
  match_at r (Cursor pre (a :: rest)) = None ->
  scan r pre (a :: rest) 0 adj = Keep a :: scan r (a :: pre) rest 0 false.
Proof. intros E. simpl. rewrite E. reflexivity. Qed.

Lemma scan_hit r pre w rest2 cs adj :
  w <> [] ->
  match_at r (Cursor pre (w ++ rest2)) = Some (Cursor (rev w ++ pre) rest2, cs) ->
  scan r pre (w ++ rest2) 0 adj =
  Hit adj w cs :: scan r (rev w ++ pre) rest2 0 true.
Proof.
  intros Hw E. destruct w as [|a w]; [congruence|].
  change ((a :: w) ++ rest2) with (a :: (w ++ rest2)) in *.
  pose proof (advance_span _ _ _ (advance_cursor pre (a :: w) rest2)) as Hs.
  cbn [app] in Hs.
  cbn [scan]. rewrite E, Hs.
  cbn [length]. f_equal.
  destruct w as [|b w]; [reflexivity|].
  change (Nat.eqb (length (b :: w)) 0) with false.
  rewrite (scan_skip r (b :: w)) by discriminate.
  simpl. rewrite <- !app_assoc. reflexivity.
Qed.

Lemma scan_empty_end r pre cs adj :
  match_at r (Cursor pre []) = Some (Cursor pre [], cs) ->
  scan r pre [] 0 adj = [Hit adj [] cs].
Proof.
  intros E. simpl. rewrite E. unfold span. simpl.
  rewrite Nat.sub_diag. reflexivity.
Qed.

Lemma scan_empty r pre a rest cs adj :
  match_at r (Cursor pre (a :: rest)) = Some (Cursor pre (a :: rest), cs) ->
  scan r pre (a :: rest) 0 adj =
  Hit adj [] cs :: Keep a :: scan r (a :: pre) rest 0 false.
Proof.
  intros E. simpl. rewrite E. unfold span. simpl.
  rewrite Nat.sub_diag. reflexivity.
Qed.

(** Induction along the loop. *)
Lemma scan_induction (r : regex) (P : text -> bool -> text -> Prop) :
  (forall pre adj, match_at r (Cursor pre []) = None -> P pre adj []) ->
  (forall pre adj a rest,
      match_at r (Cursor pre (a :: rest)) = None ->
      P (a :: pre) false rest -> P pre adj (a :: rest)) ->
  (forall pre adj w rest2 cs,
      w <> [] ->
      match_at r (Cursor pre (w ++ rest2)) =
        Some (Cursor (rev w ++ pre) rest2, cs) ->
      P (rev w ++ pre) true rest2 -> P pre adj (w ++ rest2)) ->
  (forall pre adj cs,
      match_at r (Cursor pre []) = Some (Cursor pre [], cs) -> P pre adj []) ->
  (forall pre adj a rest cs,
      match_at r (Cursor pre (a :: rest)) = Some (Cursor pre (a :: rest), cs) ->
      P (a :: pre) false rest -> P pre adj (a :: rest)) ->
  forall rest pre adj, P pre adj rest.
Proof.
  intros Hend Hkeep Hhit Heend Hempty rest.
  remember (length rest) as n eqn:Hn.
  revert rest Hn.
  induction n as [n IH] using (well_founded_induction Nat.lt_wf_0).
  intros rest Hn pre adj.
  destruct (match_at r (Cursor pre rest)) as [[cur' cs]|] eqn:E.
  - destruct (match_at_advance _ _ _ _ E) as [w Hw].
    apply advance_inv in Hw as [Hc Hc']. simpl in Hc, Hc'.
    injection Hc as Hrest. rewrite Hc' in E.
    destruct w as [|a w].
    + simpl in Hrest, E. rewrite <- Hrest in E.
      destruct rest as [|a rest].
      * eapply Heend; eauto.
      * eapply Hempty; eauto.
        apply (IH (length rest)); [subst n; simpl; lia | reflexivity].
    + rewrite Hrest in *. eapply Hhit; eauto; [discriminate|].
      apply (IH (length (after cur'))); [|reflexivity].
      subst n. rewrite length_app. simpl. lia.
  - destruct rest as [|a rest].
    + apply Hend; assumption.
    + apply Hkeep; [assumption|].
      apply (IH (length rest)); [subst n; simpl; lia | reflexivity].
Qed.

(** ** Newlines in matches *)

Lemma count_nl_app s t : count_nl (s ++ t) = count_nl s + count_nl t.
Proof. apply count_occ_app. Qed.

Lemma count_nl_cons a s : count_nl (a :: s) = nl_weight a + count_nl s.
Proof.
  unfold count_nl, nl_weight. simpl. destruct (ascii_dec a NL); reflexivity.
Qed.

Lemma count_nl_rev s : count_nl (rev s) = count_nl s.
Proof.
  induction s as [|a s IH]; [reflexivity|].
  simpl rev. rewrite count_nl_app, IH.
  unfold count_nl. simpl. destruct (ascii_dec a NL); lia.
Qed.

Lemma count_nl_forallb (c : charset) w :
  c NL = false -> forallb c w = true -> count_nl w = 0.
Proof.
  intros Hc. induction w as [|a w IH]; [reflexivity|].
  simpl. intros H. apply andb_true_iff in H as [Ha Hw].
  unfold count_nl. simpl. destruct (ascii_dec a NL) as [->|_].
  - congruence.
  - apply IH. assumption.
Qed.

Lemma matches_nlfree_ex r cur cs cur' cs' :
  matches r cur cs cur' cs' -> nlfree r = true ->
  exists w, advance cur w cur' /\ count_nl w = 0.
Proof.
  induction 1; simpl; intros Hn;
    try (exists []; split; [apply advance_nil|reflexivity]).
  - exists [a]. split; [apply advance_one|].
    apply (count_nl_forallb c); [now apply negb_true_iff|].
    simpl. rewrite H. reflexivity.
  - apply andb_true_iff in Hn as [Hn1 Hn2].
    destruct (IHmatches1 Hn1) as (w1 & A1 & N1).
    destruct (IHmatches2 Hn2) as (w2 & A2 & N2).
    exists (w1 ++ w2). split; [eapply advance_trans; eauto|].
    rewrite count_nl_app. lia.
  - apply andb_true_iff in Hn as [Hn1 Hn2]. auto.
  - apply andb_true_iff in Hn as [Hn1 Hn2]. auto.
  - exists w. split; [apply advance_cursor|].
    apply (count_nl_forallb c); [now apply negb_true_iff|assumption].
  - auto.
  - auto.
Qed.

Lemma matches_nlfree r cur cs cur' cs' :
  matches r cur cs cur' cs' -> nlfree r = true ->
  count_nl (span cur cur') = 0.
Proof.
  intros M Hn. destruct (matches_nlfree_ex _ _ _ _ _ M Hn) as (w & A & N).
  rewrite (advance_span _ _ _ A). exact N.
Qed.

Lemma nlfree_groups r : nlfree r = true -> groups_nlfree r = true.
Proof.
  induction r; simpl; intros H; auto;
    apply andb_true_iff in H as [H1 H2]; apply andb_true_iff; auto.
Qed.

Lemma matches_caps_nlfree r cur cs cur' cs' :
  matches r cur cs cur' cs' -> groups_nlfree r = true ->
  caps_nlfree cs -> caps_nlfree cs'.
Proof.
  induction 1; simpl; intros Hg Hc; auto.
  - apply andb_true_iff in Hg as [H1 H2]. auto.
  - apply andb_true_iff in Hg as [H1 H2]. auto.
  - apply andb_true_iff in Hg as [H1 H2]. auto.
  - constructor.
    + simpl. eapply matches_nlfree; eauto.
    + apply IHmatches; [apply nlfree_groups|]; assumption.
Qed.

Lemma matches_groupless r cur cs cur' cs' :
  matches r cur cs cur' cs' -> groupless r = true -> cs' = cs.
Proof.
  induction 1; simpl; intros Hg; auto; try discriminate.
  - apply andb_true_iff in Hg as [H1 H2].
    rewrite (IHmatches2 H2). auto.
  - apply andb_true_iff in Hg as [H1 H2]. auto.
  - apply andb_true_iff in Hg as [H1 H2]. auto.
Qed.

Lemma group_nlfree n cs t :
  caps_nlfree cs -> group n cs = Some t -> count_nl t = 0.
Proof.
  induction 1 as [|[k u] cs Hk Hcs IH]; simpl; [discriminate|].
  destruct (Nat.eqb n k); [|exact IH].
  intros E. injection E as <-. exact Hk.
Qed.

Lemma expand_nlfree tmpl cs :
  tmpl_nlfree tmpl -> caps_nlfree cs -> count_nl (expand tmpl cs) = 0.
Proof.
  intros Ht Hc. unfold expand.
  induction Ht as [|i tmpl Hi Ht IH]; [reflexivity|].
  simpl. rewrite count_nl_app, IH.
  destruct i as [t|n]; simpl.
  - lia.
  - destruct (group n cs) as [t|] eqn:E; [|reflexivity].
    rewrite (group_nlfree _ _ _ Hc E). reflexivity.
Qed.

Lemma span_same cur : span cur cur = [].
Proof. apply advance_span, advance_nil. Qed.

(** A substitution whose replacements hold no more newlines than the
    matches they replace does not add lines; if they hold as many, it
    keeps the number of lines. *)
Lemma re_sub_count_le r tmpl :
  (forall cur cur' cs, match_at r cur = Some (cur', cs) ->
                       count_nl (expand tmpl cs) <= count_nl (span cur cur')) ->
  forall s, count_nl (re_sub r tmpl s) <= count_nl s.
Proof.
  intros Hm s. unfold re_sub. generalize (@nil ascii) as pre, false as adj.
  intros pre adj. revert s pre adj.
  apply (scan_induction r
    (fun pre adj rest =>
       count_nl (flat_map (render tmpl) (scan r pre rest 0 adj)) <=
       count_nl rest)).
  - intros pre adj E. rewrite scan_end by assumption. simpl. lia.
  - intros pre adj a rest E IH. rewrite scan_keep by assumption.
    cbn [flat_map render app]. rewrite !count_nl_cons. lia.
  - intros pre adj w rest2 cs Hw E IH. rewrite (scan_hit r pre w rest2 cs) by assumption.
    simpl. rewrite !count_nl_app.
    pose proof (Hm _ _ _ E) as H.
    rewrite (advance_span _ _ _ (advance_cursor pre w rest2)) in H.
    destruct w; [congruence|]. lia.
  - intros pre adj cs E. rewrite (scan_empty_end r pre cs) by assumption.
    simpl. rewrite app_nil_r. pose proof (Hm _ _ _ E) as H.
    rewrite span_same in H. change (count_nl []) with 0 in *. destruct adj; cbn [count_nl count_occ]; lia.
  - intros pre adj a rest cs E IH. rewrite (scan_empty r pre a rest cs) by assumption.
    pose proof (Hm _ _ _ E) as H. rewrite span_same in H.
    cbn [flat_map render app]. rewrite count_nl_app, !count_nl_cons.
    change (count_nl []) with 0 in *. destruct adj; cbn [count_nl count_occ]; lia.
Qed.

Lemma re_sub_count_eq r tmpl :
  (forall cur cur' cs, match_at r cur = Some (cur', cs) ->
                       count_nl (expand tmpl cs) = count_nl (span cur cur')) ->
  forall s, count_nl (re_sub r tmpl s) = count_nl s.
Proof.
  intros Hm s. unfold re_sub. generalize (@nil ascii) as pre, false as adj.
  intros pre adj. revert s pre adj.
  apply (scan_induction r
    (fun pre adj rest =>
       count_nl (flat_map (render tmpl) (scan r pre rest 0 adj)) =
       count_nl rest)).
  - intros pre adj E. rewrite scan_end by assumption. reflexivity.
  - intros pre adj a rest E IH. rewrite scan_keep by assumption.
    cbn [flat_map render app]. rewrite !count_nl_cons. lia.
  - intros pre adj w rest2 cs Hw E IH. rewrite (scan_hit r pre w rest2 cs) by assumption.
    simpl. rewrite !count_nl_app.
    pose proof (Hm _ _ _ E) as H.
    rewrite (advance_span _ _ _ (advance_cursor pre w rest2)) in H.
    destruct w; [congruence|]. lia.
  - intros pre adj cs E. rewrite (scan_empty_end r pre cs) by assumption.
    simpl. rewrite app_nil_r. pose proof (Hm _ _ _ E) as H.
    rewrite span_same in H. change (count_nl []) with 0 in *. destruct adj; cbn [count_nl count_occ]; lia.
  - intros pre adj a rest cs E IH. rewrite (scan_empty r pre a rest cs) by assumption.
    pose proof (Hm _ _ _ E) as H. rewrite span_same in H.
    cbn [flat_map render app]. rewrite count_nl_app, !count_nl_cons.
    change (count_nl []) with 0 in *. destruct adj; cbn [count_nl count_occ]; lia.
Qed.

(** When the replacements hold no newline, the newlines lost are those
    inside the matches. *)
Lemma re_sub_count_exact r tmpl :
  (forall cur cur' cs, match_at r cur = Some (cur', cs) ->
                       count_nl (expand tmpl cs) = 0) ->
  forall s, count_nl (re_sub r tmpl s) + count_nl (concat (re_findall r s))
            = count_nl s.
Proof.
  intros Hm s. unfold re_sub, re_findall.
  generalize (@nil ascii) as pre, false as adj.
  intros pre adj. revert s pre adj.
  apply (scan_induction r
    (fun pre adj rest =>
       count_nl (flat_map (render tmpl) (scan r pre rest 0 adj)) +
       count_nl (concat (flat_map hit_text (scan r pre rest 0 adj))) =
       count_nl rest)).
  - intros pre adj E. rewrite scan_end by assumption. reflexivity.
  - intros pre adj a rest E IH. rewrite scan_keep by assumption.
    cbn [flat_map render hit_text app]. rewrite !count_nl_cons. lia.
  - intros pre adj w rest2 cs Hw E IH.
    rewrite (scan_hit r pre w rest2 cs) by assumption.
    pose proof (Hm _ _ _ E) as H.
    cbn [flat_map hit_text]. rewrite concat_app. cbn [concat].
    replace (render tmpl (Hit adj w cs)) with (expand tmpl cs)
      by (destruct w; [congruence|reflexivity]).
    rewrite app_nil_r, !count_nl_app, H. lia.
  - intros pre adj cs E. rewrite (scan_empty_end r pre cs) by assumption.
    cbn [flat_map render hit_text app concat]. rewrite app_nil_r.
    pose proof (Hm _ _ _ E) as H.
    change (count_nl []) with 0 in *. destruct adj; cbn [count_nl count_occ]; lia.
  - intros pre adj a rest cs E IH.
    rewrite (scan_empty r pre a rest cs) by assumption.
    pose proof (Hm _ _ _ E) as H.
    cbn [flat_map render hit_text app concat].
    rewrite count_nl_app, !count_nl_cons.
    change (count_nl []) with 0 in *. destruct adj; cbn [count_nl count_occ]; lia.
Qed.

(** * The normalizer and the number of lines *)

Lemma nlfree_sub_keeps r tmpl :
  nlfree r = true -> tmpl_nlfree tmpl ->
  forall s, count_nl (re_sub r tmpl s) = count_nl s.
Proof.
  intros Hn Ht. apply re_sub_count_eq. intros cur cur' cs E.
  apply match_at_sound in E.
  rewrite (matches_nlfree _ _ _ _ _ E Hn).
  apply expand_nlfree; [assumption|].
  eapply matches_caps_nlfree; eauto.
  - apply nlfree_groups. assumption.
  - constructor.
Qed.

Lemma groups_nlfree_sub_le r tmpl :
  groups_nlfree r = true -> tmpl_nlfree tmpl ->
  forall s, count_nl (re_sub r tmpl s) <= count_nl s.
Proof.
  intros Hn Ht. apply re_sub_count_le. intros cur cur' cs E.
  apply match_at_sound in E.
  rewrite expand_nlfree; [lia|assumption|].
  eapply matches_caps_nlfree; eauto. constructor.
Qed.

Lemma strip_comment_marks_lines t :
  count_nl (strip_comment_marks t) = count_nl t.
Proof.
  unfold strip_comment_marks.
  rewrite (nlfree_sub_keeps comment_tail_re), (nlfree_sub_keeps comment_line_re);
    try reflexivity.
  - constructor.
  - repeat constructor.
Qed.

Lemma collapse_blocks_lines t : count_nl (collapse_blocks t) <= count_nl t.
Proof.
  unfold collapse_blocks.
  etransitivity; [apply groups_nlfree_sub_le|apply groups_nlfree_sub_le];
    try reflexivity; repeat constructor.
Qed.

Lemma stripeqns_lines t : count_nl (stripeqns t) <= count_nl t.
Proof.
  unfold stripeqns. apply groups_nlfree_sub_le; [reflexivity|].
  repeat constructor.
Qed.

(** The lines that [stripeqns] loses are the newlines inside the spans it
    collapses. *)
Lemma stripeqns_lines_exact t :
  count_nl (stripeqns t) + count_nl (concat (re_findall eqn_re t)) = count_nl t.
Proof.
  unfold stripeqns. apply re_sub_count_exact. intros cur cur' cs E.
  apply match_at_sound in E. apply expand_nlfree.
  - repeat constructor.
  - eapply matches_caps_nlfree; eauto. constructor.
Qed.

(** The two patterns of [stripinline] start with group 1 on one character
    and have no other group. *)
Lemma first_char_group (c : charset) r cur cur' cs :
  groupless r = true ->
  match_at (Seq (Grp 1 (Chr c)) r) cur = Some (cur', cs) ->
  exists a w, span cur cur' = a :: w /\ cs = [(1, [a])].
Proof.
  intros Hg E. apply match_at_sound in E.
  inversion E as [| | | | | |r1 r2 c1 cs1 c2 cs2 c3 cs3 M1 M2| | | | | |];
    subst; clear E.
  inversion M1 as [| | | | | | | | | | | |n r1 c1 cs1 c2' cs2' M]; subst; clear M1.
  inversion M; subst; clear M.
  rewrite (matches_groupless _ _ _ _ _ M2 Hg).
  destruct (matches_advance _ _ _ _ _ M2) as [w A].
  exists a, w. split.
  - apply advance_span.
    apply (advance_trans _ _ _ [a] w (advance_one a pre rest) A).
  - rewrite (advance_span _ _ _ (advance_one a pre rest)). reflexivity.
Qed.

Lemma dollar_sub_lines (c : charset) r :
  groupless r = true ->
  forall s, count_nl (re_sub (Seq (Grp 1 (Chr c)) r) xxx_tmpl s) <= count_nl s.
Proof.
  intros Hg. apply re_sub_count_le. intros cur cur' cs E.
  destruct (first_char_group _ _ _ _ _ Hg E) as (a & w & -> & ->).
  unfold xxx_tmpl, expand. cbn [flat_map expand_item group Nat.eqb app].
  rewrite !count_nl_cons.
  change (count_nl (T "$xxx$" ++ [])) with 0. lia.
Qed.

Lemma stripinline_lines t : count_nl (stripinline t) <= count_nl t.
Proof.
  unfold stripinline.
  etransitivity; [apply dollar_sub_lines|apply dollar_sub_lines]; reflexivity.
Qed.

(** The whole of [stripcomments], block collapse included, never adds
    lines either. *)
Lemma stripcomments_lines t : count_nl (stripcomments t) <= count_nl t.
Proof.
  unfold stripcomments. rewrite collapse_blocks_lines.
  rewrite strip_comment_marks_lines. reflexivity.
Qed.

(** C1, as stated, fails: a display equation or an inline formula that
    spans two lines is collapsed onto one line, so [stripeqns] and
    [stripinline] each turn a text of two lines into a text of one. *)
Lemma views_line_count_not_kept :
  line_count (join_nl [T "\[a"; T "b\]"]) = 2 /\
  line_count (stripeqns (strip_comment_marks (join_nl [T "\[a"; T "b\]"]))) = 1 /\
  line_count (join_nl [T "a $x"; T "y$ b"]) = 2 /\
  line_count (stripinline (join_nl [T "a $x"; T "y$ b"])) = 1.
Proof. repeat split; vm_compute; reflexivity. Qed.

(** C1, amended: for every input text, the comment substitutions of
    [stripcomments] (the block collapse left out) keep the number of
    lines, and [stripeqns] and [stripinline] never insert a newline: each
    later view has at most as many lines as the text it is made from.  The
    lines that [stripeqns] loses are the newlines inside the spans it
    collapses. *)
Theorem views_line_count :
  (forall t, line_count (strip_comment_marks t) = line_count t) /\
  (forall t, line_count (stripeqns t) <= line_count t) /\
  (forall t, line_count (stripinline t) <= line_count t) /\
  (forall t, line_count (stripinline (stripeqns (strip_comment_marks t)))
             <= line_count t) /\
  (forall t, line_count (stripeqns t) + count_nl (concat (re_findall eqn_re t))
             = line_count t).
Proof.
  unfold line_count. repeat split; intros t.
  - rewrite strip_comment_marks_lines. reflexivity.
  - apply le_n_S, stripeqns_lines.
  - apply le_n_S, stripinline_lines.
  - apply le_n_S. rewrite stripinline_lines, stripeqns_lines.
    rewrite strip_comment_marks_lines. reflexivity.
  - cbn [Nat.add]. f_equal. apply stripeqns_lines_exact.
Qed.

(** * The driver's dispatch *)

Lemma calls_app a b : calls (a ++ b) = calls a ++ calls b.
Proof. apply flat_map_app. Qed.

Lemma calls_reportissues x m : calls (reportissues x m) = [].
Proof. destruct x; reflexivity. Qed.

Lemma calls_checkbib nd_of v : calls (checkbib nd_of v) = [].
Proof.
  unfold checkbib.
  destruct (0 <? _); [|reflexivity].
  destruct (negb _); reflexivity.
Qed.

Lemma calls_call nd_of c v : calls (call nd_of c v) = [(c, v)].
Proof.
  unfold call. change (calls (Call c v :: ?l)) with ((c, v) :: calls l).
  f_equal.
  destruct c;
    lazymatch goal with
    | |- calls [] = [] => reflexivity
    | |- calls (checkmissingbackslash _) = [] =>
        unfold checkmissingbackslash;
        rewrite calls_app, !calls_reportissues; reflexivity
    | |- calls (checkbib _ _) = [] => apply calls_checkbib
    | |- calls (?f _) = [] => unfold f; apply calls_reportissues
    end.
Qed.

(** C7: for every document, of the checks the driver calls under a
    condition, [checkmissabbrev] is called (once, on the no-eqn view)
    exactly when the document is not Nature-style; exactly one of
    [checkfoils] and [checknotfoils] is called, by the foils flag; and
    exactly one citation check is called, [checkwordcite] when the document
    is APS- or ACS-style or Nature-style, [checksuperscriptcite]
    otherwise. *)
Theorem dispatch nd_of (raw : text) :
  let fstr := stripcomments raw in
  let fstr_noeqns := stripeqns fstr in
  let aps := found (re_search apsre fstr) in
  let nat := found (re_search natre fstr) in
  let foils := found (re_search foilsre fstr) in
  conditional_calls (check_file nd_of raw) =
    (if nat then [] else [(Checkmissabbrev, fstr_noeqns)]) ++
    (if foils then [(Checkfoils, fstr)] else [(Checknotfoils, fstr)]) ++
    (if aps || nat then [(Checkwordcite, fstr_noeqns)]
     else [(Checksuperscriptcite, fstr_noeqns)]).
Proof.
  unfold check_file, conditional_calls.
  generalize (stripcomments raw) as fstr. intros fstr.
  generalize (stripinline (stripeqns fstr)) as fstr_nomath.
  generalize (stripeqns fstr) as fstr_noeqns.
  intros fstr_noeqns fstr_nomath. cbv zeta.
  destruct (found (re_search apsre fstr)),
           (found (re_search natre fstr)),
           (found (re_search foilsre fstr));
    cbn [negb orb];
    repeat rewrite calls_app; repeat rewrite calls_call; reflexivity.
Qed.

(** * The loop over the arguments *)

Lemma text_eqb_eq a b : text_eqb a b = true -> a = b.
Proof. unfold text_eqb. destruct (list_eq_dec ascii_dec a b); congruence. Qed.

Lemma help_not_well_named arg : is_help arg = true -> well_named arg = false.
Proof.
  unfold is_help. intros H. apply orb_true_iff in H as [H|H];
    apply text_eqb_eq in H; subst; reflexivity.
Qed.

Section Loop.

Variable read_file : text -> option text.
Variable nd_of : nat -> nat.

Lemma loop_cons arg args :
  loop read_file nd_of (arg :: args) =
  if is_help arg then Run [Usage] None 0
  else if negb (well_named arg)
  then Run [Checking arg] (Some NeedTeXFile) 1
  else
    match read_file arg with
    | None => Run [Checking arg] (Some (CannotRead arg)) 1
    | Some fstr =>
        let rest := loop read_file nd_of args in
        Run (Checking arg :: check_file nd_of fstr ++ trace rest)
            (stopped rest) (status rest)
    end.
Proof. reflexivity. Qed.

(** Good arguments are processed one after the other, in order. *)
Lemma loop_good pre rest :
  forallb (good read_file) pre = true ->
  loop read_file nd_of (pre ++ rest) =
  Run (flat_map (file_events read_file nd_of) pre
         ++ trace (loop read_file nd_of rest))
      (stopped (loop read_file nd_of rest))
      (status (loop read_file nd_of rest)).
Proof.
  induction pre as [|p pre IH]; intros Hg.
  - cbn [app flat_map]. destruct (loop read_file nd_of rest); reflexivity.
  - cbn [forallb] in Hg. apply andb_true_iff in Hg as [Hp Hg].
    unfold good in Hp. apply andb_true_iff in Hp as [Hn Hr].
    cbn [app flat_map]. rewrite loop_cons.
    destruct (is_help p) eqn:Hh.
    { apply help_not_well_named in Hh. congruence. }
    rewrite Hn. cbn [negb].
    unfold readable in Hr. unfold file_events at 1.
    destruct (read_file p) as [fstr|]; [|discriminate].
    rewrite (IH Hg). cbv zeta. cbn [trace stopped status].
    rewrite <- app_assoc. reflexivity.
Qed.

Lemma loop_help h post :
  is_help h = true -> loop read_file nd_of (h :: post) = Run [Usage] None 0.
Proof. intros H. rewrite loop_cons, H. reflexivity. Qed.

Lemma loop_bad a post :
  is_help a = false -> good read_file a = false ->
  loop read_file nd_of (a :: post) =
  Run [Checking a]
      (Some (if well_named a then CannotRead a else NeedTeXFile)) 1.
Proof.
  intros Hh Hb. rewrite loop_cons, Hh.
  unfold good, readable in Hb.
  destruct (well_named a); cbn [negb andb] in *; [|reflexivity].
  destruct (read_file a); [discriminate|reflexivity].
Qed.

(** The arguments after a help flag are never looked at. *)
Lemma loop_cut pre h post :
  is_help h = true ->
  loop read_file nd_of (pre ++ h :: post) = loop read_file nd_of (pre ++ [h]).
Proof.
  intros H. induction pre as [|p pre IH].
  - cbn [app]. rewrite !loop_help by assumption. reflexivity.
  - cbn [app]. rewrite !loop_cons, IH. reflexivity.
Qed.

End Loop.

(** C8, as stated, fails: with a readable file listed before the help flag
    the file is processed before usage is printed, and with an ill-named
    argument before the flag the run stops with status 1. *)
Lemma help_after_file_processes :
  existsb is_help [T "a.tex"; T "--help"] = true /\
  existsb processing (trace (main any_file digits [T "a.tex"; T "--help"]))
    = true /\
  existsb is_help [T "notes.txt"; T "--help"] = true /\
  status (main any_file digits [T "notes.txt"; T "--help"]) = 1.
Proof. vm_compute. repeat split; reflexivity. Qed.

(** With readable files before the flag, they are processed, then usage
    is printed and the run exits with status 0. *)
Lemma help_after_good_files read_file nd_of pre h post :
  forallb (good read_file) pre = true ->
  is_help h = true ->
  main read_file nd_of (pre ++ h :: post) =
  Run (Banner :: flat_map (file_events read_file nd_of) pre ++ [Usage]) None 0.
Proof.
  intros Hg Hh. unfold main.
  rewrite loop_good by assumption. rewrite loop_help by assumption.
  reflexivity.
Qed.

(** C8, amended: when the help flag is the first argument, the program
    prints usage and exits with status 0 having processed no file,
    whatever is listed after it; when it stands later, the arguments before
    it are gone through first and those after it are never looked at. *)
Theorem help_short_circuits read_file nd_of (pre : list text) (h : text)
    (post : list text) :
  is_help h = true ->
  main read_file nd_of (h :: post) = Run [Banner; Usage] None 0 /\
  main read_file nd_of (pre ++ h :: post) = main read_file nd_of (pre ++ [h]).
Proof.
  intros H. unfold main. split.
  - rewrite loop_help by assumption. reflexivity.
  - rewrite loop_cut by assumption. reflexivity.
Qed.

Lemma help_short_circuits_witness :
  is_help (T "--help") = true /\
  main only_a_tex digits [T "--help"; T "b.tex"]
    = Run [Banner; Usage] None 0 /\
  main only_a_tex digits ([T "a.tex"] ++ [T "--help"; T "b.tex"])
    = main only_a_tex digits ([T "a.tex"] ++ [T "--help"]).
Proof.
  split; [reflexivity|].
  apply (help_short_circuits only_a_tex digits [T "a.tex"] (T "--help")
                             [T "b.tex"]).
  reflexivity.
Defined.

(** C9, as stated, fails: an argument that does not end in [.tex] and
    stands after a help flag is never tested, and the run exits with
    status 0 and no error message. *)
Lemma bad_argument_after_help :
  existsb (fun a => negb (well_named a)) [T "--help"; T "notes.txt"] = true /\
  status (main only_a_tex digits [T "--help"; T "notes.txt"]) = 0 /\
  stopped (main only_a_tex digits [T "--help"; T "notes.txt"]) = None.
Proof. vm_compute. repeat split; reflexivity. Qed.

(** When every argument ends in [.tex] and can be read, the run exits with
    status 0 and no error, whatever the checks found. *)
Lemma all_good_exit_zero read_file nd_of (args : list text) :
  forallb (good read_file) args = true ->
  status (main read_file nd_of args) = 0 /\
  stopped (main read_file nd_of args) = None.
Proof.
  intros Hg. unfold main.
  rewrite <- (app_nil_r args). rewrite loop_good by assumption.
  simpl. split; reflexivity.
Qed.

(** C9, amended: if the arguments [pre] all end in [.tex] and can be
    read, and the next argument [a] is not a help flag and does not end in
    [.tex] or cannot be read, then the run halts at [a] with an error
    message and status 1, having gone through [pre] only and none of the
    later arguments; and the run over [pre] alone, where every argument is
    well-named and readable, exits with status 0 and no error. *)
Theorem run_status read_file nd_of (pre : list text) (a : text)
    (post : list text) :
  forallb (good read_file) pre = true ->
  is_help a = false ->
  good read_file a = false ->
  (status (main read_file nd_of (pre ++ a :: post)) = 1 /\
   stopped (main read_file nd_of (pre ++ a :: post)) =
     Some (if well_named a then CannotRead a else NeedTeXFile) /\
   trace (main read_file nd_of (pre ++ a :: post)) =
     Banner :: flat_map (file_events read_file nd_of) pre ++ [Checking a]) /\
  (status (main read_file nd_of pre) = 0 /\
   stopped (main read_file nd_of pre) = None).
Proof.
  intros Hg Hh Hb. split.
  - unfold main. rewrite loop_good by assumption.
    rewrite loop_bad by assumption. simpl. repeat split.
  - apply all_good_exit_zero. assumption.
Qed.

Lemma run_status_witness :
  forallb (good only_a_tex) [T "a.tex"] = true /\
  is_help (T "b.tex") = false /\
  good only_a_tex (T "b.tex") = false /\
  (status (main only_a_tex digits ([T "a.tex"] ++ [T "b.tex"; T "c.tex"])) = 1 /\
   stopped (main only_a_tex digits ([T "a.tex"] ++ [T "b.tex"; T "c.tex"])) =
     Some (if well_named (T "b.tex") then CannotRead (T "b.tex")
           else NeedTeXFile) /\
   trace (main only_a_tex digits ([T "a.tex"] ++ [T "b.tex"; T "c.tex"])) =
     Banner :: flat_map (file_events only_a_tex digits) [T "a.tex"]
       ++ [Checking (T "b.tex")]) /\
  (status (main only_a_tex digits [T "a.tex"]) = 0 /\
   stopped (main only_a_tex digits [T "a.tex"]) = None).
Proof.
  split; [reflexivity|]. split; [reflexivity|]. split; [reflexivity|].
  apply (run_status only_a_tex digits [T "a.tex"] (T "b.tex") [T "c.tex"]);
    reflexivity.
Defined.

(** * Repetition of words across lines *)

Lemma text_eqb_refl a : text_eqb a a = true.
Proof. unfold text_eqb. destruct (list_eq_dec ascii_dec a a); congruence. Qed.

Lemma rep_words_last l : forall ws w iw lw,
  snd (rep_words l (ws ++ [w]) iw lw) = w.
Proof.
  induction ws as [|v ws IH]; intros w iw lw; simpl.
  - reflexivity.
  - specialize (IH w (S iw) v).
    destruct (rep_words l (ws ++ [w]) (S iw) v). exact IH.
Qed.

Lemma rep_lines_app : forall pre rest lw,
  rep_lines (pre ++ rest) lw =
  rep_lines pre lw ++ rep_lines rest (rep_last pre lw).
Proof.
  induction pre as [|l pre IH]; intros rest lw; simpl.
  - reflexivity.
  - destruct (rep_words l (split l) 0 lw) as [x lw'] eqn:E. simpl.
    rewrite IH, app_assoc. reflexivity.
Qed.

Lemma rep_lines_blank : forall mid lw,
  Forall (fun m => split m = []) mid ->
  rep_lines mid lw = [] /\ rep_last mid lw = lw.
Proof.
  induction mid as [|m mid IH]; intros lw H.
  - split; reflexivity.
  - inversion H as [|? ? Hm Hmid]; subst. simpl. rewrite Hm. simpl.
    apply IH. assumption.
Qed.

(** C10: [checkrep] carries the last word from one line to the next: if the
    last word of a line equals the first word of the following line (lines
    without words in between do not count), and the word is not in the
    exclusion list and does not match the number-or-label pattern, then the
    repetition is reported, as the line ["... " + word] followed by the
    offending line. *)
Theorem checkrep_across_lines (fstr : text) (pre : list text) (l1 : text)
    (mid : list text) (l2 : text) (post : list text) (ws1 : list text)
    (w : text) (ws2 : list text) :
  splitlines fstr = pre ++ l1 :: mid ++ l2 :: post ->
  Forall (fun m => split m = []) mid ->
  split l1 = ws1 ++ [w] ->
  split l2 = w :: ws2 ->
  existsb (text_eqb w) rep_excludes = false ->
  found (re_search rep_excludesre w) = false ->
  In (T "... " ++ w ++ [NL] ++ l2) (checkrep_issues fstr) /\
  checkrep fstr = [Issues RepetitionOfWords (checkrep_issues fstr)].
Proof.
  intros Hl Hmid H1 H2 Hx Hre.
  assert (Hin : In (T "... " ++ w ++ [NL] ++ l2) (checkrep_issues fstr)).
  { unfold checkrep_issues. rewrite Hl, rep_lines_app.
    apply in_or_app. right.
    change (l1 :: mid ++ l2 :: post) with ([l1] ++ mid ++ l2 :: post).
    rewrite rep_lines_app. apply in_or_app. right.
    rewrite rep_lines_app. apply in_or_app. right.
    destruct (rep_lines_blank mid (rep_last [l1] (rep_last pre [])) Hmid)
      as [_ ->].
    simpl rep_last. rewrite H1, rep_words_last.
    simpl rep_lines. rewrite H2. simpl rep_words.
    unfold rep_hit. rewrite text_eqb_refl, Hx, Hre. simpl.
    destruct (rep_words l2 ws2 1 w) as [xs lw'].
    destruct (rep_lines post lw'); simpl; left; reflexivity. }
  split; [exact Hin|].
  unfold checkrep, reportissues.
  destruct (checkrep_issues fstr); [contradiction|reflexivity].
Qed.

Lemma checkrep_across_lines_witness :
  splitlines (join_nl [T "see the"; T ""; T "the cat"]) =
    [] ++ T "see the" :: [T ""] ++ T "the cat" :: [] /\
  Forall (fun m => split m = []) [T ""] /\
  split (T "see the") = [T "see"] ++ [T "the"] /\
  split (T "the cat") = T "the" :: [T "cat"] /\
  existsb (text_eqb (T "the")) rep_excludes = false /\
  found (re_search rep_excludesre (T "the")) = false /\
  In (T "... " ++ T "the" ++ [NL] ++ T "the cat")
     (checkrep_issues (join_nl [T "see the"; T ""; T "the cat"])) /\
  checkrep (join_nl [T "see the"; T ""; T "the cat"]) =
    [Issues RepetitionOfWords
            (checkrep_issues (join_nl [T "see the"; T ""; T "the cat"]))].
Proof.
  split; [reflexivity|]. split; [repeat constructor|].
  split; [reflexivity|]. split; [reflexivity|].
  split; [reflexivity|]. split; [reflexivity|].
  apply (checkrep_across_lines
           (join_nl [T "see the"; T ""; T "the cat"]) [] (T "see the")
           [T ""] (T "the cat") [] [T "see"] (T "the") [T "cat"]);
    try reflexivity.
  repeat constructor.
Defined.

(** * Patterns that cannot match *)

Lemma never_findall r :
  (forall cur, match_at r cur = None) -> forall s, re_findall r s = [].
Proof.
  intros Hn s. unfold re_findall. generalize (@nil ascii) as pre, false as adj.
  intros pre adj. revert s pre adj.
  apply (scan_induction r
    (fun pre adj rest => flat_map hit_text (scan r pre rest 0 adj) = []));
    intros.
  - rewrite scan_end by assumption. reflexivity.
  - rewrite scan_keep by assumption. assumption.
  - rewrite Hn in *. discriminate.
  - rewrite Hn in *. discriminate.
  - rewrite Hn in *. discriminate.
Qed.

(** The pattern of [checkeqspace] asks for the end of a line and then for
    a letter: it matches nowhere. *)
Lemma eqspace_re_never cur : match_at eqspace_re cur = None.
Proof.
  destruct cur as [pre rest]. unfold match_at, eqspace_re.
  cbn [rmatch]. destruct (at_bol (Cursor pre rest)); [|reflexivity].
  unfold at_eol. cbn [after].
  destruct rest as [|a rest]; [reflexivity|].
  destruct (Ascii.eqb a NL) eqn:E; [|reflexivity].
  apply Ascii.eqb_eq in E. subst a. reflexivity.
Qed.

(** X15: [checkeqspace] reports nothing, whatever the text. *)
Lemma checkeqspace_silent fstr : checkeqspace fstr = [].
Proof.
  unfold checkeqspace. rewrite (never_findall eqspace_re eqspace_re_never).
  reflexivity.
Qed.

(** C3, code at the failing input: the line has the abbreviation Eq with
    its period, a space and more text, and [checkeqspace] reports nothing;
    [checkeqref], whose pattern starts with the line anchor alone, does
    report the line. *)
Theorem checkeqspace_misses :
  checkeqspace (T "see Eq. 3") = [] /\
  checkeqref (T "see Eq. 3") = [Issues EqRefBrackets [T "see Eq. 3"]].
Proof. split; vm_compute; reflexivity. Qed.

(** C4, code at the failing inputs: lines with e.g. and n.b. followed by a
    space and more text are not reported; the line with i.e. is. *)
Theorem checkmissingbackslash_misses :
  checkmissingbackslash (T "see e.g. this") = [] /\
  checkmissingbackslash (T "n.b. this") = [] /\
  checkmissingbackslash (T "that is, i.e. this") =
    [Issues MissingBackslashSpace [T "that is, i.e. this"]].
Proof. repeat split; vm_compute; reflexivity. Qed.

(** C5, code at the failing input: with two unescaped comment markers on a
    line, the line is cut at the last one and the text of the comment
    between the two stays; a line that starts with blanks and a marker
    becomes empty. *)
Theorem stripcomments_keeps_comment_text :
  stripcomments (T "a%b%c") = T "a%b" /\
  stripcomments (T "text % see 50% of cases") = T "text % see 50" /\
  stripcomments (join_nl [T "x"; T "  % c"; T "y"]) = join_nl [T "x"; T ""; T "y"].
Proof. repeat split; vm_compute; reflexivity. Qed.

(** * Searching *)

Lemma search_from_found r : forall rest pre,
  found (search_from r pre rest) = true <->
  exists u v, rest = u ++ v /\ match_at r (Cursor (rev u ++ pre) v) <> None.
Proof.
  induction rest as [|a rest IH]; intros pre; cbn [search_from].
  - destruct (match_at r (Cursor pre [])) as [[cur' cs]|] eqn:E; cbn [found].
    + split; [intros _|reflexivity].
      exists [], []. split; [reflexivity|]. cbn [rev app]. congruence.
    + split; [discriminate|]. intros (u & v & Hs & Hm).
      symmetry in Hs. apply app_eq_nil in Hs as [-> ->]. cbn [rev app] in Hm.
      congruence.
  - destruct (match_at r (Cursor pre (a :: rest))) as [[cur' cs]|] eqn:E.
    + cbn [found]. split; [intros _|reflexivity].
      exists [], (a :: rest). split; [reflexivity|]. cbn [rev app]. congruence.
    + rewrite IH. split.
      * intros (u & v & -> & Hm). exists (a :: u), v.
        split; [reflexivity|]. cbn [rev]. rewrite <- app_assoc. exact Hm.
      * intros (u & v & Hs & Hm). destruct u as [|b u].
        -- cbn [rev app] in *. subst v. congruence.
        -- cbn [app] in Hs. injection Hs as <- ->. exists u, v.
           split; [reflexivity|]. cbn [rev] in Hm. rewrite <- app_assoc in Hm.
           exact Hm.
Qed.

(** ** Literals and counted repetitions *)

Lemma only_refl c : only c c = true.
Proof. apply Ascii.eqb_refl. Qed.

Lemma only_eq c a : only c a = true -> a = c.
Proof. intros H. apply Ascii.eqb_eq in H. congruence. Qed.

Lemma matches_lit_text_intro : forall s pre rest cs,
  matches (lit_text s) (Cursor pre (s ++ rest)) cs (Cursor (rev s ++ pre) rest) cs.
Proof.
  induction s as [|c s IH]; intros pre rest cs.
  - apply M_Eps.
  - destruct s as [|c' s].
    + cbn [lit_text rev app]. apply M_Chr, only_refl.
    + change (lit_text (c :: c' :: s))
        with (Seq (Chr (only c)) (lit_text (c' :: s))).
      apply M_Seq with (c2 := Cursor (c :: pre) ((c' :: s) ++ rest)) (cs2 := cs).
      * apply M_Chr, only_refl.
      * replace (rev (c :: c' :: s) ++ pre) with (rev (c' :: s) ++ c :: pre).
        -- apply IH.
        -- cbn [rev]. rewrite <- !app_assoc. reflexivity.
Qed.

Lemma matches_lit_text_elim : forall s cur cs cur' cs',
  matches (lit_text s) cur cs cur' cs' -> advance cur s cur' /\ cs' = cs.
Proof.
  induction s as [|c s IH]; intros cur cs cur' cs' M.
  - inversion M; subst. split; [apply advance_nil|reflexivity].
  - destruct s as [|c' s].
    + inversion M as [|? a ? ? ? Ha| | | | | | | | | | |]; subst.
      apply only_eq in Ha. subst a.
      split; [apply advance_one|reflexivity].
    + change (lit_text (c :: c' :: s))
        with (Seq (Chr (only c)) (lit_text (c' :: s))) in M.
      inversion M as [| | | | | |? ? ? ? c2 cs2 ? ? M1 M2| | | | | |]; subst.
      inversion M1 as [|? a ? ? ? Ha| | | | | | | | | | |]; subst.
      apply only_eq in Ha. subst a.
      apply IH in M2 as [A ->]. split; [|reflexivity].
      apply (advance_trans _ _ _ [c] (c' :: s) (advance_one c pre rest) A).
Qed.

Lemma matches_times_intro (c : charset) : forall n ds pre rest cs,
  length ds = n -> forallb c ds = true ->
  matches (times n c) (Cursor pre (ds ++ rest)) cs (Cursor (rev ds ++ pre) rest) cs.
Proof.
  induction n as [|n IH]; intros ds pre rest cs Hl Hd.
  - destruct ds; [|discriminate]. apply M_Eps.
  - destruct ds as [|d ds]; [discriminate|].
    injection Hl as Hl. cbn [forallb] in Hd.
    apply andb_true_iff in Hd as [Hd Hds].
    cbn [times]. apply M_Seq with (c2 := Cursor (d :: pre) (ds ++ rest)) (cs2 := cs).
    + apply M_Chr. exact Hd.
    + replace (rev (d :: ds) ++ pre) with (rev ds ++ d :: pre).
      * apply IH; assumption.
      * cbn [rev]. rewrite <- app_assoc. reflexivity.
Qed.

Lemma matches_times_elim (c : charset) : forall n cur cs cur' cs',
  matches (times n c) cur cs cur' cs' ->
  exists ds, length ds = n /\ forallb c ds = true /\
             advance cur ds cur' /\ cs' = cs.
Proof.
  induction n as [|n IH]; intros cur cs cur' cs' M; cbn [times] in M.
  - inversion M; subst. exists []. repeat split.
  - inversion M as [| | | | | |? ? ? ? c2 cs2 ? ? M1 M2| | | | | |]; subst.
    inversion M1 as [|? a ? ? ? Ha| | | | | | | | | | |]; subst.
    apply IH in M2 as (ds & Hl & Hd & A & ->).
    exists (a :: ds). cbn [length forallb]. rewrite Ha, Hd, Hl.
    split; [reflexivity|]. split; [reflexivity|]. split; [|reflexivity].
    apply (advance_trans _ _ _ [a] ds (advance_one a pre rest) A).
Qed.

Lemma match_at_some_iff r cur :
  match_at r cur <> None <-> exists cur' cs, matches r cur [] cur' cs.
Proof.
  split.
  - destruct (match_at r cur) as [[cur' cs]|] eqn:E; [|congruence].
    intros _. exists cur', cs. apply match_at_sound. exact E.
  - intros (cur' & cs & M) E.
    exact (match_at_complete _ _ E _ _ M).
Qed.

(** * The size of thebibliography *)

Lemma bibwidth_matches nd cur :
  (exists cur' cs, matches (bibwidth_re nd) cur [] cur' cs) <->
  exists ds post,
    length ds = nd /\ forallb digit ds = true /\
    after cur = T "{thebibliography}{" ++ ds ++ T "}" ++ post.
Proof.
  unfold bibwidth_re, lit. split.
  - intros (cur' & cs & M).
    inversion M as [| | | | | |? ? ? ? c2 cs2 ? ? M1 M2| | | | | |]; subst.
    inversion M2 as [| | | | | |? ? ? ? c3 cs3 ? ? M3 M4| | | | | |]; subst.
    apply (matches_lit_text_elim (T "{thebibliography}{")) in M1 as [[_ A1] _].
    apply matches_times_elim in M3 as (ds & Hl & Hd & [_ A3] & _).
    apply (matches_lit_text_elim (T "}")) in M4 as [[_ A4] _].
    exists ds, (after cur'). split; [exact Hl|]. split; [exact Hd|].
    rewrite A1, A3, A4. reflexivity.
  - intros (ds & post & Hl & Hd & Ha).
    destruct cur as [pre rest]. cbn [after] in Ha. subst rest.
    eexists. eexists.
    eapply M_Seq; [apply matches_lit_text_intro|].
    eapply M_Seq; [apply matches_times_intro; eassumption|].
    apply matches_lit_text_intro.
Qed.

Lemma bibwidth_found nd fstr :
  found (re_search (bibwidth_re nd) fstr) = true <-> declares_width nd fstr.
Proof.
  unfold re_search, declares_width. rewrite search_from_found. split.
  - intros (u & v & -> & Hm).
    apply match_at_some_iff, bibwidth_matches in Hm
      as (ds & post & Hl & Hd & Ha).
    cbn [after] in Ha. subst v. exists u, ds, post. auto.
  - intros (pre & ds & post & Hl & Hd & ->).
    exists pre, (T "{thebibliography}{" ++ ds ++ T "}" ++ post).
    split; [reflexivity|].
    apply match_at_some_iff, bibwidth_matches.
    exists ds, post. auto.
Qed.

(** What [checkbib] does, for any count of items: it is silent exactly when
    there is no item or the declared width has [nd] digits. *)
Lemma checkbib_silent_iff nd_of fstr :
  checkbib nd_of fstr = [] <->
  length (re_findall bibitem_re fstr) = 0 \/
  declares_width (nd_of (length (re_findall bibitem_re fstr))) fstr.
Proof.
  unfold checkbib.
  destruct (length (re_findall bibitem_re fstr)) as [|n] eqn:En.
  - cbn. split; auto.
  - change (0 <? S n) with true. cbv iota.
    rewrite <- bibwidth_found.
    destruct (found (re_search (bibwidth_re (nd_of (S n))) fstr)); cbn [negb].
    + split; auto.
    + split; [discriminate|]. intros [H|H]; discriminate.
Qed.

(** C2, as stated, fails: a document with six items and the declaration
    [{thebibliography}{5}] gets no report, since the pattern asks for an
    argument of one digit and 5 is one digit. *)
Lemma six_items_width_5_no_report :
  length (re_findall bibitem_re six_items_width_5) = 6 /\
  found (re_search (lit "{thebibliography}{5}") six_items_width_5) = true /\
  checkbib digits six_items_width_5 = [].
Proof. vm_compute. repeat split; reflexivity. Qed.

(** C2, amended: for every document in which [\bibitem] occurs exactly six
    times, [checkbib] reports a mismatch exactly when the document holds no
    declaration [{thebibliography}{d}] with [d] a single digit; with the
    declaration [{thebibliography}{5}] it reports nothing. *)
Theorem checkbib_six nd_of (fstr : text) :
  nd_of 6 = 1 ->
  length (re_findall bibitem_re fstr) = 6 ->
  (checkbib nd_of fstr = [] <->
   exists pre d post,
     digit d = true /\
     fstr = pre ++ T "{thebibliography}{" ++ [d] ++ T "}" ++ post) /\
  (forall pre post,
     fstr = pre ++ T "{thebibliography}{5}" ++ post ->
     checkbib nd_of fstr = []).
Proof.
  intros Hnd H6.
  assert (Hiff : checkbib nd_of fstr = [] <->
                 exists pre d post,
                   digit d = true /\
                   fstr = pre ++ T "{thebibliography}{" ++ [d] ++ T "}" ++ post).
  { rewrite checkbib_silent_iff, H6, Hnd. unfold declares_width. split.
    - intros [H|(pre & ds & post & Hl & Hd & ->)]; [discriminate|].
      destruct ds as [|d [|d' ds]]; try discriminate.
      cbn [forallb] in Hd. rewrite andb_true_r in Hd.
      exists pre, d, post. auto.
    - intros (pre & d & post & Hd & ->). right.
      exists pre, [d], post. cbn [forallb length]. rewrite Hd. auto. }
  split; [exact Hiff|].
  intros pre post ->. apply Hiff.
  exists pre, "5"%char, post. split; reflexivity.
Qed.

Lemma checkbib_six_witness :
  digits 6 = 1 /\
  length (re_findall bibitem_re six_items_width_5) = 6 /\
  (checkbib digits six_items_width_5 = [] <->
   exists pre d post,
     digit d = true /\
     six_items_width_5 = pre ++ T "{thebibliography}{" ++ [d] ++ T "}" ++ post) /\
  (forall pre post,
     six_items_width_5 = pre ++ T "{thebibliography}{5}" ++ post ->
     checkbib digits six_items_width_5 = []).
Proof.
  split; [reflexivity|]. split; [vm_compute; reflexivity|].
  apply (checkbib_six digits six_items_width_5).
  - reflexivity.
  - vm_compute. reflexivity.
Defined.

(** * Inline formulas *)

Lemma sub_from_nil r tmpl pre adj :
  match_at r (Cursor pre []) = None -> sub_from r tmpl pre [] adj = [].
Proof. intros E. unfold sub_from. rewrite scan_end by assumption. reflexivity. Qed.

Lemma sub_from_keep r tmpl pre a rest adj :
  match_at r (Cursor pre (a :: rest)) = None ->
  sub_from r tmpl pre (a :: rest) adj = a :: sub_from r tmpl (a :: pre) rest false.
Proof. intros E. unfold sub_from. rewrite scan_keep by assumption. reflexivity. Qed.

Lemma sub_from_hit r tmpl pre w rest2 cs adj :
  w <> [] ->
  match_at r (Cursor pre (w ++ rest2)) = Some (Cursor (rev w ++ pre) rest2, cs) ->
  sub_from r tmpl pre (w ++ rest2) adj =
  expand tmpl cs ++ sub_from r tmpl (rev w ++ pre) rest2 true.
Proof.
  intros Hw E. unfold sub_from. rewrite (scan_hit r pre w rest2 cs) by assumption.
  cbn [flat_map render]. destruct w; [congruence|reflexivity].
Qed.

Lemma starts_dollar_cons s : starts_dollar s = true -> s = "$"%char :: tl s.
Proof.
  destruct s as [|b s]; [discriminate|]. cbn. intros H.
  apply only_eq in H. subst. reflexivity.
Qed.

Lemma closing_split : forall rest w r,
  closing rest = Some (w, r) ->
  rest = w ++ r /\ exists w' x, w = w' ++ [x; "$"%char].
Proof.
  induction rest as [|x rest IH]; intros w r H; cbn [closing] in H.
  - discriminate.
  - destruct (except "\" x && starts_dollar rest) eqn:E.
    + injection H as <- <-. apply andb_true_iff in E as [_ E].
      apply starts_dollar_cons in E. split.
      * cbn [app]. rewrite <- E. reflexivity.
      * exists [], x. reflexivity.
    + destruct (closing rest) as [[w0 r0]|] eqn:C; [|discriminate].
      injection H as <- <-. destruct (IH _ _ eq_refl) as [-> (w' & y & ->)].
      split; [reflexivity|]. exists (x :: w'), y. reflexivity.
Qed.

Lemma closing_none_tail x rest :
  closing (x :: rest) = None ->
  closing rest = None /\ except "\" x && starts_dollar rest = false.
Proof.
  cbn [closing]. destruct (except "\" x && starts_dollar rest); [discriminate|].
  destruct (closing rest) as [[w r]|]; [discriminate|]. auto.
Qed.

(** The lazy repetition followed by the closing characters stops where
    [closing] says. *)
Lemma star_lazy_closing : forall rest pre cs,
  star_lazy dotall pre rest cs
    (fun cur' cs' =>
       rmatch (Seq (Chr (except "\")) (lit "$")) cur' cs' accept) =
  match closing rest with
  | Some (w, r) => Some (Cursor (rev w ++ pre) r, cs)
  | None => None
  end.
Proof.
  induction rest as [|x rest IH]; intros pre cs.
  - reflexivity.
  - cbn [star_lazy closing]. cbn [rmatch after before lit lit_text T
                                   list_ascii_of_string].
    destruct (except "\" x) eqn:Ex; cbn [andb].
    + destruct rest as [|y rest'].
      * reflexivity.
      * cbn [starts_dollar tl]. destruct (only "$" y) eqn:Ey.
        -- apply only_eq in Ey. subst y. reflexivity.
        -- cbn [dotall]. rewrite IH.
           destruct (closing (y :: rest')) as [[w r]|]; [|reflexivity].
           cbn [rev]. rewrite <- !app_assoc. reflexivity.
    + cbn [dotall]. rewrite IH.
      destruct (closing rest) as [[w r]|]; [|reflexivity].
      cbn [rev]. rewrite <- !app_assoc. reflexivity.
Qed.

Lemma span_one pre c r : span (Cursor pre (c :: r)) (Cursor (c :: pre) r) = [c].
Proof. apply advance_span, advance_one. Qed.

(** Where the pattern of inline formulas matches. *)
Lemma inline_match_at pre rest :
  match_at inline_dollar_re (Cursor pre rest) =
  match inline_at rest with
  | Some (c, w, r) => Some (Cursor (rev (c :: w) ++ pre) r, [(1, [c])])
  | None => None
  end.
Proof.
  unfold match_at, inline_dollar_re, inline_at.
  destruct rest as [|c [|d rest1]]; cbn [rmatch after before].
  - reflexivity.
  - destruct (except "\" c); reflexivity.
  - destruct (except "\" c); [|reflexivity]. cbn [andb].
    cbn [lit lit_text T list_ascii_of_string rmatch after before].
    destruct (only "$" d) eqn:Ed; [|reflexivity].
    apply only_eq in Ed. subst d.
    rewrite span_one.
    change (star_lazy dotall ("$"%char :: c :: pre) rest1 [(1, [c])]
              (fun cur' cs' =>
                 rmatch (Seq (Chr (except "\")) (lit "$")) cur' cs' accept) =
            match
              match closing rest1 with
              | Some (w, r) => Some (c, "$"%char :: w, r)
              | None => None
              end
            with
            | Some (c0, w, r) =>
                Some (Cursor (rev (c0 :: w) ++ pre) r, [(1, [c0])])
            | None => None
            end).
    rewrite star_lazy_closing.
    destruct (closing rest1) as [[w r]|]; [|reflexivity].
    cbn [rev]. rewrite <- !app_assoc. reflexivity.
Qed.

Lemma inline_at_split rest c w r :
  inline_at rest = Some (c, w, r) ->
  rest = c :: w ++ r /\ except "\" c = true /\
  exists w1, w = "$"%char :: w1 /\ closing (w1 ++ r) = Some (w1, r).
Proof.
  unfold inline_at. destruct rest as [|c0 [|d rest1]]; try discriminate.
  destruct (except "\" c0 && only "$" d) eqn:E; [|discriminate].
  destruct (closing rest1) as [[w1 r1]|] eqn:C; [|discriminate].
  intros H. injection H as <- <- <-.
  apply andb_true_iff in E as [Ec Ed]. apply only_eq in Ed. subst d.
  destruct (closing_split _ _ _ C) as [-> _].
  split; [reflexivity|]. split; [assumption|].
  exists w1. split; [reflexivity|assumption].
Qed.

Lemma inline_sub_nil pre adj : inline_sub pre [] adj = [].
Proof.
  unfold inline_sub. apply sub_from_nil. rewrite inline_match_at. reflexivity.
Qed.

Lemma inline_sub_keep pre a rest adj :
  inline_at (a :: rest) = None ->
  inline_sub pre (a :: rest) adj = a :: inline_sub (a :: pre) rest false.
Proof.
  intros E. unfold inline_sub. apply sub_from_keep.
  rewrite inline_match_at, E. reflexivity.
Qed.

Lemma inline_sub_hit pre rest c w r adj :
  inline_at rest = Some (c, w, r) ->
  inline_sub pre rest adj =
  c :: T "$xxx$" ++ inline_sub (rev (c :: w) ++ pre) r true.
Proof.
  intros E. destruct (inline_at_split _ _ _ _ E) as (-> & _ & _).
  unfold inline_sub.
  rewrite (sub_from_hit inline_dollar_re xxx_tmpl pre (c :: w) r [(1, [c])]).
  - reflexivity.
  - discriminate.
  - rewrite inline_match_at. cbn [app] in E. cbn [app]. rewrite E. reflexivity.
Qed.

Lemma inline_induction (P : text -> Prop) :
  P [] ->
  (forall a rest, inline_at (a :: rest) = None -> P rest -> P (a :: rest)) ->
  (forall c w r, inline_at (c :: w ++ r) = Some (c, w, r) -> P r ->
                 P (c :: w ++ r)) ->
  forall rest, P rest.
Proof.
  intros Hnil Hkeep Hhit rest.
  remember (length rest) as n eqn:Hn. revert rest Hn.
  induction n as [n IH] using (well_founded_induction Nat.lt_wf_0).
  intros rest Hn. destruct rest as [|a rest]; [exact Hnil|].
  destruct (inline_at (a :: rest)) as [[[c w] r]|] eqn:E.
  - destruct (inline_at_split _ _ _ _ E) as (Hs & _ & _).
    injection Hs as -> ->. apply Hhit; [exact E|].
    apply (IH (length r)); [|reflexivity].
    subst n. cbn [length]. rewrite length_app. lia.
  - apply Hkeep; [exact E|].
    apply (IH (length rest)); [subst n; cbn [length]; lia|reflexivity].
Qed.

(** The substitution keeps the first character. *)
Lemma inline_sub_head pre a rest adj :
  exists y, inline_sub pre (a :: rest) adj = a :: y.
Proof.
  destruct (inline_at (a :: rest)) as [[[c w] r]|] eqn:E.
  - destruct (inline_at_split _ _ _ _ E) as (Hs & _ & _).
    injection Hs as -> _. rewrite (inline_sub_hit _ _ _ _ _ _ E). eauto.
  - rewrite inline_sub_keep by assumption. eauto.
Qed.

Lemma inline_sub_starts pre rest adj :
  starts_dollar (inline_sub pre rest adj) = starts_dollar rest.
Proof.
  destruct rest as [|a rest].
  - rewrite inline_sub_nil. reflexivity.
  - destruct (inline_sub_head pre a rest adj) as [y ->]. reflexivity.
Qed.

(** Where no closing dollar follows, nothing is replaced. *)
Lemma inline_at_no_closing a rest :
  closing rest = None -> inline_at (a :: rest) = None.
Proof.
  intros C. unfold inline_at. destruct rest as [|d rest1]; [reflexivity|].
  destruct (except "\" a && only "$" d); [|reflexivity].
  apply closing_none_tail in C as [C _]. rewrite C. reflexivity.
Qed.

Lemma inline_at_closing_none a rest :
  closing (a :: rest) = None -> inline_at (a :: rest) = None.
Proof.
  intros C. apply closing_none_tail in C as [C E].
  unfold inline_at. destruct rest as [|d rest1]; [reflexivity|].
  cbn [starts_dollar] in E. rewrite E. reflexivity.
Qed.

Lemma inline_sub_no_closing : forall rest pre adj,
  closing rest = None -> inline_sub pre rest adj = rest.
Proof.
  induction rest as [|a rest IH]; intros pre adj C.
  - apply inline_sub_nil.
  - rewrite inline_sub_keep by (apply inline_at_closing_none; exact C).
    apply closing_none_tail in C as [C _]. rewrite IH by assumption.
    reflexivity.
Qed.

(** A position where the pattern does not match stays one after the rest
    of the text has been substituted. *)
Lemma inline_at_none_stable a rest pre adj :
  inline_at (a :: rest) = None ->
  inline_at (a :: inline_sub pre rest adj) = None.
Proof.
  intros E. destruct rest as [|d rest1].
  - rewrite inline_sub_nil. reflexivity.
  - destruct (except "\" a && only "$" d) eqn:Ec.
    + assert (C : closing rest1 = None).
      { unfold inline_at in E. rewrite Ec in E.
        destruct (closing rest1) as [[w r]|]; [discriminate|reflexivity]. }
      rewrite inline_sub_keep by (apply inline_at_no_closing; exact C).
      rewrite inline_sub_no_closing by assumption. exact E.
    + destruct (inline_sub_head pre d rest1 adj) as [y ->].
      unfold inline_at. rewrite Ec. reflexivity.
Qed.

Lemma closing_xxx x : closing (T "xxx$" ++ x) = Some (T "xxx$", x).
Proof. reflexivity. Qed.

(** The substitution of inline formulas is idempotent. *)
Lemma inline_sub_idem : forall rest pre adj pre' adj',
  inline_sub pre' (inline_sub pre rest adj) adj' = inline_sub pre rest adj.
Proof.
  apply (inline_induction
    (fun rest => forall pre adj pre' adj',
       inline_sub pre' (inline_sub pre rest adj) adj' = inline_sub pre rest adj)).
  - intros. rewrite !inline_sub_nil. reflexivity.
  - intros a rest E IH pre adj pre' adj'.
    rewrite (inline_sub_keep pre a rest adj E).
    rewrite inline_sub_keep by (apply inline_at_none_stable; exact E).
    rewrite IH. reflexivity.
  - intros c w r E IH pre adj pre' adj'.
    rewrite (inline_sub_hit pre _ c w r adj E).
    destruct (inline_at_split _ _ _ _ E) as (_ & Hc & _).
    rewrite (inline_sub_hit pre' _ c (T "$xxx$")
               (inline_sub (rev (c :: w) ++ pre) r true) adj').
    + rewrite IH. reflexivity.
    + change (c :: T "$xxx$" ++ ?x) with (c :: "$"%char :: T "xxx$" ++ x).
      unfold inline_at. rewrite Hc, closing_xxx. reflexivity.
Qed.

(** ** Display dollars *)

Lemma display_match_shape pre rest :
  match_at display_dollar_re (Cursor pre rest) <> None ->
  exists c rest1, rest = c :: "$"%char :: "$"%char :: rest1.
Proof.
  intros H. apply match_at_some_iff in H as (cur' & cs & M).
  unfold display_dollar_re in M.
  inversion M as [| | | | | |? ? ? ? c2 cs2 ? ? M1 M2| | | | | |]; subst.
  inversion M1 as [| | | | | | | | | | | |? ? ? ? ? ? M1']; subst.
  inversion M1' as [|? a pre0 rest0 ? Ha| | | | | | | | | | |]; subst.
  inversion M2 as [| | | | | |? ? ? ? c3 cs3 ? ? M3 M4| | | | | |]; subst.
  apply (matches_lit_text_elim (T "$$")) in M3 as [[_ A] _].
  cbn [after] in A. exists a, (after c3). rewrite A. reflexivity.
Qed.

Lemma has_dd_cons a s :
  has_dd (a :: s) = false ->
  only "$" a && starts_dollar s = false /\ has_dd s = false.
Proof. cbn [has_dd]. apply orb_false_iff. Qed.

Lemma has_dd_shape c rest1 :
  has_dd (c :: "$"%char :: "$"%char :: rest1) = true.
Proof.
  cbn [has_dd starts_dollar]. rewrite only_refl. cbn [andb orb].
  apply orb_true_r.
Qed.

Lemma display_no_match pre rest :
  has_dd rest = false -> match_at display_dollar_re (Cursor pre rest) = None.
Proof.
  intros H. destruct (match_at display_dollar_re (Cursor pre rest)) eqn:E;
    [|reflexivity].
  destruct (display_match_shape pre rest) as (c & rest1 & ->); [congruence|].
  rewrite has_dd_shape in H. discriminate.
Qed.

(** Without two adjacent dollars, the first substitution of [stripinline]
    changes nothing. *)
Lemma display_sub_id : forall rest pre adj,
  has_dd rest = false ->
  sub_from display_dollar_re xxx_tmpl pre rest adj = rest.
Proof.
  induction rest as [|a rest IH]; intros pre adj H.
  - apply sub_from_nil, display_no_match. reflexivity.
  - rewrite sub_from_keep by (apply display_no_match; exact H).
    apply has_dd_cons in H as [_ H]. rewrite IH by assumption. reflexivity.
Qed.

Lemma has_dd_app_r : forall u v, has_dd (u ++ v) = false -> has_dd v = false.
Proof.
  induction u as [|a u IH]; intros v H; [exact H|].
  cbn [app] in H. apply has_dd_cons in H as [_ H]. apply IH. exact H.
Qed.

Lemma has_dd_after_dollar : forall u v,
  has_dd (u ++ "$"%char :: v) = false -> starts_dollar v = false.
Proof.
  induction u as [|a u IH]; intros v H; cbn [app] in H;
    apply has_dd_cons in H as [H1 H2].
  - rewrite only_refl in H1. exact H1.
  - apply IH. exact H2.
Qed.

(** The second substitution makes no two adjacent dollars. *)
Lemma inline_sub_no_dd : forall rest,
  has_dd rest = false ->
  forall pre adj, has_dd (inline_sub pre rest adj) = false.
Proof.
  apply (inline_induction
    (fun rest => has_dd rest = false ->
       forall pre adj, has_dd (inline_sub pre rest adj) = false)).
  - intros _ pre adj. rewrite inline_sub_nil. reflexivity.
  - intros a rest E IH H pre adj. apply has_dd_cons in H as [H1 H2].
    rewrite inline_sub_keep by assumption.
    cbn [has_dd]. rewrite inline_sub_starts, H1, IH by assumption.
    reflexivity.
  - intros c w r E IH H pre adj.
    rewrite (inline_sub_hit pre _ c w r adj E).
    destruct (inline_at_split _ _ _ _ E) as (_ & _ & w1 & -> & C).
    destruct (closing_split _ _ _ C) as [_ (w' & x & ->)].
    assert (Hc : only "$" c = false).
    { apply has_dd_cons in H as [H _]. cbn [app starts_dollar] in H.
      rewrite only_refl, andb_true_r in H. exact H. }
    assert (Hr : starts_dollar r = false).
    { apply (has_dd_after_dollar (c :: "$"%char :: w' ++ [x])).
      cbn [app] in *. rewrite <- !app_assoc in *. exact H. }
    assert (Hd : has_dd r = false).
    { apply (has_dd_app_r (c :: "$"%char :: w' ++ [x; "$"%char])). exact H. }
    cbn [app T list_ascii_of_string has_dd starts_dollar].
    rewrite inline_sub_starts, Hr, Hc, (IH Hd). reflexivity.
Qed.

(** C6, as stated, fails: on a text where two display formulas touch, the
    first application leaves two adjacent dollars after a collapsed span,
    and the second application collapses again. *)
Lemma stripinline_not_idempotent :
  stripinline (T "a$$b$$$c$$") = T "a$xxx$$c$$" /\
  stripinline (stripinline (T "a$$b$$$c$$")) = T "a$xxx$xxx$".
Proof. split; vm_compute; reflexivity. Qed.

(** A text without two adjacent dollars has an image without them. *)
Lemma stripinline_no_dd (t : text) :
  has_dd t = false -> has_dd (stripinline t) = false.
Proof.
  intros H. unfold stripinline, re_sub.
  fold (sub_from display_dollar_re xxx_tmpl [] t false).
  rewrite (display_sub_id t [] false H).
  fold (sub_from inline_dollar_re xxx_tmpl [] t false).
  fold (inline_sub [] t false).
  apply inline_sub_no_dd. exact H.
Qed.

(** C6, amended: on every text whose image under [stripinline] holds no
    two adjacent dollars, [stripinline] is idempotent: the spans it has
    collapsed to [$xxx$] are not altered by a second application.  The
    texts without two adjacent dollars are among them, and so are texts
    with display formulas that the first application collapses. *)
Theorem stripinline_idempotent (t : text) :
  has_dd (stripinline t) = false ->
  stripinline (stripinline t) = stripinline t.
Proof.
  intros H.
  change (stripinline (stripinline t))
    with (inline_sub []
            (sub_from display_dollar_re xxx_tmpl [] (stripinline t) false)
            false).
  rewrite (display_sub_id (stripinline t) [] false H).
  change (stripinline t)
    with (inline_sub [] (sub_from display_dollar_re xxx_tmpl [] t false)
            false).
  apply inline_sub_idem.
Qed.

Lemma stripinline_idempotent_witness :
  has_dd (T "a $$x$$ b") = true /\
  has_dd (stripinline (T "a $$x$$ b")) = false /\
  stripinline (stripinline (T "a $$x$$ b")) = stripinline (T "a $$x$$ b").
Proof.
  split; [reflexivity|]. split; [vm_compute; reflexivity|].
  apply (stripinline_idempotent (T "a $$x$$ b")).
  vm_compute. reflexivity.
Defined.

(** * Line patterns

    A pattern anchored to a line at both ends that cannot consume a
    newline sees one line at a time. *)

Lemma count_nl_zero_cons a s :
  count_nl (a :: s) = 0 <-> a <> NL /\ count_nl s = 0.
Proof.
  rewrite count_nl_cons. unfold nl_weight.
  destruct (ascii_dec a NL) as [->|Hn]; split.
  - discriminate.
  - intros [H _]. congruence.
  - intros H. split; [assumption|]. exact H.
  - intros [_ H]. exact H.
Qed.

Lemma count_nl_zero_app u v :
  count_nl (u ++ v) = 0 <-> count_nl u = 0 /\ count_nl v = 0.
Proof. rewrite count_nl_app. lia. Qed.

Lemma line_start_inside u pre :
  count_nl u = 0 -> u <> [] -> line_start (rev u ++ pre) = false.
Proof.
  intros Hu Hne. rewrite <- count_nl_rev in Hu.
  destruct (rev u) as [|b t] eqn:E.
  - apply (f_equal (@rev ascii)) in E. rewrite rev_involutive in E.
    cbn in E. congruence.
  - apply count_nl_zero_cons in Hu as [Hb _]. cbn [app line_start].
    apply Ascii.eqb_neq. exact Hb.
Qed.

Lemma line_end_inside v rest :
  count_nl v = 0 -> v <> [] -> line_end (v ++ rest) = false.
Proof.
  intros Hv Hne. destruct v as [|b v]; [congruence|].
  apply count_nl_zero_cons in Hv as [Hb _]. cbn [app line_end].
  apply Ascii.eqb_neq. exact Hb.
Qed.

Lemma forallb_nlfree (c : charset) w :
  nlfree (Chr c) = true -> forallb c w = true -> count_nl w = 0.
Proof.
  cbn [nlfree]. intros Hc. apply count_nl_forallb.
  apply negb_true_iff. exact Hc.
Qed.

Lemma pos_advance u w v2 p r :
  advance (Cursor (rev u ++ p) ((w ++ v2) ++ r)) w
          (Cursor (rev (u ++ w) ++ p) (v2 ++ r)).
Proof.
  split; cbn [before after].
  - rewrite rev_app_distr, <- app_assoc. reflexivity.
  - rewrite <- app_assoc. reflexivity.
Qed.

Section Transport.

Variables pre rest pre' rest' : text.
Hypothesis Hpre' : line_start pre' = true.
Hypothesis Hrest : line_end rest = true.
Hypothesis Hrest' : line_end rest' = true.

(** A run without newline that starts inside a line stays inside it. *)
Lemma split_in_line : forall w v r0,
  count_nl w = 0 -> v ++ rest = w ++ r0 ->
  exists v2, v = w ++ v2 /\ r0 = v2 ++ rest.
Proof.
  induction w as [|a w IH]; intros v r0 Hw E.
  - exists v. split; [reflexivity|]. symmetry. exact E.
  - apply count_nl_zero_cons in Hw as [Ha Hw].
    destruct v as [|b v].
    + cbn [app] in E. rewrite E in Hrest. cbn [line_end] in Hrest.
      apply Ascii.eqb_eq in Hrest. contradiction.
    + cbn [app] in E. injection E as -> E.
      destruct (IH v r0 Hw E) as (v2 & -> & ->).
      exists v2. split; reflexivity.
Qed.

(** What the pattern can match inside a line does not depend on what
    stands before and after the line. *)
Lemma transport r c cs d cs' :
  matches r c cs d cs' ->
  nlfree r = true -> no_string_anchor r = true ->
  forall u v,
    count_nl u = 0 -> count_nl v = 0 ->
    c = Cursor (rev u ++ pre) (v ++ rest) ->
    exists w v2,
      v = w ++ v2 /\
      d = Cursor (rev (u ++ w) ++ pre) (v2 ++ rest) /\
      matches r (Cursor (rev u ++ pre') (v ++ rest')) cs
                (Cursor (rev (u ++ w) ++ pre') (v2 ++ rest')) cs'.
Proof.
  induction 1; intros Hn Ha u v Hu Hv Hc.
  - (* Eps *)
    exists [], v. rewrite app_nil_r. subst. repeat split. constructor.
  - (* Chr *)
    injection Hc as -> Hv2. destruct v as [|b v].
    + cbn [app] in Hv2. rewrite <- Hv2 in Hrest. cbn [line_end] in Hrest.
      apply Ascii.eqb_eq in Hrest. subst a.
      cbn [nlfree] in Hn. rewrite H in Hn. discriminate.
    + cbn [app] in Hv2. injection Hv2 as <- ->.
      exists [a], v. cbn [app]. rewrite rev_app_distr. cbn [rev app].
      repeat split. constructor. exact H.
  - (* Bol *)
    exists [], v. rewrite app_nil_r. subst cur. repeat split.
    constructor. unfold at_bol in *. cbn [before] in *.
    destruct u as [|b u]; [exact Hpre'|].
    change (line_start (rev (b :: u) ++ pre) = true) in H.
    rewrite line_start_inside in H by (assumption || discriminate).
    discriminate.
  - (* Eol *)
    exists [], v. rewrite app_nil_r. subst cur. repeat split.
    constructor. unfold at_eol in *. cbn [after] in *.
    destruct v as [|b v]; [exact Hrest'|].
    change (line_end ((b :: v) ++ rest) = true) in H.
    rewrite line_end_inside in H by (assumption || discriminate).
    discriminate.
  - discriminate.
  - discriminate.
  - (* Seq *)
    cbn [nlfree no_string_anchor] in Hn, Ha.
    apply andb_true_iff in Hn as [Hn1 Hn2].
    apply andb_true_iff in Ha as [Ha1 Ha2].
    destruct (IHmatches1 Hn1 Ha1 u v Hu Hv Hc) as (w1 & v1 & -> & Hd1 & M1).
    apply count_nl_zero_app in Hv as [Hw1 Hv1].
    assert (Hu1 : count_nl (u ++ w1) = 0) by (apply count_nl_zero_app; auto).
    destruct (IHmatches2 Hn2 Ha2 (u ++ w1) v1 Hu1 Hv1 Hd1)
      as (w2 & v2 & -> & Hd2 & M2).
    exists (w1 ++ w2), v2. rewrite <- !app_assoc in *.
    repeat split; [assumption|]. econstructor; eassumption.
  - (* AltL *)
    cbn [nlfree no_string_anchor] in Hn, Ha.
    apply andb_true_iff in Hn as [Hn1 Hn2].
    apply andb_true_iff in Ha as [Ha1 Ha2].
    destruct (IHmatches Hn1 Ha1 u v Hu Hv Hc) as (w & v2 & -> & Hd & M).
    exists w, v2. repeat split; [assumption|]. apply M_AltL. exact M.
  - (* AltR *)
    cbn [nlfree no_string_anchor] in Hn, Ha.
    apply andb_true_iff in Hn as [Hn1 Hn2].
    apply andb_true_iff in Ha as [Ha1 Ha2].
    destruct (IHmatches Hn2 Ha2 u v Hu Hv Hc) as (w & v2 & -> & Hd & M).
    exists w, v2. repeat split; [assumption|]. apply M_AltR. exact M.
  - (* Star *)
    injection Hc as -> Hv2.
    assert (Hw : count_nl w = 0) by (eapply (forallb_nlfree c); eauto).
    symmetry in Hv2.
    destruct (split_in_line w v rest0 Hw Hv2) as (v2 & -> & ->).
    exists w, v2. rewrite rev_app_distr, <- !app_assoc.
    repeat split. constructor. exact H.
  - (* OptSome *)
    cbn [nlfree no_string_anchor] in Hn, Ha.
    destruct (IHmatches Hn Ha u v Hu Hv Hc) as (w & v2 & -> & Hd & M).
    exists w, v2. repeat split; [assumption|]. apply M_OptSome. exact M.
  - (* OptNone *)
    exists [], v. rewrite app_nil_r. subst. repeat split. apply M_OptNone.
  - (* Grp *)
    cbn [nlfree no_string_anchor] in Hn, Ha.
    destruct (IHmatches Hn Ha u v Hu Hv Hc) as (w & v2 & -> & Hd & M).
    exists w, v2. subst c1 c2. repeat split.
    replace (span (Cursor (rev u ++ pre) ((w ++ v2) ++ rest))
                  (Cursor (rev (u ++ w) ++ pre) (v2 ++ rest)))
      with (span (Cursor (rev u ++ pre') ((w ++ v2) ++ rest'))
                 (Cursor (rev (u ++ w) ++ pre') (v2 ++ rest'))).
    + constructor. exact M.
    + rewrite !(advance_span _ _ _ (pos_advance u w v2 _ _)). reflexivity.
Qed.

End Transport.

Lemma starts_bol_sound r c cs d cs' :
  matches r c cs d cs' -> starts_bol r = true -> at_bol c = true.
Proof.
  induction 1; cbn [starts_bol]; intros Hs; try discriminate; auto.
  - apply andb_true_iff in Hs as [H1 H2]. auto.
  - apply andb_true_iff in Hs as [H1 H2]. auto.
Qed.

Lemma ends_eol_sound r c cs d cs' :
  matches r c cs d cs' -> ends_eol r = true -> at_eol d = true.
Proof.
  induction 1; cbn [ends_eol]; intros Hs; try discriminate; auto.
  - apply andb_true_iff in Hs as [H1 H2]. auto.
  - apply andb_true_iff in Hs as [H1 H2]. auto.
Qed.

Lemma split_nl_first s :
  exists l rest,
    s = l ++ rest /\ count_nl l = 0 /\
    ((rest = [] /\ split_nl s = [l]) \/
     (exists s', rest = NL :: s' /\ split_nl s = l :: split_nl s')).
Proof.
  induction s as [|a s IH].
  - exists [], []. repeat split. left. split; reflexivity.
  - cbn [split_nl]. destruct (Ascii.eqb a NL) eqn:E.
    + apply Ascii.eqb_eq in E. subst a.
      exists [], (NL :: s). repeat split. right. exists s. split; reflexivity.
    + apply Ascii.eqb_neq in E.
      destruct IH as (l & rest & -> & Hl & [[-> Hs]|(s' & -> & Hs)]).
      * exists (a :: l), []. rewrite Hs. repeat split.
        -- apply count_nl_zero_cons. auto.
        -- left. split; reflexivity.
      * exists (a :: l), (NL :: s'). rewrite Hs. repeat split.
        -- apply count_nl_zero_cons. auto.
        -- right. exists s'. split; reflexivity.
Qed.

Section LinePattern.

Variable R : regex.
Hypothesis HR : line_pattern R = true.

Lemma line_pattern_parts :
  nlfree R = true /\ no_string_anchor R = true /\
  starts_bol R = true /\ ends_eol R = true.
Proof.
  unfold line_pattern in HR.
  apply andb_true_iff in HR as [H1 H4].
  apply andb_true_iff in H1 as [H1 H3].
  apply andb_true_iff in H1 as [H1 H2]. auto.
Qed.

(** Inside a line there is no match. *)
Lemma inside_no_match pre rest :
  line_start pre = false -> match_at R (Cursor pre rest) = None.
Proof.
  intros Hp. destruct (match_at R (Cursor pre rest)) as [[d cs]|] eqn:E;
    [|reflexivity].
  apply match_at_sound in E.
  destruct line_pattern_parts as (_ & _ & Hs & _).
  apply (starts_bol_sound _ _ _ _ _ E) in Hs.
  unfold at_bol in Hs. cbn [before] in Hs. unfold line_start in Hp.
  congruence.
Qed.

(** At the start of a line, a match is the whole line ... *)
Lemma line_match_whole pre l rest d cs :
  line_start pre = true -> count_nl l = 0 -> line_end rest = true ->
  match_at R (Cursor pre (l ++ rest)) = Some (d, cs) ->
  d = Cursor (rev l ++ pre) rest.
Proof.
  intros Hp Hl Hr E. apply match_at_sound in E.
  destruct line_pattern_parts as (Hn & Ha & _ & He).
  pose proof (ends_eol_sound _ _ _ _ _ E He) as Hd.
  destruct (transport pre rest pre rest Hp Hr Hr R _ _ _ _ E Hn Ha [] l
              eq_refl Hl eq_refl) as (w & v2 & -> & -> & _).
  apply count_nl_zero_app in Hl as [_ Hv2].
  destruct v2 as [|b v2].
  - rewrite !app_nil_r. reflexivity.
  - unfold at_eol in Hd. cbn [after] in Hd.
    change (line_end ((b :: v2) ++ rest) = true) in Hd.
    rewrite line_end_inside in Hd by (assumption || discriminate).
    discriminate.
Qed.

(** ... and there is one exactly when the pattern matches the line on
    its own. *)
Lemma line_match_iff pre l rest :
  line_start pre = true -> count_nl l = 0 -> line_end rest = true ->
  (match_at R (Cursor pre (l ++ rest)) <> None <-> line_hit R l = true).
Proof.
  intros Hp Hl Hr.
  destruct line_pattern_parts as (Hn & Ha & _ & _).
  unfold line_hit. split.
  - intros H. apply match_at_some_iff in H as (d & cs & M).
    destruct (transport pre rest [] [] eq_refl Hr eq_refl R _ _ _ _ M Hn Ha [] l
                eq_refl Hl eq_refl) as (w & v2 & _ & _ & M').
    cbn [rev app] in M'. rewrite !app_nil_r in M'.
    destruct (match_at R (Cursor [] l)) eqn:E; [reflexivity|].
    exfalso. exact (match_at_complete _ _ E _ _ M').
  - intros H. apply match_at_some_iff.
    destruct (match_at R (Cursor [] l)) as [[d cs]|] eqn:E; [|discriminate].
    apply match_at_sound in E.
    replace (Cursor [] l) with (Cursor (rev [] ++ []) (l ++ [])) in E
      by (cbn [rev app]; rewrite app_nil_r; reflexivity).
    destruct (transport [] [] pre rest Hp eq_refl Hr R _ _ _ _ E Hn Ha [] l
                eq_refl Hl eq_refl) as (w & v2 & _ & _ & M').
    eauto.
Qed.

Lemma line_hit_at pre l rest :
  line_start pre = true -> count_nl l = 0 -> line_end rest = true ->
  line_hit R l =
  match match_at R (Cursor pre (l ++ rest)) with
  | Some _ => true
  | None => false
  end.
Proof.
  intros Hp Hl Hr. pose proof (line_match_iff pre l rest Hp Hl Hr) as Hiff.
  destruct (match_at R (Cursor pre (l ++ rest))) eqn:E.
  - apply Hiff. discriminate.
  - destruct (line_hit R l); [|reflexivity].
    exfalso. apply (proj2 Hiff); reflexivity.
Qed.

(** From a position inside a line the loop passes to the next line. *)
Lemma scan_rest_of_line : forall l pre0 rest adj,
  count_nl l = 0 -> line_start pre0 = false -> line_end rest = true ->
  flat_map hit_text (scan R pre0 (l ++ rest) 0 adj) =
  match rest with
  | [] => []
  | _ :: s' => flat_map hit_text (scan R (NL :: rev l ++ pre0) s' 0 false)
  end.
Proof.
  induction l as [|a l IH]; intros pre0 rest adj Hl Hp Hr.
  - cbn [app rev]. destruct rest as [|b s'].
    + rewrite scan_end by (apply inside_no_match; exact Hp). reflexivity.
    + cbn [line_end] in Hr. apply Ascii.eqb_eq in Hr. subst b.
      rewrite scan_keep by (apply inside_no_match; exact Hp). reflexivity.
  - apply count_nl_zero_cons in Hl as [Ha Hl]. cbn [app].
    rewrite scan_keep by (apply inside_no_match; exact Hp).
    cbn [flat_map hit_text app].
    rewrite (IH (a :: pre0) rest false Hl); [|cbn [line_start]|exact Hr].
    + cbn [rev]. rewrite <- !app_assoc. reflexivity.
    + apply Ascii.eqb_neq. exact Ha.
Qed.

(** The matches of a line pattern are the lines that it matches, in
    order. *)
Lemma scan_lines : forall n s pre adj,
  length s <= n -> line_start pre = true ->
  flat_map hit_text (scan R pre s 0 adj) = filter (line_hit R) (split_nl s).
Proof.
  induction n as [|n IH]; intros s pre adj Hlen Hp.
  - destruct s; [|cbn in Hlen; lia].
    cbn [split_nl filter].
    rewrite (line_hit_at pre [] [] Hp eq_refl eq_refl). cbn [app].
    destruct (match_at R (Cursor pre [])) as [[d cs]|] eqn:E.
    + pose proof (line_match_whole pre [] [] d cs Hp eq_refl eq_refl E) as ->.
      cbn [rev app] in E. rewrite (scan_empty_end R pre cs) by exact E.
      reflexivity.
    + rewrite scan_end by exact E. reflexivity.
  - destruct (split_nl_first s) as (l & rest & -> & Hl & Hcase).
    assert (Hr : line_end rest = true).
    { destruct Hcase as [[-> _]|(s' & -> & _)]; cbn [line_end];
        [reflexivity|apply Ascii.eqb_refl]. }
    assert (Hnext : forall pre1,
      match rest with
      | [] => []
      | _ :: s' => flat_map hit_text (scan R (NL :: pre1) s' 0 false)
      end = filter (line_hit R) (tl (split_nl (l ++ rest)))).
    { intros pre1. destruct Hcase as [[-> Hs]|(s' & -> & Hs)]; rewrite Hs.
      - reflexivity.
      - cbn [tl]. apply IH; [|apply Ascii.eqb_refl].
        rewrite length_app in Hlen. cbn [length] in Hlen. lia. }
    assert (Hsplit : split_nl (l ++ rest) = l :: tl (split_nl (l ++ rest))).
    { destruct Hcase as [[_ ->]|(s' & _ & ->)]; reflexivity. }
    rewrite Hsplit at 1. cbn [filter].
    set (tails := filter (line_hit R) (tl (split_nl (l ++ rest)))) in *.
    clearbody tails. clear Hsplit Hcase.
    rewrite (line_hit_at pre l rest Hp Hl Hr).
    destruct (match_at R (Cursor pre (l ++ rest))) as [[d cs]|] eqn:E.
    + pose proof (line_match_whole pre l rest d cs Hp Hl Hr E) as ->.
      destruct l as [|a l].
      * cbn [rev app] in *. destruct rest as [|b s'].
        -- rewrite (scan_empty_end R pre cs) by exact E.
           rewrite <- (Hnext pre). reflexivity.
        -- cbn [line_end] in Hr. apply Ascii.eqb_eq in Hr. subst b.
           rewrite (scan_empty R pre NL s' cs) by exact E.
           cbn [flat_map hit_text app]. rewrite <- (Hnext pre). reflexivity.
      * rewrite (scan_hit R pre (a :: l) rest cs) by (discriminate || exact E).
        cbn [flat_map hit_text app]. f_equal.
        rewrite <- (Hnext (rev [] ++ rev (a :: l) ++ pre)).
        apply (scan_rest_of_line [] (rev (a :: l) ++ pre) rest true eq_refl);
          [|exact Hr].
        apply line_start_inside; [exact Hl|discriminate].
    + destruct l as [|a l].
      * cbn [app] in *. destruct rest as [|b s'].
        -- rewrite scan_end by exact E. rewrite <- (Hnext pre). reflexivity.
        -- cbn [line_end] in Hr. apply Ascii.eqb_eq in Hr. subst b.
           rewrite scan_keep by exact E. cbn [flat_map hit_text app].
           rewrite <- (Hnext pre). reflexivity.
      * apply count_nl_zero_cons in Hl as [Ha Hl]. cbn [app] in *.
        rewrite scan_keep by exact E. cbn [flat_map hit_text app].
        rewrite <- (Hnext (rev l ++ a :: pre)).
        apply (scan_rest_of_line l (a :: pre) rest false Hl); [|exact Hr].
        cbn [line_start]. apply Ascii.eqb_neq. exact Ha.
Qed.

Lemma findall_lines s :
  re_findall R s = filter (line_hit R) (split_nl s).
Proof.
  unfold re_findall. apply (scan_lines (length s)); [lia|reflexivity].
Qed.

End LinePattern.

Lemma split_nl_nlfree s : Forall (fun l => count_nl l = 0) (split_nl s).
Proof.
  induction s as [|a s IH]; cbn [split_nl].
  - repeat constructor.
  - destruct (Ascii.eqb a NL) eqn:E.
    + constructor; [reflexivity|exact IH].
    + apply Ascii.eqb_neq in E.
      destruct (split_nl s) as [|l ls].
      * repeat constructor. apply count_nl_zero_cons. auto.
      * inversion IH; subst. constructor; [|assumption].
        apply count_nl_zero_cons. auto.
Qed.

(** On the lines of a text, a test that agrees with the pattern on lines
    without newline selects the same lines. *)
Lemma filter_lines (f g : text -> bool) s :
  (forall l, count_nl l = 0 -> f l = g l) ->
  filter f (split_nl s) = filter g (split_nl s).
Proof.
  intros H. apply filter_ext_in. intros l Hl.
  apply H. pose proof (split_nl_nlfree s) as F.
  rewrite Forall_forall in F. auto.
Qed.

(** X1: each of the script's line patterns without a capturing group
    finds exactly the lines of the text (split at newlines) that it
    matches when the line is taken on its own, each once and in the order
    of the text. *)
Theorem line_checks_report_lines :
  Forall (fun R => groupless R = true /\
                   forall fstr,
                     re_findall R fstr =
                     filter (line_hit R) (split_nl fstr))
         line_checks.
Proof.
  apply Forall_forall. intros R HR. split.
  - assert (H : forallb groupless line_checks = true)
      by (vm_compute; reflexivity).
    rewrite forallb_forall in H. auto.
  - intros fstr. apply findall_lines.
    assert (H : forallb line_pattern line_checks = true)
      by (vm_compute; reflexivity).
    rewrite forallb_forall in H. auto.
Qed.

(** ** Taking a match apart *)

Lemma inv_seq r1 r2 c cs d cs' :
  matches (Seq r1 r2) c cs d cs' ->
  exists c2 cs2, matches r1 c cs c2 cs2 /\ matches r2 c2 cs2 d cs'.
Proof. intros M. inversion M; subst. eauto. Qed.

Lemma inv_star g (ch : charset) p r cs d cs' :
  matches (Star g ch) (Cursor p r) cs d cs' ->
  exists w r', r = w ++ r' /\ forallb ch w = true /\
               d = Cursor (rev w ++ p) r' /\ cs' = cs.
Proof. intros M. inversion M; subst. eauto 10. Qed.

Lemma inv_chr (ch : charset) p r cs d cs' :
  matches (Chr ch) (Cursor p r) cs d cs' ->
  exists a r', r = a :: r' /\ ch a = true /\ d = Cursor (a :: p) r' /\ cs' = cs.
Proof. intros M. inversion M; subst. eauto 10. Qed.

Lemma inv_lit s p r cs d cs' :
  matches (lit_text s) (Cursor p r) cs d cs' ->
  exists r', r = s ++ r' /\ d = Cursor (rev s ++ p) r' /\ cs' = cs.
Proof.
  intros M. apply matches_lit_text_elim in M as [A ->].
  apply advance_inv in A as [E1 E2]. cbn [before after] in E1, E2.
  injection E1 as E1. exists (after d). auto.
Qed.

Lemma inv_bol c cs d cs' :
  matches Bol c cs d cs' -> d = c /\ cs' = cs /\ at_bol c = true.
Proof. intros M. inversion M; subst. auto. Qed.

Lemma inv_eol c cs d cs' :
  matches Eol c cs d cs' -> d = c /\ cs' = cs /\ at_eol c = true.
Proof. intros M. inversion M; subst. auto. Qed.

Lemma inv_opt r c cs d cs' :
  matches (Opt r) c cs d cs' -> matches r c cs d cs' \/ (d = c /\ cs' = cs).
Proof. intros M. inversion M; subst; auto. Qed.

Lemma inv_alt r1 r2 c cs d cs' :
  matches (Alt r1 r2) c cs d cs' ->
  matches r1 c cs d cs' \/ matches r2 c cs d cs'.
Proof. intros M. inversion M; subst; auto. Qed.

Lemma inv_grp n r c cs d cs' :
  matches (Grp n r) c cs d cs' ->
  exists cs2, matches r c cs d cs2 /\ cs' = (n, span c d) :: cs2.
Proof. intros M. inversion M; subst. eauto. Qed.

Lemma eol_in_line p r :
  at_eol (Cursor p r) = true -> count_nl r = 0 -> r = [].
Proof.
  unfold at_eol. cbn [after]. destruct r as [|a r]; [reflexivity|].
  intros Ha Hn. apply Ascii.eqb_eq in Ha. subst a.
  apply count_nl_zero_cons in Hn as [Hn _]. congruence.
Qed.

Lemma forallb_dot w : count_nl w = 0 -> forallb dot w = true.
Proof.
  induction w as [|a w IH]; [reflexivity|].
  intros H. apply count_nl_zero_cons in H as [Ha Hw].
  cbn [forallb]. rewrite (IH Hw), andb_true_r.
  unfold dot, except. apply negb_true_iff. apply Ascii.eqb_neq. congruence.
Qed.

(** The end of every line pattern of the script: the rest of the line. *)
Lemma rest_of_line p w cs :
  count_nl w = 0 ->
  matches (many dot ;; Eol) (Cursor p w) cs (Cursor (rev w ++ p) []) cs.
Proof.
  intros Hw. eapply M_Seq.
  - pose proof (M_Star true dot p w [] cs (forallb_dot w Hw)) as M.
    rewrite app_nil_r in M. exact M.
  - apply M_Eol. reflexivity.
Qed.

Lemma line_hit_iff r l :
  line_hit r l = true <-> exists d cs, matches r (Cursor [] l) [] d cs.
Proof.
  unfold line_hit. rewrite <- match_at_some_iff.
  destruct (match_at r (Cursor [] l)); split; congruence.
Qed.

(** ** Occurrences in a line *)

Lemma startswith_iff : forall x l,
  startswith l x = true <-> exists w, l = x ++ w.
Proof.
  induction x as [|p x IH]; intros l.
  - split; [intros _; exists l; reflexivity|].
    intros _. destruct l; reflexivity.
  - destruct l as [|a l]; cbn [startswith].
    + split; [discriminate|]. intros [w H]. discriminate.
    + rewrite andb_true_iff, IH, Ascii.eqb_eq. split.
      * intros [-> [w ->]]. exists w. reflexivity.
      * intros [w H]. injection H as -> ->. eauto.
Qed.

Lemma occurs_after_iff ok x : forall l prev,
  occurs_after ok x prev l = true <->
  exists u w, l = u ++ x ++ w /\ ok (last_char prev u) = true.
Proof.
  induction l as [|a l IH]; intros prev; cbn [occurs_after].
  - rewrite orb_false_r, andb_true_iff, startswith_iff. split.
    + intros [Hok [w Hw]]. exists [], w. auto.
    + intros (u & w & Hl & Hok).
      destruct u as [|b u]; [|discriminate].
      split; [exact Hok|]. exists w. exact Hl.
  - rewrite orb_true_iff, andb_true_iff, startswith_iff, IH. split.
    + intros [[Hok [w Hw]]|(u & w & Hl & Hok)].
      * exists [], w. auto.
      * exists (a :: u), w. split; [cbn [app]; congruence|].
        unfold last_char in *. cbn [rev].
        destruct (rev u) as [|b t]; exact Hok.
    + intros (u & w & Hl & Hok). destruct u as [|b u].
      * left. split; [exact Hok|]. exists w. exact Hl.
      * right. cbn [app] in Hl. injection Hl as <- Hl.
        exists u, w. split; [exact Hl|].
        unfold last_char in *. cbn [rev] in Hok.
        destruct (rev u) as [|c t]; exact Hok.
Qed.

Lemma contains_occurs x : forall l prev,
  contains x l = occurs_after (fun _ => true) x prev l.
Proof.
  induction l as [|a l IH]; intros prev; cbn [contains occurs_after].
  - reflexivity.
  - rewrite (IH (Some a)). reflexivity.
Qed.

Lemma contains_iff x l :
  contains x l = true <-> exists u w, l = u ++ x ++ w.
Proof.
  rewrite (contains_occurs x l None), occurs_after_iff. split.
  - intros (u & w & H & _). eauto.
  - intros (u & w & H). eauto.
Qed.

Lemma bool_eq_iff (a b : bool) : (a = true <-> b = true) -> a = b.
Proof. destruct a, b; intros [H1 H2]; auto; try (symmetry; auto). Qed.

(** A line holds the literal of a pattern "^.*<literal>.*$" when the
    pattern matches it. *)
Lemma holding_hit s l :
  count_nl l = 0 -> line_hit (holding s) l = contains (T s) l.
Proof.
  intros Hl. apply bool_eq_iff.
  rewrite line_hit_iff, contains_iff. unfold holding. split.
  - intros (d & cs & M).
    apply inv_seq in M as (c1 & cs1 & M0 & M).
    apply inv_bol in M0 as (-> & -> & _).
    apply inv_seq in M as (c2 & cs2 & M1 & M).
    apply inv_star in M1 as (u & r1 & -> & _ & -> & ->).
    apply inv_seq in M as (c3 & cs3 & M2 & _).
    apply inv_lit in M2 as (r2 & -> & _). eauto.
  - intros (u & w & ->).
    apply count_nl_zero_app in Hl as [Hu Hl].
    apply count_nl_zero_app in Hl as [Hx Hw].
    do 2 eexists. eapply M_Seq; [apply M_Bol; reflexivity|].
    eapply M_Seq; [apply (M_Star true dot [] u), forallb_dot, Hu|].
    eapply M_Seq; [apply matches_lit_text_intro|].
    apply rest_of_line, Hw.
Qed.

(** X2: in a document that is not a set of foils, each of the four
    reports of [checknotfoils] lists the lines that hold the literal text
    it looks for, anywhere in the line, in the order of the text. *)
Theorem checknotfoils_lines fstr :
  checknotfoils fstr =
  reportlines (filter (contains (T "\textsl")) (split_nl fstr)) Textsl ++
  reportlines (filter (contains (T "\begin{displaymath}")) (split_nl fstr))
    Displaymath ++
  reportlines (filter (contains (T "\begin{eqnarray*}")) (split_nl fstr))
    EqnarrayStar ++
  reportlines (filter (contains (T "\footnote{~")) (split_nl fstr))
    FootnoteTie.
Proof.
  unfold checknotfoils.
  rewrite !findall_lines by reflexivity.
  rewrite !(filter_lines (line_hit (holding _)) (contains _))
    by (intros; apply holding_hit; assumption).
  reflexivity.
Qed.

Lemma wordcite_hit l :
  count_nl l = 0 ->
  line_hit wordcite_re l = occurs_after after_blank (T "\cite") None l.
Proof.
  intros Hl. apply bool_eq_iff.
  rewrite line_hit_iff, occurs_after_iff. unfold wordcite_re. split.
  - intros (d & cs & M).
    apply inv_seq in M as (c1 & cs1 & M0 & M).
    apply inv_bol in M0 as (-> & -> & _).
    apply inv_seq in M as (c2 & cs2 & M1 & M).
    apply inv_seq in M as (c3 & cs3 & M2 & _).
    apply inv_opt in M1 as [M1|[-> ->]].
    + apply inv_seq in M1 as (c4 & cs4 & M1 & M3).
      apply inv_star in M1 as (u & r1 & -> & _ & -> & ->).
      apply inv_chr in M3 as (b & r2 & -> & Hb & -> & ->).
      apply inv_lit in M2 as (r3 & -> & _).
      exists (u ++ [b]), r3. split.
      * rewrite <- app_assoc. reflexivity.
      * unfold last_char. rewrite rev_app_distr. exact Hb.
    + apply inv_lit in M2 as (r3 & -> & _).
      exists [], r3. split; reflexivity.
  - intros (u & w & -> & Hok).
    apply count_nl_zero_app in Hl as [Hu Hl].
    apply count_nl_zero_app in Hl as [Hx Hw].
    destruct (rev u) as [|b t] eqn:Er.
    + apply (f_equal (@rev ascii)) in Er. rewrite rev_involutive in Er.
      subst u. cbn [rev app].
      do 2 eexists. eapply M_Seq; [apply M_Bol; reflexivity|].
      eapply M_Seq; [apply M_OptNone|].
      eapply M_Seq; [apply matches_lit_text_intro|].
      apply rest_of_line, Hw.
    + apply (f_equal (@rev ascii)) in Er. rewrite rev_involutive in Er.
      cbn [rev] in Er. subst u.
      unfold last_char in Hok. rewrite rev_app_distr, rev_involutive in Hok.
      cbn [rev app] in Hok. cbn [after_blank] in Hok.
      apply count_nl_zero_app in Hu as [Hu _].
      rewrite <- !app_assoc. cbn [app].
      do 2 eexists. eapply M_Seq; [apply M_Bol; reflexivity|].
      eapply M_Seq.
      * apply M_OptSome. eapply M_Seq.
        -- apply (M_Star true dot [] (rev t)), forallb_dot, Hu.
        -- apply M_Chr, Hok.
      * eapply M_Seq; [apply matches_lit_text_intro|].
        apply rest_of_line, Hw.
Qed.

(** X3: [checkwordcite] lists the lines in which a citation command
    stands at the start of the line or directly after a space, a tab or a
    tie. *)
Theorem checkwordcite_lines fstr :
  checkwordcite fstr =
  reportlines
    (filter (occurs_after after_blank (T "\cite") None) (split_nl fstr))
    SpaceCite.
Proof.
  unfold checkwordcite.
  rewrite findall_lines by reflexivity.
  rewrite (filter_lines _ _ _ wordcite_hit). reflexivity.
Qed.

Lemma superscriptcite_hit l :
  count_nl l = 0 ->
  line_hit superscriptcite_re l =
  occurs_after after_nonspace (T "\cite") None l.
Proof.
  intros Hl. apply bool_eq_iff.
  rewrite line_hit_iff, occurs_after_iff. unfold superscriptcite_re. split.
  - intros (d & cs & M).
    apply inv_seq in M as (c1 & cs1 & M0 & M).
    apply inv_bol in M0 as (-> & -> & _).
    apply inv_seq in M as (c2 & cs2 & M1 & M).
    apply inv_star in M1 as (u & r1 & -> & _ & -> & ->).
    apply inv_seq in M as (c3 & cs3 & M2 & M).
    apply inv_chr in M2 as (b & r2 & -> & Hb & -> & ->).
    apply inv_seq in M as (c4 & cs4 & M3 & _).
    apply inv_lit in M3 as (r3 & -> & _).
    exists (u ++ [b]), r3. split.
    + rewrite <- app_assoc. reflexivity.
    + unfold last_char. rewrite rev_app_distr. exact Hb.
  - intros (u & w & -> & Hok).
    apply count_nl_zero_app in Hl as [Hu Hl].
    apply count_nl_zero_app in Hl as [Hx Hw].
    unfold last_char in Hok.
    destruct (rev u) as [|b t] eqn:Er; [discriminate|].
    apply (f_equal (@rev ascii)) in Er. rewrite rev_involutive in Er.
    cbn [rev] in Er. subst u. cbn [after_nonspace] in Hok.
    apply count_nl_zero_app in Hu as [Hu _].
    rewrite <- !app_assoc. cbn [app].
    do 2 eexists. eapply M_Seq; [apply M_Bol; reflexivity|].
    eapply M_Seq; [apply (M_Star true dot [] (rev t)), forallb_dot, Hu|].
    eapply M_Seq; [apply M_Chr, Hok|].
    eapply M_Seq; [apply matches_lit_text_intro|].
    apply rest_of_line, Hw.
Qed.

(** X4: [checksuperscriptcite] lists the lines in which a citation
    command directly follows a character that is neither white space nor
    a tie; a citation at the very start of a line is not listed. *)
Theorem checksuperscriptcite_lines fstr :
  checksuperscriptcite fstr =
  reportlines
    (filter (occurs_after after_nonspace (T "\cite") None) (split_nl fstr))
    DotCite.
Proof.
  unfold checksuperscriptcite.
  rewrite findall_lines by reflexivity.
  rewrite (filter_lines _ _ _ superscriptcite_hit). reflexivity.
Qed.

Lemma existsb_split (f : ascii -> bool) l :
  existsb f l = true <-> exists u a w, l = u ++ a :: w /\ f a = true.
Proof.
  rewrite existsb_exists. split.
  - intros (a & Hin & Hf). apply in_split in Hin as (u & w & ->). eauto.
  - intros (u & a & w & -> & Hf). exists a. split; [|exact Hf].
    apply in_or_app. right. left. reflexivity.
Qed.

Lemma nonascii_hit l :
  count_nl l = 0 -> line_hit nonascii_re l = existsb nonprintable l.
Proof.
  intros Hl. apply bool_eq_iff.
  rewrite line_hit_iff, existsb_split. unfold nonascii_re. split.
  - intros (d & cs & M).
    apply inv_seq in M as (c1 & cs1 & M0 & M).
    apply inv_bol in M0 as (-> & -> & _).
    apply inv_seq in M as (c2 & cs2 & M1 & M).
    apply inv_star in M1 as (u & r1 & -> & _ & -> & ->).
    apply inv_seq in M as (c3 & cs3 & M2 & _).
    apply inv_chr in M2 as (b & r2 & -> & Hb & _). eauto.
  - intros (u & a & w & -> & Ha).
    apply count_nl_zero_app in Hl as [Hu Hl].
    apply count_nl_zero_cons in Hl as [_ Hw].
    do 2 eexists. eapply M_Seq; [apply M_Bol; reflexivity|].
    eapply M_Seq; [apply (M_Star true dot [] u), forallb_dot, Hu|].
    eapply M_Seq; [apply M_Chr, Ha|].
    apply rest_of_line, Hw.
Qed.

(** X5: [checknonascii] lists the lines that hold a byte outside the
    printable ASCII range other than a carriage return (a tab counts), and
    gives the notice about carriage returns when the text holds one. *)
Theorem checknonascii_lines fstr :
  checknonascii fstr =
  (reportlines (filter (existsb nonprintable) (split_nl fstr)) NonPrintable,
   existsb (Ascii.eqb CR) fstr) /\
  nonprintable TAB = true /\
  forall a, nonprintable a = true <->
            (code a < 32 \/ 126 < code a) /\ a <> NL /\ a <> CR.
Proof.
  split; [|split].
  - unfold checknonascii.
    rewrite findall_lines by reflexivity.
    rewrite (filter_lines _ _ _ nonascii_hit). reflexivity.
  - reflexivity.
  - intros a. unfold nonprintable, in_range, except.
    rewrite !andb_true_iff, !negb_true_iff, andb_false_iff.
    rewrite !Nat.leb_gt, !Ascii.eqb_neq.
    change (code " ") with 32. change (code "~") with 126.
    assert (Hc : forall c : ascii, c = a <-> a = c) by (split; congruence).
    rewrite !Hc. tauto.
Qed.

(** ** [checkrefcase] *)

Lemma text_eqb_iff a b : text_eqb a b = true <-> a = b.
Proof. split; [apply text_eqb_eq|intros ->; apply text_eqb_refl]. Qed.

Lemma ends_after_iff ok x : forall l prev,
  ends_after ok x prev l = true <->
  exists u, l = u ++ x /\ ok (last_char prev u) = true.
Proof.
  induction l as [|a l IH]; intros prev; cbn [ends_after].
  - rewrite orb_false_r, andb_true_iff, text_eqb_iff. split.
    + intros [Hok <-]. exists []. auto.
    + intros (u & Hl & Hok).
      destruct u as [|b u]; [|discriminate]. auto.
  - rewrite orb_true_iff, andb_true_iff, text_eqb_iff, IH. split.
    + intros [[Hok <-]|(u & Hl & Hok)].
      * exists []. auto.
      * exists (a :: u). split; [cbn [app]; congruence|].
        unfold last_char in *. cbn [rev].
        destruct (rev u) as [|b t]; exact Hok.
    + intros (u & Hl & Hok). destruct u as [|b u].
      * left. auto.
      * right. cbn [app] in Hl. injection Hl as <- Hl.
        exists u. split; [exact Hl|].
        unfold last_char in *. cbn [rev] in Hok.
        destruct (rev u) as [|c t]; exact Hok.
Qed.

(** The optional start "(?:.*[ \t~])?" of a line pattern. *)
Lemma prefix_opt_inv l cs c2 cs2 :
  matches (Opt (many dot ;; Chr blank_tie)) (Cursor [] l) cs c2 cs2 ->
  exists u r, l = u ++ r /\ c2 = Cursor (rev u) r /\ cs2 = cs /\
              after_blank (last_char None u) = true.
Proof.
  intros M. apply inv_opt in M as [M|[-> ->]].
  - apply inv_seq in M as (c4 & cs4 & M1 & M3).
    apply inv_star in M1 as (u & r1 & -> & _ & -> & ->).
    apply inv_chr in M3 as (b & r2 & -> & Hb & -> & ->).
    exists (u ++ [b]), r2. rewrite <- app_assoc. repeat split.
    + rewrite rev_app_distr, app_nil_r. reflexivity.
    + unfold last_char. rewrite rev_app_distr. exact Hb.
  - exists [], l. repeat split.
Qed.

Lemma prefix_opt_intro u r cs :
  count_nl u = 0 -> after_blank (last_char None u) = true ->
  matches (Opt (many dot ;; Chr blank_tie)) (Cursor [] (u ++ r)) cs
          (Cursor (rev u) r) cs.
Proof.
  intros Hu Hok. unfold last_char in Hok.
  destruct (rev u) as [|b t] eqn:Er;
    apply (f_equal (@rev ascii)) in Er; rewrite rev_involutive in Er;
    cbn [rev] in Er; subst u.
  - apply M_OptNone.
  - cbn [after_blank] in Hok.
    apply count_nl_zero_app in Hu as [Hu _].
    rewrite <- app_assoc. cbn [app].
    replace (b :: t) with (b :: rev (rev t) ++ [])
      by (rewrite rev_involutive, app_nil_r; reflexivity).
    apply M_OptSome. eapply M_Seq.
    + apply (M_Star true dot [] (rev t)), forallb_dot, Hu.
    + apply M_Chr, Hok.
Qed.

(** The group of the pattern asks for the end of the line and then for a
    colon: it takes part in no match, and the line ends after the stop. *)
Lemma refcase_end_inv p r cs d cs' :
  matches refcase_end (Cursor p r) cs d cs' ->
  count_nl r = 0 -> r = T "." /\ cs' = cs.
Proof.
  unfold refcase_end. intros M Hr.
  apply inv_seq in M as (c1 & cs1 & M0 & M).
  apply inv_chr in M0 as (a & r1 & -> & Ha & -> & ->).
  apply only_eq in Ha. subst a.
  apply count_nl_zero_cons in Hr as [_ Hr].
  apply inv_seq in M as (c2 & cs2 & M1 & M).
  apply inv_opt in M1 as [M1|[-> ->]].
  - exfalso. apply inv_grp in M1 as (cs3 & M1 & _).
    apply inv_seq in M1 as (c3 & cs4 & M1 & M2).
    apply inv_eol in M1 as (-> & -> & He).
    apply (eol_in_line _ _ He) in Hr. subst r1.
    apply inv_seq in M2 as (c4 & cs5 & M2 & _).
    apply inv_chr in M2 as (a & r2 & E & _). discriminate.
  - apply inv_eol in M as (-> & -> & He).
    apply (eol_in_line _ _ He) in Hr. subst r1. auto.
Qed.

Lemma refcase_mid_inv p r cs d cs' :
  matches refcase_mid (Cursor p r) cs d cs' ->
  count_nl r = 0 ->
  exists k, In k refcase_words /\ r = k ++ T "." /\ cs' = cs.
Proof.
  unfold refcase_mid. intros M Hr.
  apply inv_seq in M as (c1 & cs1 & M0 & M).
  apply inv_seq in M as (c2 & cs2 & M1 & M).
  assert (Hw : exists k r1, r = k ++ r1 /\ c1 = Cursor (rev k ++ p) r1 /\
                 cs1 = cs /\
                 In k (map T ["eq"; "eqn"; "fig"; "sec"; "table"; "ref"]%string)).
  { apply inv_alt in M0 as [M0|M0]; [|apply inv_alt in M0 as [M0|M0];
      [|apply inv_alt in M0 as [M0|M0]; [|apply inv_alt in M0 as [M0|M0]]]].
    - apply inv_seq in M0 as (c3 & cs3 & M0 & M2).
      apply inv_lit in M0 as (r1 & -> & -> & ->).
      apply inv_opt in M2 as [M2|[-> ->]].
      + apply inv_chr in M2 as (a & r2 & -> & Ha & -> & ->).
        apply only_eq in Ha. subst a.
        exists (T "eqn"), r2. cbn. auto 10.
      + exists (T "eq"), r1. cbn. auto 10.
    - apply inv_lit in M0 as (r1 & -> & -> & ->).
      exists (T "fig"), r1. cbn. auto 10.
    - apply inv_lit in M0 as (r1 & -> & -> & ->).
      exists (T "sec"), r1. cbn. auto 10.
    - apply inv_lit in M0 as (r1 & -> & -> & ->).
      exists (T "table"), r1. cbn. auto 10.
    - apply inv_lit in M0 as (r1 & -> & -> & ->).
      exists (T "ref"), r1. cbn. auto 10. }
  destruct Hw as (k & r1 & -> & -> & -> & Hk).
  apply count_nl_zero_app in Hr as [_ Hr].
  apply inv_opt in M1 as [M1|[-> ->]].
  - apply inv_chr in M1 as (a & r2 & -> & Ha & -> & ->).
    apply only_eq in Ha. subst a.
    apply count_nl_zero_cons in Hr as [_ Hr].
    apply (refcase_end_inv _ _ _ _ _ M) in Hr as [-> ->].
    exists (k ++ T "s"). rewrite <- app_assoc. repeat split.
    cbn [map In] in Hk. unfold refcase_words. cbn [map In].
    repeat (destruct Hk as [<-|Hk]; [cbn; auto 20|]). contradiction.
  - apply (refcase_end_inv _ _ _ _ _ M) in Hr as [-> ->].
    exists k. repeat split.
    cbn [map In] in Hk. unfold refcase_words. cbn [map In].
    repeat (destruct Hk as [<-|Hk]; [cbn; auto 20|]). contradiction.
Qed.

Lemma refcase_mid_intro k p :
  In k refcase_words ->
  matches refcase_mid (Cursor p (k ++ T ".")) []
          (Cursor (rev (k ++ T ".") ++ p) []) [].
Proof.
  unfold refcase_words. cbn [map In]. intros Hk.
  repeat (destruct Hk as [<-|Hk];
          [apply match_at_sound; vm_compute; reflexivity|]).
  contradiction.
Qed.

Lemma refcase_hit l :
  count_nl l = 0 -> line_hit refcase_re l = refcase_line l.
Proof.
  intros Hl. apply bool_eq_iff.
  rewrite line_hit_iff. unfold refcase_line. rewrite existsb_exists.
  change refcase_re
    with (Bol ;; Opt (many dot ;; Chr blank_tie) ;; refcase_mid)%re.
  split.
  - intros (d & cs & M).
    apply inv_seq in M as (c1 & cs1 & M0 & M).
    apply inv_bol in M0 as (-> & -> & _).
    apply inv_seq in M as (c2 & cs2 & M1 & M).
    apply prefix_opt_inv in M1 as (u & r & -> & -> & -> & Hok).
    apply count_nl_zero_app in Hl as [_ Hr].
    apply (refcase_mid_inv _ _ _ _ _ M) in Hr as (k & Hk & -> & _).
    exists k. split; [exact Hk|]. apply ends_after_iff. eauto.
  - intros (k & Hk & He). apply ends_after_iff in He as (u & -> & Hok).
    apply count_nl_zero_app in Hl as [Hu _].
    do 2 eexists. eapply M_Seq; [apply M_Bol; reflexivity|].
    eapply M_Seq; [apply prefix_opt_intro; assumption|].
    apply refcase_mid_intro, Hk.
Qed.

Lemma refcase_no_group cur d cs :
  match_at refcase_re cur = Some (d, cs) -> cs = [].
Proof.
  intros M. apply match_at_sound in M.
  change refcase_re
    with (Bol ;; Opt (many dot ;; Chr blank_tie) ;;
          ((lit "eq" ;; Opt (Chr (only "n"))) <|> lit "fig" <|> lit "sec" <|>
            lit "table" <|> lit "ref") ;;
          Opt (Chr (only "s")) ;; Chr (only ".") ;;
          Opt (Grp 1 (Eol ;; Chr (only ":") ;; Chr blank_tie ;; many dot)) ;;
          Eol)%re in M.
  apply inv_seq in M as (c1 & cs1 & M0 & M).
  apply matches_groupless in M0; [subst cs1|reflexivity].
  apply inv_seq in M as (c2 & cs2 & M0 & M).
  apply matches_groupless in M0; [subst cs2|reflexivity].
  apply inv_seq in M as (c3 & cs3 & M0 & M).
  apply matches_groupless in M0; [subst cs3|reflexivity].
  apply inv_seq in M as (c4 & cs4 & M0 & M).
  apply matches_groupless in M0; [subst cs4|reflexivity].
  apply inv_seq in M as (c5 & cs5 & M0 & M).
  apply matches_groupless in M0; [subst cs5|reflexivity].
  apply inv_seq in M as (c6 & cs6 & M0 & M).
  apply matches_groupless in M; [subst cs|reflexivity].
  apply inv_opt in M0 as [M0|[_ ->]]; [|reflexivity].
  exfalso. apply inv_grp in M0 as (cs7 & M0 & _).
  apply inv_seq in M0 as (c7 & cs8 & M0 & M1).
  apply inv_eol in M0 as (-> & -> & He).
  apply inv_seq in M1 as (c8 & cs9 & M1 & _).
  destruct c5 as [p5 r5].
  apply inv_chr in M1 as (a & r2 & -> & Ha & _).
  apply only_eq in Ha. subst a. discriminate.
Qed.

(** With a group that takes part in no match, [re.findall] gives an
    empty text for each match. *)
Lemma findall_group_dead n r :
  (forall cur d cs, match_at r cur = Some (d, cs) -> group n cs = None) ->
  forall s, re_findall_group n r s = map (fun _ => []) (re_findall r s).
Proof.
  intros Hn s. unfold re_findall_group, re_findall.
  revert s. intros s. generalize (@nil ascii) at 1 3 as pre.
  generalize false as adj. intros adj pre. revert s pre adj.
  apply (scan_induction r
    (fun pre adj rest =>
       flat_map (hit_group n) (scan r pre rest 0 adj) =
       map (fun _ => []) (flat_map hit_text (scan r pre rest 0 adj))));
    intros.
  - rewrite scan_end by assumption. reflexivity.
  - rewrite scan_keep by assumption. assumption.
  - rewrite (scan_hit _ _ _ _ _ _ H H0). cbn [flat_map hit_group hit_text app map].
    rewrite (Hn _ _ _ H0), H1. reflexivity.
  - rewrite (scan_empty_end _ _ _ _ H). cbn [flat_map hit_group hit_text app map].
    rewrite (Hn _ _ _ H). reflexivity.
  - rewrite (scan_empty _ _ _ _ _ _ H). cbn [flat_map hit_group hit_text app map].
    rewrite (Hn _ _ _ H), H0. reflexivity.
Qed.

(** X6: [checkrefcase] fires for the lines that end with one of eq, eqn,
    fig, sec, table, ref (or its plural in s) and a full stop, the word
    standing at the start of the line or after a blank or tie; what it
    lists for each such line is the empty text, never the line. *)
Theorem checkrefcase_lists_blanks fstr :
  checkrefcase fstr =
  reportlines (map (fun _ => []) (filter refcase_line (split_nl fstr)))
    NeedCapital.
Proof.
  unfold checkrefcase.
  rewrite findall_group_dead.
  - rewrite findall_lines by reflexivity.
    rewrite (filter_lines _ _ _ refcase_hit). reflexivity.
  - intros cur d cs M. apply refcase_no_group in M. subst cs. reflexivity.
Qed.

(** ** Substitution line by line *)

Lemma join_nl_cons l ls :
  join_nl (l :: ls) =
  l ++ match ls with
       | [] => []
       | _ => NL :: join_nl ls
       end.
Proof. destruct ls; cbn [join_nl]; [rewrite app_nil_r|]; reflexivity. Qed.

Lemma split_nl_nonempty s : split_nl s <> [].
Proof.
  destruct s as [|a s]; cbn [split_nl]; [discriminate|].
  destruct (Ascii.eqb a NL); [discriminate|].
  destruct (split_nl s); discriminate.
Qed.

Lemma join_split s : join_nl (split_nl s) = s.
Proof.
  induction s as [|a s IH]; [reflexivity|].
  pose proof (split_nl_nonempty s) as Hne.
  cbn [split_nl]. destruct (Ascii.eqb a NL) eqn:E.
  - apply Ascii.eqb_eq in E. subst a. rewrite join_nl_cons. cbn [app].
    destruct (split_nl s) eqn:Es; [congruence|].
    rewrite IH. reflexivity.
  - destruct (split_nl s) as [|l ls] eqn:Es; [congruence|].
    rewrite join_nl_cons in *. cbn [app]. rewrite IH. reflexivity.
Qed.

Lemma split_nl_line l : count_nl l = 0 -> split_nl l = [l].
Proof.
  induction l as [|a l IH]; [reflexivity|].
  intros H. apply count_nl_zero_cons in H as [Ha Hl].
  cbn [split_nl]. rewrite (proj2 (Ascii.eqb_neq a NL) Ha), (IH Hl).
  reflexivity.
Qed.

Lemma split_nl_app l s :
  count_nl l = 0 -> split_nl (l ++ NL :: s) = l :: split_nl s.
Proof.
  induction l as [|a l IH]; intros H.
  - cbn [app split_nl]. rewrite Ascii.eqb_refl. reflexivity.
  - apply count_nl_zero_cons in H as [Ha Hl].
    cbn [app split_nl]. rewrite (proj2 (Ascii.eqb_neq a NL) Ha), (IH Hl).
    reflexivity.
Qed.

Lemma split_join ls :
  ls <> [] -> Forall (fun l => count_nl l = 0) ls ->
  split_nl (join_nl ls) = ls.
Proof.
  induction ls as [|l ls IH]; [congruence|].
  intros _ F. inversion F as [|? ? Hl Hls]; subst.
  destruct ls as [|l2 ls].
  - cbn [join_nl]. apply split_nl_line, Hl.
  - change (join_nl (l :: l2 :: ls)) with (l ++ NL :: join_nl (l2 :: ls)).
    rewrite (split_nl_app _ _ Hl), IH; [reflexivity|discriminate|exact Hls].
Qed.

Section LineSub.

Variable R : regex.
Variable tmpl : list titem.
Variable g : text -> text.
Hypothesis HR : line_pattern R = true.
Hypothesis Hg : forall pre l rest,
  line_start pre = true -> count_nl l = 0 -> line_end rest = true ->
  match match_at R (Cursor pre (l ++ rest)) with
  | Some (_, cs) => expand tmpl cs = g l
  | None => g l = l
  end.

Lemma render_rest_of_line : forall l pre0 rest adj,
  count_nl l = 0 -> line_start pre0 = false -> line_end rest = true ->
  flat_map (render tmpl) (scan R pre0 (l ++ rest) 0 adj) =
  l ++ match rest with
       | [] => []
       | _ :: s' =>
           NL :: flat_map (render tmpl) (scan R (NL :: rev l ++ pre0) s' 0 false)
       end.
Proof.
  induction l as [|a l IH]; intros pre0 rest adj Hl Hp Hr.
  - cbn [app rev]. destruct rest as [|b s'].
    + rewrite scan_end by (apply (inside_no_match R HR); exact Hp).
      reflexivity.
    + cbn [line_end] in Hr. apply Ascii.eqb_eq in Hr. subst b.
      rewrite scan_keep by (apply (inside_no_match R HR); exact Hp).
      reflexivity.
  - apply count_nl_zero_cons in Hl as [Ha Hl]. cbn [app].
    rewrite scan_keep by (apply (inside_no_match R HR); exact Hp).
    cbn [flat_map render app].
    rewrite (IH (a :: pre0) rest false Hl); [|cbn [line_start]|exact Hr].
    + cbn [rev]. rewrite <- !app_assoc. reflexivity.
    + apply Ascii.eqb_neq. exact Ha.
Qed.

Lemma sub_lines_from : forall n s pre,
  length s <= n -> line_start pre = true ->
  flat_map (render tmpl) (scan R pre s 0 false) =
  join_nl (map g (split_nl s)).
Proof.
  induction n as [|n IH]; intros s pre Hlen Hp.
  - destruct s; [|cbn in Hlen; lia].
    cbn [split_nl map join_nl].
    pose proof (Hg pre [] [] Hp eq_refl eq_refl) as G. cbn [app] in G.
    destruct (match_at R (Cursor pre [])) as [[d cs]|] eqn:E.
    + pose proof (line_match_whole R HR pre [] [] d cs Hp eq_refl eq_refl E)
        as ->.
      cbn [rev app] in E. rewrite (scan_empty_end R pre cs) by exact E.
      cbn [flat_map render]. rewrite app_nil_r. exact G.
    + rewrite scan_end by exact E. rewrite G. reflexivity.
  - destruct (split_nl_first s) as (l & rest & -> & Hl & Hcase).
    assert (Hr : line_end rest = true).
    { destruct Hcase as [[-> _]|(s' & -> & _)]; cbn [line_end];
        [reflexivity|apply Ascii.eqb_refl]. }
    assert (Hnext : forall pre1,
      match rest with
      | [] => []
      | _ :: s' => NL :: flat_map (render tmpl) (scan R (NL :: pre1) s' 0 false)
      end =
      match map g (tl (split_nl (l ++ rest))) with
      | [] => []
      | _ => NL :: join_nl (map g (tl (split_nl (l ++ rest))))
      end).
    { intros pre1. destruct Hcase as [[-> Hs]|(s' & -> & Hs)]; rewrite Hs.
      - reflexivity.
      - cbn [tl]. rewrite (IH s' (NL :: pre1)).
        + pose proof (split_nl_nonempty s') as Hne.
          destruct (split_nl s') eqn:Es; [congruence|].
          reflexivity.
        + rewrite length_app in Hlen. cbn [length] in Hlen. lia.
        + apply Ascii.eqb_refl. }
    assert (Hsplit : split_nl (l ++ rest) = l :: tl (split_nl (l ++ rest))).
    { destruct Hcase as [[_ ->]|(s' & _ & ->)]; reflexivity. }
    rewrite Hsplit at 1. cbn [map]. rewrite join_nl_cons.
    set (tails := match map g (tl (split_nl (l ++ rest))) with
                  | [] => []
                  | _ => NL :: join_nl (map g (tl (split_nl (l ++ rest))))
                  end) in *.
    clearbody tails. clear Hsplit Hcase.
    pose proof (Hg pre l rest Hp Hl Hr) as G.
    destruct (match_at R (Cursor pre (l ++ rest))) as [[d cs]|] eqn:E.
    + pose proof (line_match_whole R HR pre l rest d cs Hp Hl Hr E) as ->.
      destruct l as [|a l].
      * cbn [rev app] in *. destruct rest as [|b s'].
        -- rewrite (scan_empty_end R pre cs) by exact E.
           cbn [flat_map render]. rewrite G, <- (Hnext pre). reflexivity.
        -- cbn [line_end] in Hr. apply Ascii.eqb_eq in Hr. subst b.
           rewrite (scan_empty R pre NL s' cs) by exact E.
           cbn [flat_map render app]. rewrite G, <- (Hnext pre). reflexivity.
      * rewrite (scan_hit R pre (a :: l) rest cs) by (discriminate || exact E).
        cbn [flat_map render app]. rewrite G. f_equal.
        rewrite <- (Hnext (rev [] ++ rev (a :: l) ++ pre)).
        apply (render_rest_of_line [] (rev (a :: l) ++ pre) rest true eq_refl);
          [|exact Hr].
        apply line_start_inside; [exact Hl|discriminate].
    + rewrite G. destruct l as [|a l].
      * cbn [app] in *. destruct rest as [|b s'].
        -- rewrite scan_end by exact E. rewrite <- (Hnext pre). reflexivity.
        -- cbn [line_end] in Hr. apply Ascii.eqb_eq in Hr. subst b.
           rewrite scan_keep by exact E. cbn [flat_map render app].
           rewrite <- (Hnext pre). reflexivity.
      * apply count_nl_zero_cons in Hl as [Ha Hl]. cbn [app] in *.
        rewrite scan_keep by exact E. cbn [flat_map render app]. f_equal.
        rewrite <- (Hnext (rev l ++ a :: pre)).
        apply (render_rest_of_line l (a :: pre) rest false Hl); [|exact Hr].
        cbn [line_start]. apply Ascii.eqb_neq. exact Ha.
Qed.

(** A substitution with a line pattern rewrites the text line by line. *)
Lemma sub_lines s : re_sub R tmpl s = join_nl (map g (split_nl s)).
Proof.
  unfold re_sub. apply (sub_lines_from (length s)); [lia|reflexivity].
Qed.

End LineSub.

(** ** The comment substitutions, line by line *)

Lemma dot_not_nl a : a <> NL -> dot a = true.
Proof.
  intros H. unfold dot, except. apply negb_true_iff, Ascii.eqb_neq. congruence.
Qed.

Lemma comment_only_iff l :
  comment_only l = true <->
  exists u w, l = u ++ "%"%char :: w /\ forallb blank u = true.
Proof.
  induction l as [|a l IH]; cbn [comment_only].
  - split; [discriminate|]. intros (u & w & H & _). destruct u; discriminate.
  - destruct (blank a) eqn:Eb.
    + rewrite IH. split.
      * intros (u & w & -> & Hu). exists (a :: u), w. cbn [forallb app].
        rewrite Eb, Hu. auto.
      * intros (u & w & H & Hu). destruct u as [|b u].
        -- cbn [app] in H. injection H as -> _. discriminate.
        -- cbn [app forallb] in H, Hu. injection H as <- ->.
           apply andb_true_iff in Hu as [_ Hu]. eauto.
    + rewrite Ascii.eqb_eq. split.
      * intros ->. exists [], l. auto.
      * intros (u & w & H & Hu). destruct u as [|b u].
        -- cbn [app] in H. injection H as -> _. reflexivity.
        -- cbn [app forallb] in H, Hu. injection H as <- ->.
           apply andb_true_iff in Hu as [Hb _]. congruence.
Qed.

Lemma comment_line_hit l :
  count_nl l = 0 -> line_hit comment_line_re l = comment_only l.
Proof.
  intros Hl. apply bool_eq_iff.
  rewrite line_hit_iff, comment_only_iff. unfold comment_line_re. split.
  - intros (d & cs & M).
    apply inv_seq in M as (c1 & cs1 & M0 & M).
    apply inv_bol in M0 as (-> & -> & _).
    apply inv_seq in M as (c2 & cs2 & M1 & M).
    apply inv_star in M1 as (u & r1 & -> & Hu & -> & ->).
    apply inv_seq in M as (c3 & cs3 & M2 & _).
    apply inv_chr in M2 as (b & r2 & -> & Hb & _).
    apply only_eq in Hb. subst b. eauto.
  - intros (u & w & -> & Hu).
    apply count_nl_zero_app in Hl as [_ Hl].
    apply count_nl_zero_cons in Hl as [_ Hw].
    do 2 eexists. eapply M_Seq; [apply M_Bol; reflexivity|].
    eapply M_Seq; [apply (M_Star true blank [] u), Hu|].
    eapply M_Seq; [apply M_Chr, only_refl|].
    apply rest_of_line, Hw.
Qed.

(** The end ".*$" of a line pattern takes the rest of the line. *)
Lemma tail_to_eol : forall w p rest cs,
  count_nl w = 0 -> line_end rest = true ->
  rmatch (many dot ;; Eol) (Cursor p (w ++ rest)) cs accept =
  Some (Cursor (rev w ++ p) rest, cs).
Proof.
  unfold many. cbn [rmatch before after].
  induction w as [|a w IH]; intros p rest cs Hw Hr.
  - cbn [app rev]. destruct rest as [|b s'].
    + reflexivity.
    + cbn [line_end] in Hr. apply Ascii.eqb_eq in Hr. subst b. reflexivity.
  - apply count_nl_zero_cons in Hw as [Ha Hw].
    cbn [app star_greedy]. rewrite (dot_not_nl a Ha).
    rewrite (IH (a :: p) rest cs Hw Hr). cbn [orelse rev].
    rewrite <- app_assoc. reflexivity.
Qed.

(** The greedy start "(.*[^\\\n])" of the second comment pattern stops
    before the last percent sign that it can. *)
Lemma tail_greedy s0 pre rest : forall l u,
  s0 = u ++ l ++ rest -> count_nl l = 0 -> line_end rest = true ->
  star_greedy dot (rev u ++ pre) (l ++ rest) []
    (fun c2 cs2 =>
       rmatch (Chr (fun a => except "\" a && except NL a)) c2 cs2
         (fun c' cs' =>
            rmatch (Chr (only "%") ;; many dot ;; Eol) c'
                   ((1, span (Cursor pre s0) c') :: cs') accept)) =
  match cut_tail l with
  | Some x => Some (Cursor (rev (u ++ l) ++ pre) rest, [(1, u ++ x)])
  | None => None
  end.
Proof.
  induction l as [|a l IH]; intros u Hs Hl Hr.
  - cbn [app cut_tail]. destruct rest as [|b s'].
    + reflexivity.
    + cbn [line_end] in Hr. apply Ascii.eqb_eq in Hr. subst b. reflexivity.
  - apply count_nl_zero_cons in Hl as [Ha Hl].
    cbn [app star_greedy]. rewrite (dot_not_nl a Ha).
    assert (Hs' : s0 = (u ++ [a]) ++ l ++ rest)
      by (rewrite <- app_assoc; exact Hs).
    pose proof (IH (u ++ [a]) Hs' Hl Hr) as G.
    rewrite rev_app_distr in G. cbn [rev app] in G. rewrite G. clear G.
    cbn [cut_tail]. destruct (cut_tail l) as [x|] eqn:Ec.
    + cbn [orelse]. rewrite <- !app_assoc. reflexivity.
    + cbn [orelse rmatch after before].
      assert (Hna : except NL a = true) by (apply (dot_not_nl a Ha)).
      rewrite Hna, andb_true_r.
      destruct l as [|p l].
      * destruct (except "\" a); [|reflexivity].
        cbn [app]. destruct rest as [|b s']; [reflexivity|].
        cbn [line_end] in Hr. apply Ascii.eqb_eq in Hr. subst b. reflexivity.
      * cbn [app]. rewrite andb_comm.
        destruct (except "\" a); [|reflexivity].
        cbn [andb]. destruct (only "%" p) eqn:Ep; [|reflexivity].
        apply count_nl_zero_cons in Hl as [_ Hl].
        change (rmatch (Seq (many dot) Eol) (Cursor (p :: a :: rev u ++ pre) (l ++ rest))
                  [(1, span (Cursor pre s0)
                         (Cursor (a :: rev u ++ pre) (p :: l ++ rest)))] accept =
                Some (Cursor (rev (u ++ a :: p :: l) ++ pre) rest, [(1, u ++ [a])])).
        rewrite (tail_to_eol l _ rest _ Hl Hr).
        assert (Hsp : span (Cursor pre s0)
                        (Cursor (a :: rev u ++ pre) (p :: l ++ rest)) = u ++ [a]).
        { apply advance_span. rewrite Hs'. 
          pose proof (advance_cursor pre (u ++ [a]) ((p :: l) ++ rest)) as A.
          rewrite rev_app_distr in A. exact A. }
        rewrite Hsp. f_equal. f_equal. f_equal.
        rewrite !rev_app_distr. cbn [rev]. rewrite <- !app_assoc. reflexivity.
Qed.

Lemma comment_tail_at pre l rest :
  line_start pre = true -> count_nl l = 0 -> line_end rest = true ->
  match_at comment_tail_re (Cursor pre (l ++ rest)) =
  match cut_tail l with
  | Some x => Some (Cursor (rev l ++ pre) rest, [(1, x)])
  | None => None
  end.
Proof.
  intros Hp Hl Hr. unfold match_at, comment_tail_re.
  cbn [rmatch many before after].
  replace (at_bol (Cursor pre (l ++ rest))) with true by (symmetry; exact Hp).
  exact (tail_greedy (l ++ rest) pre rest l [] eq_refl Hl Hr).
Qed.

Lemma cut_tail_nlfree : forall l x,
  cut_tail l = Some x -> exists w, l = x ++ "%"%char :: w.
Proof.
  induction l as [|b l IH]; intros x; cbn [cut_tail]; [discriminate|].
  destruct (cut_tail l) as [y|] eqn:Ec.
  - intros E. injection E as <-. destruct (IH y eq_refl) as [w ->].
    exists w. reflexivity.
  - destruct l as [|p l]; [discriminate|].
    destruct (only "%" p) eqn:Ep; [|discriminate].
    destruct (except "\" b); [|discriminate].
    intros E. injection E as <-. apply only_eq in Ep. subst p.
    exists l. reflexivity.
Qed.

Lemma strip_line_nlfree l : count_nl l = 0 -> count_nl (strip_line l) = 0.
Proof.
  intros Hl. unfold strip_line. destruct (comment_only l); [reflexivity|].
  destruct (cut_tail l) as [x|] eqn:Ec; [|exact Hl].
  apply cut_tail_nlfree in Ec as [w ->].
  apply count_nl_zero_app in Hl as [Hx _]. exact Hx.
Qed.

(** X7: the two comment substitutions of [stripcomments] work line by
    line: a line whose first character after blanks is a percent sign
    becomes empty and keeps its line break; any other line is cut before
    its last percent sign that follows a character other than a
    backslash, and is left as it is when it has none. *)
Theorem strip_comment_marks_by_line fstr :
  strip_comment_marks fstr = join_nl (map strip_line (split_nl fstr)).
Proof.
  unfold strip_comment_marks.
  rewrite (sub_lines comment_line_re []
             (fun l => if comment_only l then [] else l) eq_refl).
  - rewrite (sub_lines comment_tail_re [TGrp 1]
               (fun l => match cut_tail l with Some x => x | None => l end)
               eq_refl).
    + rewrite split_join.
      * rewrite map_map. f_equal. apply map_ext. intros l.
        unfold strip_line. destruct (comment_only l); reflexivity.
      * pose proof (split_nl_nonempty fstr) as Hne.
        destruct (split_nl fstr); [congruence|discriminate].
      * apply Forall_map. eapply Forall_impl; [|apply split_nl_nlfree].
        intros l Hl. cbn beta. destruct (comment_only l); [reflexivity|exact Hl].
    + intros pre l rest Hp Hl Hr. rewrite (comment_tail_at pre l rest Hp Hl Hr).
      destruct (cut_tail l) as [x|]; [|reflexivity].
      cbn. apply app_nil_r.
  - intros pre l rest Hp Hl Hr.
    rewrite <- (comment_line_hit l Hl).
    rewrite (line_hit_at comment_line_re eq_refl pre l rest Hp Hl Hr).
    destruct (match_at comment_line_re (Cursor pre (l ++ rest))) as [[d cs]|];
      reflexivity.
Qed.

(** ** Texts without the character that a pattern needs *)

Lemma sub_without (c : ascii) r tmpl :
  (forall p rest cs d cs',
      matches r (Cursor p rest) cs d cs' -> In c rest) ->
  forall s, ~ In c s -> re_sub r tmpl s = s.
Proof.
  intros Hneed s. unfold re_sub.
  generalize (@nil ascii) as pre, false as adj. revert s.
  induction s as [|a s IH]; intros pre adj Hs.
  - rewrite scan_end; [reflexivity|].
    destruct (match_at r (Cursor pre [])) as [[d cs]|] eqn:E; [|reflexivity].
    apply match_at_sound, Hneed in E. contradiction.
  - rewrite scan_keep.
    + cbn [flat_map render app]. f_equal. apply IH.
      intros H. apply Hs. right. exact H.
    + destruct (match_at r (Cursor pre (a :: s))) as [[d cs]|] eqn:E;
        [|reflexivity].
      apply match_at_sound, Hneed in E. contradiction.
Qed.

Lemma lit_needs s c t p rest cs d cs' :
  matches (lit_text (c :: s) ;; t) (Cursor p rest) cs d cs' -> In c rest.
Proof.
  intros M. apply inv_seq in M as (c1 & cs1 & M & _).
  apply inv_lit in M as (r' & -> & _). left. reflexivity.
Qed.

Lemma eqn_re_needs p rest cs d cs' :
  matches eqn_re (Cursor p rest) cs d cs' -> In "\"%char rest.
Proof.
  unfold eqn_re, eqn_open. intros M.
  apply inv_seq in M as (c1 & cs1 & M & _).
  apply inv_grp in M as (cs2 & M & _).
  apply inv_alt in M as [M|M].
  - exact (lit_needs _ _ _ _ _ _ _ _ M).
  - apply inv_seq in M as (c2 & cs3 & M & _).
    apply inv_chr in M as (a & r' & -> & Ha & _).
    apply only_eq in Ha. subst a. left. reflexivity.
Qed.

Lemma dollar_needs (x : regex) p rest cs d cs' :
  matches (Grp 1 (Chr (except "\")) ;; lit_text ("$"%char :: nil) ;; x)
          (Cursor p rest) cs d cs' \/
  matches (Grp 1 (Chr (except "\")) ;; lit "$$" ;; x) (Cursor p rest) cs d cs' ->
  In "$"%char rest.
Proof.
  intros [M|M];
    apply inv_seq in M as (c1 & cs1 & M0 & M);
    apply inv_grp in M0 as (cs2 & M0 & _);
    apply inv_chr in M0 as (a & r' & -> & _ & -> & _);
    apply inv_seq in M as (c2 & cs3 & M & _);
    apply inv_lit in M as (r2 & -> & _); right; left; reflexivity.
Qed.

Lemma percent_needs_line p rest cs d cs' :
  matches comment_line_re (Cursor p rest) cs d cs' -> In "%"%char rest.
Proof.
  unfold comment_line_re. intros M.
  apply inv_seq in M as (c1 & cs1 & M0 & M).
  apply inv_bol in M0 as (-> & -> & _).
  apply inv_seq in M as (c2 & cs2 & M1 & M).
  apply inv_star in M1 as (u & r1 & -> & _ & -> & ->).
  apply inv_seq in M as (c3 & cs3 & M2 & _).
  apply inv_chr in M2 as (b & r2 & -> & Hb & _).
  apply only_eq in Hb. subst b. apply in_or_app. right. left. reflexivity.
Qed.

Lemma percent_needs_tail p rest cs d cs' :
  matches comment_tail_re (Cursor p rest) cs d cs' -> In "%"%char rest.
Proof.
  unfold comment_tail_re. intros M.
  apply inv_seq in M as (c1 & cs1 & M0 & M).
  apply inv_bol in M0 as (-> & -> & _).
  apply inv_seq in M as (c2 & cs2 & M1 & M).
  apply inv_grp in M1 as (cs3 & M1 & _).
  apply inv_seq in M1 as (c3 & cs4 & M1 & M2).
  apply inv_star in M1 as (u & r1 & -> & _ & -> & ->).
  apply inv_chr in M2 as (b & r2 & -> & _ & -> & _).
  apply inv_seq in M as (c4 & cs5 & M3 & _).
  apply inv_chr in M3 as (b' & r3 & -> & Hb & _).
  apply only_eq in Hb. subst b'.
  apply in_or_app. right. right. left. reflexivity.
Qed.

(** X8: a normalising step changes a text only if the text holds the
    character its patterns start from: a percent sign for the comment
    substitutions, a backslash for the verbatim and listing blocks and
    for [stripeqns], a dollar sign for [stripinline]. *)
Theorem unmarked_text_unchanged t :
  (In "%"%char t \/ strip_comment_marks t = t) /\
  (In "\"%char t \/ (collapse_blocks t = t /\ stripeqns t = t)) /\
  (In "$"%char t \/ stripinline t = t).
Proof.
  split; [|split].
  - destruct (in_dec ascii_dec "%"%char t) as [H|H]; [left; exact H|right].
    unfold strip_comment_marks.
    rewrite (sub_without _ _ _ percent_needs_line t H).
    apply (sub_without _ _ _ percent_needs_tail t H).
  - destruct (in_dec ascii_dec "\"%char t) as [H|H]; [left; exact H|right].
    split.
    + unfold collapse_blocks.
      rewrite (sub_without "\"%char verbatim_re) by
        (exact H || (intros p rest cs d cs' M; exact (lit_needs _ _ _ _ _ _ _ _ M))).
      apply (sub_without "\"%char lstlisting_re); [|exact H].
      intros p rest cs d cs' M. exact (lit_needs _ _ _ _ _ _ _ _ M).
    + apply (sub_without _ _ _ eqn_re_needs t H).
  - destruct (in_dec ascii_dec "$"%char t) as [H|H]; [left; exact H|right].
    unfold stripinline.
    rewrite (sub_without "$"%char display_dollar_re xxx_tmpl) by
      (exact H || (intros; eapply dollar_needs; right; eassumption)).
    apply (sub_without "$"%char inline_dollar_re xxx_tmpl);
      [|exact H].
    intros; eapply dollar_needs; left; eassumption.
Qed.

(** ** [checkrep] on the words of the text *)

Lemma split_aux_space cur : forall u b v,
  space b = true ->
  split_aux cur (u ++ b :: v) = split_aux cur u ++ split v.
Proof.
  intros u. revert cur. induction u as [|a u IH]; intros cur b v Hb.
  - cbn [app split_aux]. rewrite Hb. destruct cur; reflexivity.
  - cbn [app split_aux]. destruct (space a).
    + destruct cur; rewrite (IH [] b v Hb); reflexivity.
    + apply IH, Hb.
Qed.

Lemma split_space b u v :
  space b = true -> split (u ++ b :: v) = split u ++ split v.
Proof. apply split_aux_space. Qed.

Lemma split_space_first b v : space b = true -> split (b :: v) = split v.
Proof. intros Hb. apply (split_space b [] v Hb). Qed.

(** Splitting the lines into words gives the words of the text. *)
Lemma split_splitlines_aux : forall s cur,
  flat_map split (splitlines_aux cur s) = split (rev cur ++ s).
Proof.
  induction s as [|a s IH]; intros cur.
  - cbn [splitlines_aux]. rewrite app_nil_r. destruct cur as [|c cur].
    + reflexivity.
    + cbn [flat_map]. apply app_nil_r.
  - cbn [splitlines_aux]. destruct (Ascii.eqb a NL) eqn:En.
    + apply Ascii.eqb_eq in En. subst a. cbn [flat_map].
      rewrite (IH []). rewrite split_space by reflexivity. reflexivity.
    + destruct (Ascii.eqb a CR) eqn:Ec.
      * apply Ascii.eqb_eq in Ec. subst a.
        rewrite split_space by reflexivity.
        destruct s as [|b s].
        -- cbn [flat_map]. reflexivity.
        -- destruct (Ascii.eqb b NL) eqn:Eb.
           ++ apply Ascii.eqb_eq in Eb. subst b. cbn [flat_map].
              rewrite split_space_first by reflexivity. f_equal.
              pose proof (IH []) as G.
              change (splitlines_aux [] (NL :: s))
                with ([] :: splitlines_aux [] s) in G.
              cbn [flat_map rev app] in G.
              rewrite split_space_first in G by reflexivity. exact G.
           ++ cbn [flat_map]. f_equal. apply (IH []).
      * rewrite IH. cbn [rev]. rewrite <- app_assoc. reflexivity.
Qed.

Lemma split_splitlines s : flat_map split (splitlines s) = split s.
Proof. apply (split_splitlines_aux s []). Qed.

Lemma last_cons : forall (ws : list text) w lw,
  last (w :: ws) lw = last ws w.
Proof.
  induction ws as [|v ws IH]; intros w lw; [reflexivity|].
  change (last (w :: v :: ws) lw) with (last (v :: ws) lw).
  rewrite !IH. reflexivity.
Qed.

Lemma reps_app : forall ws1 ws2 lw,
  reps lw (ws1 ++ ws2) = reps lw ws1 + reps (last ws1 lw) ws2.
Proof.
  induction ws1 as [|w ws1 IH]; intros ws2 lw; [reflexivity|].
  cbn [app reps]. rewrite IH, last_cons. lia.
Qed.

Lemma rep_words_count l : forall ws iw lw,
  length (fst (rep_words l ws iw lw)) = reps lw ws /\
  snd (rep_words l ws iw lw) = last ws lw.
Proof.
  induction ws as [|w ws IH]; intros iw lw; [split; reflexivity|].
  cbn [rep_words reps]. specialize (IH (S iw) w).
  destruct (rep_words l ws (S iw) w) as [xs lw'] eqn:E.
  cbn [fst snd] in *. destruct IH as [IH1 IH2]. split.
  - rewrite length_app, <- IH1. destruct (rep_hit w lw); [|reflexivity].
    destruct iw; reflexivity.
  - rewrite IH2, last_cons. reflexivity.
Qed.

Lemma rep_lines_count : forall ls lw,
  length (rep_lines ls lw) = reps lw (flat_map split ls).
Proof.
  induction ls as [|l ls IH]; intros lw; [reflexivity|].
  cbn [rep_lines flat_map].
  destruct (rep_words_count l (split l) 0 lw) as [H1 H2].
  destruct (rep_words l (split l) 0 lw) as [x lw'].
  cbn [fst snd] in *. subst lw'.
  rewrite length_app, IH, reps_app, H1. reflexivity.
Qed.

(** X9: [checkrep] reads the text as one sequence of words, whatever the
    line breaks: the number of issues it lists is the number of words
    that equal the word before them and are not excluded, and it
    reports nothing exactly when there is none. *)
Theorem checkrep_counts_repeats fstr :
  length (checkrep_issues fstr) = reps [] (split fstr) /\
  (checkrep fstr = [] <-> reps [] (split fstr) = 0).
Proof.
  assert (H : length (checkrep_issues fstr) = reps [] (split fstr)).
  { unfold checkrep_issues. rewrite rep_lines_count, split_splitlines.
    reflexivity. }
  split; [exact H|].
  rewrite <- H. unfold checkrep.
  destruct (checkrep_issues fstr) as [|x xs]; cbn; split;
    congruence || discriminate || auto.
Qed.

(** ** What [checkbib] prints *)

Lemma search_from_some r : forall rest pre c d cs,
  search_from r pre rest = Some (c, d, cs) ->
  exists u v, rest = u ++ v /\ c = Cursor (rev u ++ pre) v /\
              match_at r c = Some (d, cs).
Proof.
  induction rest as [|a rest IH]; intros pre c d cs; cbn [search_from].
  - destruct (match_at r (Cursor pre [])) as [[d' cs']|] eqn:E; [|discriminate].
    intros H. injection H as <- <- <-. exists [], []. auto.
  - destruct (match_at r (Cursor pre (a :: rest))) as [[d' cs']|] eqn:E.
    + intros H. injection H as <- <- <-. exists [], (a :: rest). auto.
    + intros H. apply IH in H as (u & v & -> & -> & M).
      exists (a :: u), v. cbn [rev app]. rewrite <- app_assoc. auto.
Qed.

Lemma bibdecl_shape p r cs d cs' :
  matches bibdecl_re (Cursor p r) cs d cs' ->
  exists ds post,
    forallb digit ds = true /\
    r = T "{thebibliography}{" ++ ds ++ T "}" ++ post /\
    span (Cursor p r) d = T "{thebibliography}{" ++ ds ++ T "}".
Proof.
  unfold bibdecl_re. intros M.
  pose proof (matches_advance _ _ _ _ _ M) as [w A].
  apply inv_seq in M as (c1 & cs1 & M0 & M).
  apply inv_lit in M0 as (r1 & -> & -> & ->).
  apply inv_seq in M as (c2 & cs2 & M1 & M).
  apply inv_star in M1 as (ds & r2 & -> & Hd & -> & ->).
  apply inv_lit in M as (r3 & -> & -> & ->).
  exists ds, r3. split; [exact Hd|]. split; [reflexivity|].
  apply advance_span. split; cbn [before after].
  - rewrite !rev_app_distr, <- !app_assoc. reflexivity.
  - rewrite <- !app_assoc. reflexivity.
Qed.

Lemma bibdecl_intro p ds post :
  forallb digit ds = true ->
  match_at bibdecl_re
    (Cursor p (T "{thebibliography}{" ++ ds ++ T "}" ++ post)) <> None.
Proof.
  intros Hd. apply match_at_some_iff. unfold bibdecl_re.
  do 2 eexists. eapply M_Seq; [apply matches_lit_text_intro|].
  eapply M_Seq; [apply (M_Star true digit), Hd|].
  apply matches_lit_text_intro.
Qed.

(** X10: when [checkbib] prints, the number it gives is the number of
    bibitem commands, which is not zero, and no declaration in the text
    has the number of digits looked for; the declaration it shows is one
    that stands in the text, with digits only between its braces and a
    number of them other than the one looked for; it says that the
    bibliography is missing only when the text holds no declaration with
    digits, or none, between its braces. *)
Theorem checkbib_report nd_of fstr nb decl :
  checkbib nd_of fstr = [BibProblem nb decl] ->
  nb = length (re_findall bibitem_re fstr) /\ 0 < nb /\
  ~ declares_width (nd_of nb) fstr /\
  match decl with
  | Some d =>
      exists pre ds post,
        forallb digit ds = true /\ length ds <> nd_of nb /\
        d = T "{thebibliography}{" ++ ds ++ T "}" /\
        fstr = pre ++ d ++ post
  | None => forall nd, ~ declares_width nd fstr
  end.
Proof.
  unfold checkbib.
  destruct (length (re_findall bibitem_re fstr)) as [|n] eqn:En;
    [discriminate|].
  change (0 <? S n) with true. cbv iota.
  destruct (found (re_search (bibwidth_re (nd_of (S n))) fstr)) eqn:Ef;
    cbn [negb]; [discriminate|].
  intros H. injection H as <- <-.
  assert (Hw : ~ declares_width (nd_of (S n)) fstr).
  { intros Hd. apply bibwidth_found in Hd. congruence. }
  split; [reflexivity|]. split; [lia|]. split; [exact Hw|].
  unfold re_search.
  destruct (search_from bibdecl_re [] fstr) as [[[c d] cs]|] eqn:Es;
    cbn [option_map].
  - apply search_from_some in Es as (u & v & -> & -> & M).
    apply match_at_sound, bibdecl_shape in M as (ds & post & Hd & -> & Hsp).
    exists u, ds, post. split; [exact Hd|]. split.
    + intros Hl. apply Hw. exists u, ds, post. auto.
    + cbn [group0]. rewrite Hsp, <- !app_assoc. auto.
  - intros nd (pre & ds & post & Hl & Hd & ->).
    assert (F : found (search_from bibdecl_re [] 
                 (pre ++ T "{thebibliography}{" ++ ds ++ T "}" ++ post)) = true).
    { apply search_from_found. do 2 eexists. split; [reflexivity|].
      apply bibdecl_intro, Hd. }
    rewrite Es in F. discriminate.
Qed.

Lemma checkbib_report_witness :
  checkbib digits (T "\bibitem{a} A. \begin{thebibliography}{12}") =
    [BibProblem 1 (Some (T "{thebibliography}{12}"))] /\
  exists pre ds post,
    forallb digit ds = true /\ length ds <> digits 1 /\
    T "{thebibliography}{12}" = T "{thebibliography}{" ++ ds ++ T "}" /\
    T "\bibitem{a} A. \begin{thebibliography}{12}" =
      pre ++ T "{thebibliography}{12}" ++ post.
Proof.
  assert (E : checkbib digits (T "\bibitem{a} A. \begin{thebibliography}{12}") =
              [BibProblem 1 (Some (T "{thebibliography}{12}"))])
    by (vm_compute; reflexivity).
  split; [exact E|].
  exact (proj2 (proj2 (proj2 (checkbib_report digits _ _ _ E)))).
Defined.

(** ** How a run ends *)

Lemma reportissues_left x m : forallb left_by_check (reportissues x m) = true.
Proof. destruct x; reflexivity. Qed.

Lemma call_left nd_of c v : forallb left_by_check (call nd_of c v) = true.
Proof.
  unfold call. cbn [forallb left_by_check andb].
  destruct c;
    lazymatch goal with
    | |- forallb _ [] = true => reflexivity
    | |- forallb _ (checkmissingbackslash _) = true =>
        unfold checkmissingbackslash;
        rewrite forallb_app, !reportissues_left; reflexivity
    | |- forallb _ (checkbib _ _) = true =>
        unfold checkbib; destruct (0 <? _); [|reflexivity];
        destruct (negb _); reflexivity
    | |- forallb _ (?f _) = true => unfold f; apply reportissues_left
    end.
Qed.

Lemma check_file_left nd_of raw :
  forallb left_by_check (check_file nd_of raw) = true.
Proof.
  unfold check_file.
  generalize (stripcomments raw) as fstr. intros fstr.
  generalize (stripinline (stripeqns fstr)) as fstr_nomath.
  generalize (stripeqns fstr) as fstr_noeqns.
  intros fstr_noeqns fstr_nomath. cbv zeta.
  destruct (found (re_search apsre fstr)),
           (found (re_search natre fstr)),
           (found (re_search foilsre fstr));
    cbn [negb orb];
    repeat rewrite forallb_app; repeat rewrite call_left; reflexivity.
Qed.

Lemma file_events_kind read_file nd_of e : forall pre,
  In e (flat_map (file_events read_file nd_of) pre) ->
  e <> Done /\ e <> Usage /\ e <> Banner.
Proof.
  induction pre as [|p pre IH]; [contradiction|].
  cbn [flat_map]. intros H. apply in_app_or in H as [H|H]; [|auto].
  unfold file_events in H. destruct (read_file p) as [fstr|]; [|contradiction].
  destruct H as [<-|H]; [repeat split; discriminate|].
  pose proof (check_file_left nd_of fstr) as F.
  rewrite forallb_forall in F. apply F in H.
  destruct e; try discriminate; repeat split; discriminate.
Qed.

Lemma first_not_good read_file : forall args,
  forallb (good read_file) args = true \/
  exists pre a post,
    args = pre ++ a :: post /\ forallb (good read_file) pre = true /\
    good read_file a = false.
Proof.
  induction args as [|a args IH]; [left; reflexivity|].
  destruct (good read_file a) eqn:Ea.
  - destruct IH as [IH|(pre & b & post & -> & Hp & Hb)].
    + left. cbn [forallb]. rewrite Ea, IH. reflexivity.
    + right. exists (a :: pre), b, post. cbn [forallb app].
      rewrite Ea, Hp. auto.
  - right. exists [], a, args. auto.
Qed.

Lemma first_not_good_unique read_file : forall pre a post pre' a' post',
  pre ++ a :: post = pre' ++ a' :: post' ->
  forallb (good read_file) pre = true -> good read_file a = false ->
  forallb (good read_file) pre' = true -> good read_file a' = false ->
  pre = pre' /\ a = a' /\ post = post'.
Proof.
  induction pre as [|p pre IH]; intros a post pre' a' post' E Hp Ha Hp' Ha'.
  - destruct pre' as [|p' pre'].
    + cbn [app] in E. injection E as -> ->. auto.
    + cbn [app forallb] in E, Hp'. injection E as -> _.
      apply andb_true_iff in Hp' as [H _]. congruence.
  - destruct pre' as [|p' pre'].
    + cbn [app forallb] in E, Hp. injection E as -> _.
      apply andb_true_iff in Hp as [H _]. congruence.
    + cbn [app forallb] in E, Hp, Hp'. injection E as -> E.
      apply andb_true_iff in Hp as [_ Hp].
      apply andb_true_iff in Hp' as [_ Hp'].
      destruct (IH _ _ _ _ _ E Hp Ha Hp' Ha') as (-> & -> & ->). auto.
Qed.

Lemma help_not_good read_file h : is_help h = true -> good read_file h = false.
Proof.
  intros H. unfold good. rewrite (help_not_well_named h H). reflexivity.
Qed.

Lemma all_good_prefix read_file pre a post :
  forallb (good read_file) (pre ++ a :: post) = true ->
  good read_file a = true.
Proof.
  rewrite forallb_app. cbn [forallb]. intros H.
  apply andb_true_iff in H as [_ H]. apply andb_true_iff in H as [H _].
  exact H.
Qed.

Lemma main_all_good read_file nd_of args :
  forallb (good read_file) args = true ->
  main read_file nd_of args =
  Run (Banner :: flat_map (file_events read_file nd_of) args ++ [Done]) None 0.
Proof.
  intros Hg. unfold main.
  rewrite <- (app_nil_r args) at 1 2 3. rewrite loop_good by assumption.
  reflexivity.
Qed.

Lemma main_bad read_file nd_of pre a post :
  forallb (good read_file) pre = true ->
  is_help a = false -> good read_file a = false ->
  main read_file nd_of (pre ++ a :: post) =
  Run (Banner :: flat_map (file_events read_file nd_of) pre ++ [Checking a])
      (Some (if well_named a then CannotRead a else NeedTeXFile)) 1.
Proof.
  intros Hg Hh Hb. unfold main.
  rewrite loop_good by assumption. rewrite loop_bad by assumption.
  reflexivity.
Qed.

(** X11: when every argument ends in .tex and can be read, the run
    prints the banner, then for each argument in turn its heading and
    what the checks of that one file leave, and then the closing line;
    it stops with no error and status 0. *)
Theorem good_run_trace read_file nd_of args :
  forallb (good read_file) args = true ->
  main read_file nd_of args =
  Run (Banner :: flat_map (file_events read_file nd_of) args ++ [Done]) None 0.
Proof. apply main_all_good. Qed.

Lemma good_run_trace_witness :
  forallb (good any_file) [T "a.tex"; T "b.tex"] = true /\
  main any_file digits [T "a.tex"; T "b.tex"] =
  Run (Banner :: flat_map (file_events any_file digits) [T "a.tex"; T "b.tex"]
         ++ [Done]) None 0.
Proof.
  split; [reflexivity|].
  apply (good_run_trace any_file digits [T "a.tex"; T "b.tex"]). reflexivity.
Defined.

(** X12: how a run ends is decided by the first argument that does not
    both end in .tex and name a readable file.  The closing line is
    printed exactly when there is no such argument; the usage line
    exactly when that argument is a help flag; the run stops with an
    error exactly when it is not a help flag; and the exit status is 1
    when the run stopped with an error and 0 otherwise. *)
Theorem run_outcome read_file nd_of args :
  let r := main read_file nd_of args in
  (In Done (trace r) <-> forallb (good read_file) args = true) /\
  (In Usage (trace r) <->
   exists pre h post,
     args = pre ++ h :: post /\ forallb (good read_file) pre = true /\
     is_help h = true) /\
  (stopped r <> None <->
   exists pre a post,
     args = pre ++ a :: post /\ forallb (good read_file) pre = true /\
     is_help a = false /\ good read_file a = false) /\
  status r = match stopped r with Some _ => 1 | None => 0 end.
Proof.
  cbv zeta.
  destruct (first_not_good read_file args)
    as [Hg|(pre & a & post & -> & Hp & Ha)].
  - rewrite (main_all_good read_file nd_of args Hg). cbn [trace stopped status].
    split; [|split; [|split]].
    + split; [intros _; exact Hg|]. intros _. right.
      apply in_or_app. right. left. reflexivity.
    + split.
      * intros [H|H]; [discriminate|].
        apply in_app_or in H as [H|[H|[]]]; [|discriminate].
        apply file_events_kind in H. tauto.
      * intros (p & h & q & -> & _ & Hh).
        apply all_good_prefix in Hg.
        rewrite (help_not_good read_file h Hh) in Hg. discriminate.
    + split; [congruence|].
      intros (p & b & q & -> & _ & _ & Hb).
      apply all_good_prefix in Hg. congruence.
    + reflexivity.
  - destruct (is_help a) eqn:Hh.
    + rewrite (help_after_good_files read_file nd_of pre a post Hp Hh).
      cbn [trace stopped status]. split; [|split; [|split]].
      * split.
        -- intros [H|H]; [discriminate|].
           apply in_app_or in H as [H|[H|[]]]; [|discriminate].
           apply file_events_kind in H. tauto.
        -- intros Hg. apply all_good_prefix in Hg. congruence.
      * split; [intros _; exists pre, a, post; auto|].
        intros _. right. apply in_or_app. right. left. reflexivity.
      * split; [congruence|].
        intros (p & b & q & E & Hp' & Hb & Hb').
        destruct (first_not_good_unique read_file _ _ _ _ _ _ E Hp Ha Hp' Hb')
          as (_ & -> & _).
        congruence.
      * reflexivity.
    + rewrite (main_bad read_file nd_of pre a post Hp Hh Ha).
      cbn [trace stopped status]. split; [|split; [|split]].
      * split.
        -- intros [H|H]; [discriminate|].
           apply in_app_or in H as [H|[H|[]]]; [|discriminate].
           apply file_events_kind in H. tauto.
        -- intros Hg. apply all_good_prefix in Hg. congruence.
      * split.
        -- intros [H|H]; [discriminate|].
           apply in_app_or in H as [H|[H|[]]]; [|discriminate].
           apply file_events_kind in H. tauto.
        -- intros (p & h & q & E & Hp' & Hh').
           destruct (first_not_good_unique read_file _ _ _ _ _ _ E Hp Ha Hp'
                       (help_not_good read_file h Hh')) as (_ & -> & _).
           congruence.
      * split; [|discriminate]. intros _. exists pre, a, post. auto.
      * reflexivity.
Qed.

(** ** The document-class flags *)

Lemma class_keyword_found (A B : text) s :
  found (re_search (lit_text A ;; many dot ;; lit_text B) s) = true <->
  exists pre mid post, s = pre ++ A ++ mid ++ B ++ post /\ count_nl mid = 0.
Proof.
  unfold re_search. rewrite search_from_found. split.
  - intros (u & v & -> & M).
    apply match_at_some_iff in M as (d & cs & M).
    apply inv_seq in M as (c1 & cs1 & M0 & M).
    apply inv_lit in M0 as (r1 & -> & -> & ->).
    apply inv_seq in M as (c2 & cs2 & M1 & M).
    apply inv_star in M1 as (mid & r2 & -> & Hd & -> & ->).
    apply inv_lit in M as (r3 & -> & _).
    exists u, mid, r3. split; [reflexivity|].
    apply (count_nl_forallb dot); [reflexivity|exact Hd].
  - intros (pre & mid & post & -> & Hm).
    exists pre, (A ++ mid ++ B ++ post). split; [reflexivity|].
    apply match_at_some_iff. do 2 eexists.
    eapply M_Seq; [apply matches_lit_text_intro|].
    eapply M_Seq; [apply (M_Star true dot), forallb_dot, Hm|].
    apply matches_lit_text_intro.
Qed.

(** X13: a document counts as foils, or as Nature style, when some line
    of it holds the document-class command and, later on the same line,
    the word foils, or nature; it counts as APS or ACS style when what
    follows on the line is achemso, or prb and then, after any white
    space, line breaks included, a comma or a closing bracket. *)
Theorem class_flags s :
  (found (re_search foilsre s) = true <->
   exists pre mid post,
     s = pre ++ T "\documentclass" ++ mid ++ T "foils" ++ post /\
     count_nl mid = 0) /\
  (found (re_search natre s) = true <->
   exists pre mid post,
     s = pre ++ T "\documentclass" ++ mid ++ T "nature" ++ post /\
     count_nl mid = 0) /\
  (found (re_search apsre s) = true <->
   exists pre mid post,
     count_nl mid = 0 /\
     (s = pre ++ T "\documentclass" ++ mid ++ T "achemso" ++ post \/
      exists sp c,
        forallb space sp = true /\ (c = ","%char \/ c = "]"%char) /\
        s = pre ++ T "\documentclass" ++ mid ++ T "prb" ++ sp ++ c :: post)).
Proof.
  split; [apply class_keyword_found|]. split; [apply class_keyword_found|].
  unfold re_search, apsre. rewrite search_from_found. split.
  - intros (u & v & -> & M).
    apply match_at_some_iff in M as (d & cs & M).
    apply inv_seq in M as (c1 & cs1 & M0 & M).
    apply inv_lit in M0 as (r1 & -> & -> & ->).
    apply inv_seq in M as (c2 & cs2 & M1 & M).
    apply inv_star in M1 as (mid & r2 & -> & Hd & -> & ->).
    exists u, mid.
    apply inv_alt in M as [M|M].
    + apply inv_seq in M as (c3 & cs3 & M2 & M).
      apply inv_lit in M2 as (r3 & -> & -> & ->).
      apply inv_seq in M as (c4 & cs4 & M3 & M).
      apply inv_star in M3 as (sp & r4 & -> & Hsp & -> & ->).
      apply inv_chr in M as (c & r5 & -> & Hc & _).
      exists r5. split; [apply (count_nl_forallb dot); [reflexivity|exact Hd]|].
      right. exists sp, c. split; [exact Hsp|]. split; [|reflexivity].
      change (one_of ",]" c)
        with (Ascii.eqb c "," || (Ascii.eqb c "]" || false)) in Hc.
      rewrite orb_false_r in Hc. apply orb_true_iff in Hc.
      rewrite !Ascii.eqb_eq in Hc. exact Hc.
    + apply inv_lit in M as (r3 & -> & _).
      exists r3. split; [apply (count_nl_forallb dot); [reflexivity|exact Hd]|].
      left. reflexivity.
  - intros (pre & mid & post & Hm & [->|(sp & c & Hsp & Hc & ->)]).
    + exists pre, (T "\documentclass" ++ mid ++ T "achemso" ++ post).
      split; [reflexivity|].
      apply match_at_some_iff. do 2 eexists.
      eapply M_Seq; [apply matches_lit_text_intro|].
      eapply M_Seq; [apply (M_Star true dot), forallb_dot, Hm|].
      apply M_AltR. apply matches_lit_text_intro.
    + exists pre, (T "\documentclass" ++ mid ++ T "prb" ++ sp ++ c :: post).
      split; [reflexivity|].
      apply match_at_some_iff. do 2 eexists.
      eapply M_Seq; [apply matches_lit_text_intro|].
      eapply M_Seq; [apply (M_Star true dot), forallb_dot, Hm|].
      apply M_AltL.
      eapply M_Seq; [apply matches_lit_text_intro|].
      eapply M_Seq; [apply (M_Star true space), Hsp|].
      apply M_Chr. destruct Hc as [->| ->]; reflexivity.
Qed.

(** X14: the second substitution of [stripinline], the one for single
    dollars, is idempotent on every text: applied to its own result it
    changes nothing. *)
Theorem inline_pass_idempotent t :
  re_sub inline_dollar_re xxx_tmpl (re_sub inline_dollar_re xxx_tmpl t) =
  re_sub inline_dollar_re xxx_tmpl t.
Proof. exact (inline_sub_idem t [] false [] false). Qed.

(** ** Patterns that can run over a line break *)

Lemma findall_blocks r :
  starts_bol r = true -> ends_eol r = true ->
  forall s pre adj, blocks pre s (flat_map hit_text (scan r pre s 0 adj)).
Proof.
  intros Hs He.
  apply (scan_induction r
    (fun pre adj rest =>
       blocks pre rest (flat_map hit_text (scan r pre rest 0 adj)))).
  - intros pre adj E. rewrite scan_end by exact E. apply blocks_nil.
  - intros pre adj a rest E IH. rewrite scan_keep by exact E.
    apply blocks_skip, IH.
  - intros pre adj w rest2 cs Hw E IH.
    rewrite (scan_hit _ _ _ _ _ _ Hw E). cbn [flat_map hit_text app].
    pose proof (match_at_sound _ _ _ _ E) as M.
    apply blocks_hit; [|  |exact IH].
    + exact (starts_bol_sound _ _ _ _ _ M Hs).
    + exact (ends_eol_sound _ _ _ _ _ M He).
  - intros pre adj cs E. rewrite (scan_empty_end _ _ _ _ E).
    cbn [flat_map hit_text app].
    pose proof (match_at_sound _ _ _ _ E) as M.
    apply (blocks_hit pre [] []).
    + exact (starts_bol_sound _ _ _ _ _ M Hs).
    + exact (ends_eol_sound _ _ _ _ _ M He).
    + apply blocks_nil.
  - intros pre adj a rest cs E IH. rewrite (scan_empty _ _ _ _ _ _ E).
    cbn [flat_map hit_text app].
    pose proof (match_at_sound _ _ _ _ E) as M.
    apply (blocks_hit pre [] (a :: rest)).
    + exact (starts_bol_sound _ _ _ _ _ M Hs).
    + exact (ends_eol_sound _ _ _ _ _ M He).
    + apply blocks_skip, IH.
Qed.

(** X16: for the checks whose pattern starts with ^ and ends with $ but
    can consume a newline, the entries found are pieces of the text that
    follow one another without overlap, each starting at the start of a
    line and ending at the end of a line: an entry is one whole line or
    several whole lines in a row, never a part of a line. *)
Theorem spanning_checks_report_blocks :
  Forall (fun R => forall fstr, blocks [] fstr (re_findall R fstr))
         spanning_checks.
Proof.
  apply Forall_forall. intros R HR fstr. unfold re_findall.
  assert (H : forallb (fun r => starts_bol r && ends_eol r) spanning_checks
              = true) by (vm_compute; reflexivity).
  rewrite forallb_forall in H. apply H in HR.
  apply andb_true_iff in HR as [Hs He].
  apply findall_blocks; assumption.
Qed.

Lemma star_greedy_through (c : charset) k res : forall w pre rest cs,
  forallb c w = true ->
  star_greedy c (rev w ++ pre) rest cs k = Some res ->
  star_greedy c pre (w ++ rest) cs k = Some res.
Proof.
  induction w as [|a w IH]; intros pre rest cs Hw H; [exact H|].
  cbn [forallb] in Hw. apply andb_true_iff in Hw as [Ha Hw].
  cbn [app star_greedy]. rewrite Ha.
  rewrite (IH (a :: pre) rest cs Hw); [reflexivity|].
  cbn [rev] in H. rewrite <- app_assoc in H. exact H.
Qed.

Lemma lower_not_space_tie a : lower a = true -> space_tie a = false.
Proof.
  destruct a as [[] [] [] [] [] [] [] []]; vm_compute; congruence.
Qed.

Lemma missingcap_match u a v rest :
  count_nl u = 0 -> count_nl v = 0 -> lower a = true ->
  line_end rest = true ->
  match_at missingcap_re
    (Cursor [] ((u ++ T "." ++ NL :: a :: v) ++ rest)) =
  Some (Cursor (rev (u ++ T "." ++ NL :: a :: v) ++ []) rest, []).
Proof.
  intros Hu Hv Ha Hr. unfold match_at, missingcap_re, many, many1.
  rewrite <- app_assoc.
  cbn [rmatch before after at_bol].
  apply star_greedy_through; [apply forallb_dot, Hu|].
  change ((T "." ++ NL :: a :: v) ++ rest)
    with ("."%char :: NL :: a :: v ++ rest).
  cbn [star_greedy].
  replace (dot "."%char) with true by reflexivity.
  replace (dot NL) with false by reflexivity.
  cbn [rmatch before after].
  replace (only "." NL) with false by reflexivity.
  cbn [orelse].
  replace (only "." "."%char) with true by reflexivity.
  cbn [star_greedy].
  replace (one_of ")]}'" NL) with false by reflexivity.
  cbn [rmatch before after].
  replace (space_tie NL) with true by reflexivity.
  cbn [star_greedy]. rewrite (lower_not_space_tie a Ha).
  cbn [rmatch before after]. rewrite Ha.
  pose proof (tail_to_eol v (a :: NL :: "."%char :: rev u ++ []) rest []
                Hv Hr) as G.
  unfold many in G. cbn [rmatch before after] in G.
  rewrite G. f_equal. f_equal. f_equal.
  rewrite !app_nil_r, rev_app_distr. cbn [rev app T list_ascii_of_string].
  rewrite <- !app_assoc. reflexivity.
Qed.

Lemma missingcap_at_end p : match_at missingcap_re (Cursor p []) = None.
Proof.
  unfold match_at, missingcap_re, many. cbn [rmatch before after].
  destruct (at_bol _); reflexivity.
Qed.

(** X17: when the first line of a text ends with a full stop and its
    second line starts with a small letter, the first entry that
    [checkmissingcapitalisation] lists is these two lines together,
    whatever else they and the lines after them hold: the white space
    that the pattern asks for after the full stop is the line break.
    When nothing follows the two lines, it is the only entry. *)
Theorem missingcap_spans_lines u a v rest :
  count_nl u = 0 -> count_nl v = 0 -> lower a = true ->
  line_end rest = true ->
  exists more,
    checkmissingcapitalisation ((u ++ T "." ++ NL :: a :: v) ++ rest) =
    [(MissingCapitalisation, (u ++ T "." ++ NL :: a :: v) :: more)] /\
    (rest = [] -> more = []).
Proof.
  intros Hu Hv Ha Hr. unfold checkmissingcapitalisation, re_findall.
  pose proof (missingcap_match u a v rest Hu Hv Ha Hr) as M.
  set (w := u ++ T "." ++ NL :: a :: v) in *.
  assert (Hw : w <> []) by (subst w; destruct u; discriminate).
  rewrite (scan_hit missingcap_re [] w rest [] false Hw M).
  cbn [flat_map hit_text app reportlines].
  exists (flat_map hit_text (scan missingcap_re (rev w ++ []) rest 0 true)).
  split; [reflexivity|].
  intros ->. rewrite scan_end by apply missingcap_at_end. reflexivity.
Qed.

Lemma missingcap_spans_lines_witness :
  exists more,
    checkmissingcapitalisation
      ((T "It ends here" ++ T "." ++ NL :: "t"%char :: T "hen goes on.")
         ++ NL :: T "Next line.") =
    [(MissingCapitalisation,
      (T "It ends here" ++ T "." ++ NL :: "t"%char :: T "hen goes on.")
        :: more)] /\
    (NL :: T "Next line." = [] -> more = []).
Proof.
  apply (missingcap_spans_lines (T "It ends here") "t" (T "hen goes on.")
           (NL :: T "Next line."));
    reflexivity.
Defined.

(** * Display formulas

    What the pattern of [stripeqns] matches, and what the substitution
    makes of a text. *)

Lemma skipn_app_length (w r : text) : skipn (length w) (w ++ r) = r.
Proof. induction w as [|a w IH]; [reflexivity|exact IH]. Qed.

Lemma entry_at_some tbl rest e :
  entry_at tbl rest = Some e -> In e tbl /\ exists r, rest = fst e ++ r.
Proof.
  unfold entry_at. intros H. apply find_some in H as [Hin Hs].
  split; [exact Hin|]. apply startswith_iff. exact Hs.
Qed.

Lemma entry_at_none tbl rest e r :
  entry_at tbl rest = None -> In e tbl -> rest <> fst e ++ r.
Proof.
  unfold entry_at. intros H Hin E.
  pose proof (find_none _ _ H e Hin) as F. cbn beta in F.
  assert (S : startswith rest (fst e) = true)
    by (apply startswith_iff; eauto).
  congruence.
Qed.

Lemma eqn_env_shape p r cs d cs' :
  matches eqn_env (Cursor p r) cs d cs' ->
  exists n r', In n eqn_names /\ r = n ++ r' /\
               d = Cursor (rev n ++ p) r' /\ cs' = cs.
Proof.
  unfold eqn_env. intros M.
  apply inv_alt in M as [M|M].
  { apply inv_lit in M as (r' & -> & -> & ->).
    exists (T "math"), r'. cbn [eqn_names map In]. auto 10. }
  apply inv_alt in M as [M|M].
  { apply inv_seq in M as (c1 & cs1 & M & M2).
    apply inv_lit in M as (r' & -> & -> & ->).
    apply inv_opt in M2 as [M2|[-> ->]].
    - apply inv_chr in M2 as (a & r2 & -> & Ha & -> & ->).
      apply only_eq in Ha. subst a.
      exists (T "equation*"), r2. cbn [eqn_names map In]. auto 10.
    - exists (T "equation"), r'. cbn [eqn_names map In]. auto 10. }
  apply inv_alt in M as [M|M].
  { apply inv_lit in M as (r' & -> & -> & ->).
    exists (T "displaymath"), r'. cbn [eqn_names map In]. auto 10. }
  apply inv_alt in M as [M|M].
  { apply inv_seq in M as (c1 & cs1 & M & M2).
    apply inv_lit in M as (r' & -> & -> & ->).
    apply inv_opt in M2 as [M2|[-> ->]].
    - apply inv_chr in M2 as (a & r2 & -> & Ha & -> & ->).
      apply only_eq in Ha. subst a.
      exists (T "eqnarray*"), r2. cbn [eqn_names map In]. auto 10.
    - exists (T "eqnarray"), r'. cbn [eqn_names map In]. auto 10. }
  apply inv_lit in M as (r' & -> & -> & ->).
  exists (T "align"), r'. cbn [eqn_names map In]. auto 10.
Qed.

Lemma eqn_env_intro n p r cs :
  In n eqn_names ->
  matches eqn_env (Cursor p (n ++ r)) cs (Cursor (rev n ++ p) r) cs.
Proof.
  unfold eqn_names, eqn_env. cbn [map In].
  intros [<-|[<-|[<-|[<-|[<-|[<-|[<-|[]]]]]]]].
  - apply M_AltL. apply (matches_lit_text_intro (T "math")).
  - apply M_AltR, M_AltL. eapply M_Seq.
    + apply (matches_lit_text_intro (T "equation")).
    + apply M_OptNone.
  - apply M_AltR, M_AltL.
    change (T "equation*" ++ r) with (T "equation" ++ "*"%char :: r).
    eapply M_Seq.
    + apply (matches_lit_text_intro (T "equation")).
    + apply M_OptSome. apply M_Chr. reflexivity.
  - apply M_AltR, M_AltR, M_AltL.
    apply (matches_lit_text_intro (T "displaymath")).
  - apply M_AltR, M_AltR, M_AltR, M_AltL. eapply M_Seq.
    + apply (matches_lit_text_intro (T "eqnarray")).
    + apply M_OptNone.
  - apply M_AltR, M_AltR, M_AltR, M_AltL.
    change (T "eqnarray*" ++ r) with (T "eqnarray" ++ "*"%char :: r).
    eapply M_Seq.
    + apply (matches_lit_text_intro (T "eqnarray")).
    + apply M_OptSome. apply M_Chr. reflexivity.
  - apply M_AltR, M_AltR, M_AltR, M_AltR.
    apply (matches_lit_text_intro (T "align")).
Qed.

Section Delim.

Variable kw : text.
Variable gn : nat.
Variable brc : charset.
Variable brs : list ascii.
Hypothesis Hbr : forall a, brc a = true <-> In a brs.
Hypothesis Hentry : forall e r,
  In e (delim_table kw gn brs) ->
  entry_at (delim_table kw gn brs) (fst e ++ r) = Some e.

Lemma delim_shape p r cs d cs' :
  matches (delim_re kw gn brc) (Cursor p r) cs d cs' ->
  exists o g r',
    In (o, g) (delim_table kw gn brs) /\ r = o ++ r' /\
    d = Cursor (rev o ++ p) r' /\ cs' = g ++ cs.
Proof.
  unfold delim_re. intros M. apply inv_alt in M as [M|M].
  - apply inv_seq in M as (c1 & cs1 & M0 & M).
    apply inv_lit in M0 as (r1 & -> & -> & ->).
    apply inv_seq in M as (c2 & cs2 & M1 & M).
    apply inv_grp in M1 as (cs3 & M1 & ->).
    pose proof (matches_advance _ _ _ _ _ M1) as [w A].
    apply advance_span in A.
    apply eqn_env_shape in M1 as (n & r2 & Hn & -> & -> & ->).
    assert (Hw : span (Cursor (rev kw ++ p) (n ++ r2))
                      (Cursor (rev n ++ rev kw ++ p) r2) = n)
      by (apply advance_span, advance_cursor).
    rewrite Hw in M.
    apply (inv_lit (T "}")) in M as (r3 & -> & -> & ->).
    exists (kw ++ n ++ T "}"), [(gn, n)], r3.
    split; [|split; [|split]].
    + unfold delim_table. apply in_or_app. left.
      apply in_map_iff. exists n. auto.
    + rewrite <- !app_assoc. reflexivity.
    + rewrite !rev_app_distr, <- !app_assoc. reflexivity.
    + reflexivity.
  - apply inv_seq in M as (c1 & cs1 & M0 & M).
    apply inv_chr in M0 as (a & r1 & -> & Ha & -> & ->).
    apply only_eq in Ha. subst a.
    apply inv_chr in M as (b & r2 & -> & Hb & -> & ->).
    exists ["\"%char; b], [], r2. split; [|auto].
    unfold delim_table. apply in_or_app. right.
    apply in_map_iff. exists b. split; [reflexivity|]. apply Hbr, Hb.
Qed.

Lemma delim_intro o g p r cs :
  In (o, g) (delim_table kw gn brs) ->
  matches (delim_re kw gn brc) (Cursor p (o ++ r)) cs
          (Cursor (rev o ++ p) r) (g ++ cs).
Proof.
  unfold delim_table, delim_re. intros H. apply in_app_or in H as [H|H].
  - apply in_map_iff in H as (n & E & Hn). injection E as <- <-.
    apply M_AltL. rewrite <- !app_assoc, !rev_app_distr, <- !app_assoc.
    eapply M_Seq; [apply matches_lit_text_intro|].
    eapply M_Seq; [|apply (matches_lit_text_intro (T "}"))].
    pose proof (M_Grp gn eqn_env _ _ _ _
                  (eqn_env_intro n (rev kw ++ p) (T "}" ++ r) cs Hn)) as M.
    rewrite (advance_span _ _ _ (advance_cursor (rev kw ++ p) n (T "}" ++ r)))
      in M.
    exact M.
  - apply in_map_iff in H as (b & E & Hb). injection E as <- <-.
    apply M_AltR. eapply M_Seq.
    + apply M_Chr. apply only_refl.
    + apply M_Chr. apply Hbr, Hb.
Qed.

(** The matcher on an opener or closer: it takes the entry that the text
    starts with, if there is one. *)
Lemma rmatch_delim p r cs k :
  rmatch (delim_re kw gn brc) (Cursor p r) cs k =
  match entry_at (delim_table kw gn brs) r with
  | Some (o, g) => k (Cursor (rev o ++ p) (skipn (length o) r)) (g ++ cs)
  | None => None
  end.
Proof.
  destruct (rmatch (delim_re kw gn brc) (Cursor p r) cs k) as [res|] eqn:E.
  - apply rmatch_sound in E as (c2 & cs2 & M & Hk).
    apply delim_shape in M as (o & g & r' & Hin & -> & -> & ->).
    pose proof (Hentry (o, g) r' Hin) as He. cbn [fst] in He.
    rewrite He, skipn_app_length. symmetry. exact Hk.
  - destruct (entry_at (delim_table kw gn brs) r) as [[o g]|] eqn:Ee;
      [|reflexivity].
    apply entry_at_some in Ee as [Hin [r' Hr]]. cbn [fst] in Hr. subst r.
    rewrite skipn_app_length. symmetry.
    apply (rmatch_complete _ _ _ _ E).
    apply delim_intro. exact Hin.
Qed.

End Delim.

Lemma startswith_app o r : startswith (o ++ r) o = true.
Proof. apply startswith_iff. exists r. reflexivity. Qed.

Ltac first_entry r :=
  unfold entry_at; cbn [find fst];
  repeat match goal with
         | |- context [startswith (?o ++ r) ?o'] =>
             first [ rewrite (startswith_app o' r)
                   | replace (startswith (o ++ r) o') with false
                       by (vm_compute; reflexivity) ]
         end;
  reflexivity.

Lemma opener_entry e r :
  In e opener_table -> entry_at opener_table (fst e ++ r) = Some e.
Proof.
  unfold opener_table, eqn_names. cbn [map app In]. intros H.
  repeat (destruct H as [<-|H]; [first_entry r|]). contradiction.
Qed.

Lemma closer_entry e r :
  In e closer_table -> entry_at closer_table (fst e ++ r) = Some e.
Proof.
  unfold closer_table, eqn_names. cbn [map app In]. intros H.
  repeat (destruct H as [<-|H]; [first_entry r|]). contradiction.
Qed.

Lemma open_brackets a :
  one_of "([" a = true <-> In a ["("%char; "["%char].
Proof.
  change (one_of "([" a)
    with (Ascii.eqb a "(" || (Ascii.eqb a "[" || false)).
  rewrite orb_false_r, orb_true_iff, !Ascii.eqb_eq. cbn [In].
  split; [intros [->| ->]; auto|intros [<-|[<-|[]]]; auto].
Qed.

Lemma close_brackets a :
  one_of "])" a = true <-> In a ["]"%char; ")"%char].
Proof.
  change (one_of "])" a)
    with (Ascii.eqb a "]" || (Ascii.eqb a ")" || false)).
  rewrite orb_false_r, orb_true_iff, !Ascii.eqb_eq. cbn [In].
  split; [intros [->| ->]; auto|intros [<-|[<-|[]]]; auto].
Qed.

Lemma rmatch_open p r cs k :
  rmatch eqn_open (Cursor p r) cs k =
  match entry_at opener_table r with
  | Some (o, g) => k (Cursor (rev o ++ p) (skipn (length o) r)) (g ++ cs)
  | None => None
  end.
Proof.
  exact (rmatch_delim (T "\begin{") 2 (one_of "([") ["("%char; "["%char]
           open_brackets opener_entry p r cs k).
Qed.

Lemma rmatch_close p r cs k :
  rmatch eqn_close (Cursor p r) cs k =
  match entry_at closer_table r with
  | Some (c, g) => k (Cursor (rev c ++ p) (skipn (length c) r)) (g ++ cs)
  | None => None
  end.
Proof.
  exact (rmatch_delim (T "\end{") 4 (one_of "])") ["]"%char; ")"%char]
           close_brackets closer_entry p r cs k).
Qed.

(** The closing group at a position. *)
Lemma close_at p r cs :
  rmatch (Grp 3 eqn_close) (Cursor p r) cs accept =
  match entry_at closer_table r with
  | Some (c, g) =>
      Some (Cursor (rev c ++ p) (skipn (length c) r), (3, c) :: g ++ cs)
  | None => None
  end.
Proof.
  cbn [rmatch]. rewrite rmatch_close.
  destruct (entry_at closer_table r) as [[c g]|] eqn:E; [|reflexivity].
  apply entry_at_some in E as [_ [r' Hr]]. cbn [fst] in Hr. subst r.
  rewrite skipn_app_length.
  rewrite (advance_span _ _ _ (advance_cursor p c r')). reflexivity.
Qed.

Lemma first_closer_split : forall rest b e,
  first_closer rest = Some (b, e) ->
  In e closer_table /\ exists r, rest = b ++ fst e ++ r.
Proof.
  induction rest as [|x rest IH]; intros b e H.
  - cbn [first_closer] in H.
    destruct (entry_at closer_table []) as [e0|] eqn:E; [|discriminate].
    injection H as <- <-. apply entry_at_some in E as [Hin [r Hr]].
    split; [exact Hin|]. exists r. exact Hr.
  - cbn [first_closer] in H.
    destruct (entry_at closer_table (x :: rest)) as [e0|] eqn:E.
    + injection H as <- <-. apply entry_at_some in E as [Hin [r Hr]].
      split; [exact Hin|]. exists r. exact Hr.
    + destruct (first_closer rest) as [[b0 e0]|] eqn:F; [|discriminate].
      injection H as <- <-. destruct (IH _ _ eq_refl) as [Hin [r ->]].
      split; [exact Hin|]. exists r. reflexivity.
Qed.

(** The lazy repetition before the closing group stops at the first
    closer. *)
Lemma lazy_first_closer : forall rest pre cs,
  star_lazy dotall pre rest cs
    (fun c' cs' => rmatch (Grp 3 eqn_close) c' cs' accept) =
  match first_closer rest with
  | Some (b, (c, g)) =>
      Some (Cursor (rev (b ++ c) ++ pre) (skipn (length (b ++ c)) rest),
            (3, c) :: g ++ cs)
  | None => None
  end.
Proof.
  induction rest as [|x rest IH]; intros pre cs.
  - cbn [star_lazy first_closer]. rewrite close_at.
    destruct (entry_at closer_table []) as [[c g]|]; reflexivity.
  - cbn [star_lazy first_closer]. rewrite close_at.
    destruct (entry_at closer_table (x :: rest)) as [[c g]|]; [reflexivity|].
    cbn [dotall]. rewrite IH.
    destruct (first_closer rest) as [[b [c g]]|]; [|reflexivity].
    cbn [app rev length skipn]. rewrite <- !app_assoc. reflexivity.
Qed.

(** Where the pattern of [stripeqns] matches. *)
Lemma eqn_match_at pre rest :
  match_at eqn_re (Cursor pre rest) =
  match entry_at opener_table rest with
  | Some (o, g) =>
      match first_closer (skipn (length o) rest) with
      | Some (b, (c, g')) =>
          Some (Cursor (rev (b ++ c) ++ rev o ++ pre)
                       (skipn (length (b ++ c)) (skipn (length o) rest)),
                (3, c) :: g' ++ (1, o) :: g ++ [])
      | None => None
      end
  | None => None
  end.
Proof.
  unfold match_at, eqn_re, few. cbn [rmatch]. rewrite rmatch_open.
  destruct (entry_at opener_table rest) as [[o g]|] eqn:E; [|reflexivity].
  apply entry_at_some in E as [_ [r' Hr]]. cbn [fst] in Hr. subst rest.
  rewrite skipn_app_length. cbn [before after].
  rewrite (advance_span _ _ _ (advance_cursor pre o r')).
  apply lazy_first_closer.
Qed.

Lemma table_groups o g c g' :
  In (o, g) opener_table -> In (c, g') closer_table ->
  expand eqn_tmpl ((3, c) :: g' ++ (1, o) :: g ++ []) = o ++ T " xxx " ++ c.
Proof.
  intros _ Hc. unfold eqn_tmpl, expand. cbn [flat_map expand_item].
  assert (H1 : group 1 ((3, c) :: g' ++ (1, o) :: g ++ []) = Some o).
  { unfold closer_table in Hc. apply in_app_or in Hc as [Hc|Hc].
    - apply in_map_iff in Hc as (n & E & _). injection E as <- <-. reflexivity.
    - cbn [In] in Hc. destruct Hc as [E|[E|[]]]; injection E as <- <-;
        reflexivity. }
  rewrite H1. cbn [group Nat.eqb]. rewrite app_nil_r. reflexivity.
Qed.

Lemma eqn_at_split rest o b c :
  eqn_at rest = Some (o, b, c) ->
  exists g g' r,
    rest = o ++ b ++ c ++ r /\
    In (o, g) opener_table /\ In (c, g') closer_table /\
    entry_at opener_table rest = Some (o, g) /\
    first_closer (b ++ c ++ r) = Some (b, (c, g')).
Proof.
  unfold eqn_at.
  destruct (entry_at opener_table rest) as [[o0 g]|] eqn:E; [|discriminate].
  pose proof (entry_at_some _ _ _ E) as [Hin [r0 Hr]]. cbn [fst] in Hr.
  subst rest. rewrite skipn_app_length.
  destruct (first_closer r0) as [[b0 [c0 g']]|] eqn:F; [|discriminate].
  intros H. injection H as <- <- <-.
  pose proof (first_closer_split _ _ _ F) as [Hc [r Hr]]. cbn [fst] in Hr.
  subst r0. exists g, g', r. auto.
Qed.

Lemma eqn_sub_nil pre adj : eqn_sub pre [] adj = [].
Proof. unfold eqn_sub. apply sub_from_nil. rewrite eqn_match_at. reflexivity. Qed.

Lemma eqn_sub_keep pre a rest adj :
  eqn_at (a :: rest) = None ->
  eqn_sub pre (a :: rest) adj = a :: eqn_sub (a :: pre) rest false.
Proof.
  intros E. unfold eqn_sub. apply sub_from_keep.
  rewrite eqn_match_at. unfold eqn_at in E.
  destruct (entry_at opener_table (a :: rest)) as [[o g]|]; [|reflexivity].
  destruct (first_closer (skipn (length o) (a :: rest))) as [[b [c g']]|];
    [discriminate|reflexivity].
Qed.

Lemma eqn_sub_hit pre o b c r adj :
  eqn_at (o ++ b ++ c ++ r) = Some (o, b, c) ->
  eqn_sub pre (o ++ b ++ c ++ r) adj =
  o ++ T " xxx " ++ c ++ eqn_sub (rev (o ++ b ++ c) ++ pre) r true.
Proof.
  intros E.
  destruct (eqn_at_split _ _ _ _ E) as (g & g' & r0 & Hr & Ho & Hc & Eo & Ec).
  apply app_inv_head in Hr. apply app_inv_head in Hr.
  apply app_inv_head in Hr. subst r0.
  unfold eqn_sub.
  replace (o ++ b ++ c ++ r) with ((o ++ b ++ c) ++ r)
    by (rewrite <- !app_assoc; reflexivity).
  rewrite (sub_from_hit eqn_re eqn_tmpl pre (o ++ b ++ c) r
             ((3, c) :: g' ++ (1, o) :: g ++ [])).
  - transitivity ((o ++ T " xxx " ++ c) ++
                  sub_from eqn_re eqn_tmpl (rev (o ++ b ++ c) ++ pre) r true).
    + f_equal. exact (table_groups o g c g' Ho Hc).
    + rewrite <- !app_assoc. reflexivity.
  - unfold opener_table in Ho. intros H.
    apply app_eq_nil in H as [H _]. subst o.
    apply in_app_or in Ho as [Ho|Ho].
    + apply in_map_iff in Ho as (n & E0 & _). discriminate.
    + cbn [In] in Ho. destruct Ho as [E0|[E0|[]]]; discriminate.
  - rewrite eqn_match_at.
    replace ((o ++ b ++ c) ++ r) with (o ++ b ++ c ++ r)
      by (rewrite <- !app_assoc; reflexivity).
    rewrite Eo, skipn_app_length, Ec.
    replace (b ++ c ++ r) with ((b ++ c) ++ r)
      by (rewrite <- app_assoc; reflexivity).
    rewrite skipn_app_length. f_equal. f_equal. f_equal.
    rewrite !rev_app_distr, <- !app_assoc. reflexivity.
Qed.

Lemma collapse_skip : forall w r,
  collapse_eqns (length w) (w ++ r) = collapse_eqns 0 r.
Proof.
  induction w as [|a w IH]; intros r; [reflexivity|].
  cbn [length app collapse_eqns]. apply IH.
Qed.

Lemma opener_nonempty o g : In (o, g) opener_table -> o <> [].
Proof.
  unfold opener_table. intros Ho ->. apply in_app_or in Ho as [Ho|Ho].
  - apply in_map_iff in Ho as (n & E0 & _). discriminate.
  - cbn [In] in Ho. destruct Ho as [E0|[E0|[]]]; discriminate.
Qed.

Lemma eqn_induction (P : text -> Prop) :
  P [] ->
  (forall a rest, eqn_at (a :: rest) = None -> P rest -> P (a :: rest)) ->
  (forall o b c r, eqn_at (o ++ b ++ c ++ r) = Some (o, b, c) -> P r ->
                   P (o ++ b ++ c ++ r)) ->
  forall rest, P rest.
Proof.
  intros Hnil Hkeep Hhit rest.
  remember (length rest) as n eqn:Hn. revert rest Hn.
  induction n as [n IH] using (well_founded_induction Nat.lt_wf_0).
  intros rest Hn. destruct rest as [|a rest]; [exact Hnil|].
  destruct (eqn_at (a :: rest)) as [[[o b] c]|] eqn:E.
  - destruct (eqn_at_split _ _ _ _ E) as (g & g' & r & Hr & Ho & _).
    rewrite Hr in E |- *. apply Hhit; [exact E|].
    apply (IH (length r)); [|reflexivity].
    subst n. rewrite Hr, !length_app.
    pose proof (opener_nonempty o g Ho) as Hne.
    destruct o; [congruence|]. cbn [length]. lia.
  - apply Hkeep; [exact E|].
    apply (IH (length rest)); [subst n; cbn [length]; lia|reflexivity].
Qed.

(** X18: [stripeqns] works from left to right: at each opener
    (a begin command of one of the seven environments, or a backslash
    with an opening bracket) that is followed somewhere by a closer (an
    end command of one of the environments, or a backslash with a closing
    bracket), it replaces everything from the opener to the first closer
    after it, of whatever kind, by the opener, xxx between spaces, and
    that closer, and goes on after the closer; all other characters are
    kept. *)
Theorem stripeqns_collapses fstr : stripeqns fstr = collapse_eqns 0 fstr.
Proof.
  change (stripeqns fstr) with (eqn_sub [] fstr false).
  generalize (@nil ascii) as pre, false as adj. revert fstr.
  apply (eqn_induction
    (fun rest => forall pre adj, eqn_sub pre rest adj = collapse_eqns 0 rest)).
  - intros. apply eqn_sub_nil.
  - intros a rest E IH pre adj. rewrite (eqn_sub_keep pre a rest adj E).
    cbn [collapse_eqns]. rewrite E, IH. reflexivity.
  - intros o b c r E IH pre adj. rewrite (eqn_sub_hit pre o b c r adj E).
    rewrite IH.
    destruct (eqn_at_split _ _ _ _ E) as (g & g' & r0 & _ & Ho & _).
    pose proof (opener_nonempty o g Ho) as Hne.
    destruct o as [|a o]; [congruence|].
    change ((a :: o) ++ b ++ c ++ r) with (a :: o ++ b ++ c ++ r) in *.
    cbn [collapse_eqns]. rewrite E.
    do 3 f_equal.
    change (length ((a :: o) ++ b ++ c) - 1)
      with (length (o ++ b ++ c) - 0).
    rewrite Nat.sub_0_r.
    replace (o ++ b ++ c ++ r) with ((o ++ b ++ c) ++ r)
      by (rewrite <- !app_assoc; reflexivity).
    symmetry. apply collapse_skip.
Qed.

(** ** A second application changes nothing *)

Lemma table_head (tbl : list (text * captures)) :
  forallb (fun e => match fst e with
                    | a :: o' => only "\" a && forallb (except "\") o'
                    | [] => false
                    end) tbl = true ->
  forall o g, In (o, g) tbl ->
  exists o', o = "\"%char :: o' /\ forallb (except "\") o' = true.
Proof.
  intros H o g Hin. rewrite forallb_forall in H. apply H in Hin.
  cbn [fst] in Hin. destruct o as [|a o']; [discriminate|].
  apply andb_true_iff in Hin as [Ha Ho]. apply only_eq in Ha. subst a.
  eauto.
Qed.

Lemma opener_head o g :
  In (o, g) opener_table ->
  exists o', o = "\"%char :: o' /\ forallb (except "\") o' = true.
Proof. apply table_head. vm_compute. reflexivity. Qed.

Lemma closer_head c g :
  In (c, g) closer_table ->
  exists c', c = "\"%char :: c' /\ forallb (except "\") c' = true.
Proof. apply table_head. vm_compute. reflexivity. Qed.

Lemma except_not_only x : except "\" x = true -> only "\" x = false.
Proof.
  unfold except, only. intros H. apply negb_true_iff in H. exact H.
Qed.

Lemma no_opener_here x t :
  except "\" x = true -> entry_at opener_table (x :: t) = None.
Proof.
  intros Hx. destruct (entry_at opener_table (x :: t)) as [[o g]|] eqn:E;
    [|reflexivity].
  apply entry_at_some in E as [Hin [r Hr]]. cbn [fst] in Hr.
  apply opener_head in Hin as (o' & -> & _). injection Hr as -> _.
  discriminate.
Qed.

Lemma no_closer_here x t :
  except "\" x = true -> entry_at closer_table (x :: t) = None.
Proof.
  intros Hx. destruct (entry_at closer_table (x :: t)) as [[o g]|] eqn:E;
    [|reflexivity].
  apply entry_at_some in E as [Hin [r Hr]]. cbn [fst] in Hr.
  apply closer_head in Hin as (o' & -> & _). injection Hr as -> _.
  discriminate.
Qed.

Lemma first_closer_here rest e :
  entry_at closer_table rest = Some e -> first_closer rest = Some ([], e).
Proof. intros H. destruct rest; cbn [first_closer]; rewrite H; reflexivity. Qed.

Lemma first_closer_step x t :
  entry_at closer_table (x :: t) = None ->
  first_closer (x :: t) =
  match first_closer t with
  | Some (b, e) => Some (x :: b, e)
  | None => None
  end.
Proof. intros H. cbn [first_closer]. rewrite H. reflexivity. Qed.

Lemma first_closer_none_tl x t :
  first_closer (x :: t) = None -> first_closer t = None.
Proof.
  cbn [first_closer]. destruct (entry_at closer_table (x :: t)); [discriminate|].
  destruct (first_closer t) as [[b e]|]; [discriminate|reflexivity].
Qed.

Lemma first_closer_none_skipn : forall n t,
  first_closer t = None -> first_closer (skipn n t) = None.
Proof.
  induction n as [|n IH]; intros t H; [exact H|].
  destruct t as [|x t]; [exact H|].
  cbn [skipn]. apply IH. apply (first_closer_none_tl x t H).
Qed.

Lemma eqn_at_no_closer t : first_closer t = None -> eqn_at t = None.
Proof.
  intros H. unfold eqn_at.
  destruct (entry_at opener_table t) as [[o g]|]; [|reflexivity].
  rewrite (first_closer_none_skipn (length o) t H). reflexivity.
Qed.

(** Without a closer nothing is replaced. *)
Lemma no_closer_sub : forall t pre adj,
  first_closer t = None -> eqn_sub pre t adj = t.
Proof.
  induction t as [|x t IH]; intros pre adj H.
  - apply eqn_sub_nil.
  - rewrite eqn_sub_keep by (apply eqn_at_no_closer; exact H).
    rewrite IH; [reflexivity|]. apply (first_closer_none_tl x t H).
Qed.

Lemma first_closer_nonbs_app : forall w r,
  forallb (except "\") w = true ->
  first_closer r = None -> first_closer (w ++ r) = None.
Proof.
  induction w as [|x w IH]; intros r Hw Hr; [exact Hr|].
  cbn [forallb] in Hw. apply andb_true_iff in Hw as [Hx Hw].
  cbn [app]. rewrite first_closer_step by (apply no_closer_here; exact Hx).
  rewrite (IH r Hw Hr). reflexivity.
Qed.

(** The substitution leaves the text before the first backslash as it
    is, and what follows it starts with a backslash as before. *)
Lemma eqn_sub_until_bs : forall rest pre adj,
  exists k y z,
    rest = k ++ z /\ eqn_sub pre rest adj = k ++ y /\
    forallb (except "\") k = true /\
    bs_or_end y = true /\ bs_or_end z = true.
Proof.
  induction rest as [|a rest IH]; intros pre adj.
  - exists [], [], []. rewrite eqn_sub_nil. auto.
  - destruct (except "\" a) eqn:Ea.
    + rewrite eqn_sub_keep.
      * destruct (IH (a :: pre) false) as (k & y & z & -> & -> & Hk & Hy & Hz).
        exists (a :: k), y, z. cbn [app forallb]. rewrite Ea, Hk. auto.
      * unfold eqn_at. rewrite (no_opener_here a rest Ea). reflexivity.
    + assert (Ha : only "\" a = true).
      { unfold except in Ea. apply negb_false_iff in Ea. exact Ea. }
      exists [], (eqn_sub pre (a :: rest) adj), (a :: rest).
      cbn [app forallb bs_or_end]. repeat split; [|exact Ha].
      destruct (eqn_at (a :: rest)) as [[[o b] c]|] eqn:E.
      * destruct (eqn_at_split _ _ _ _ E) as (g & g' & r & Hr & Ho & _).
        rewrite Hr in E |- *. rewrite (eqn_sub_hit pre o b c r adj E).
        apply opener_head in Ho as (o' & -> & _). reflexivity.
      * rewrite (eqn_sub_keep pre a rest adj E). exact Ha.
Qed.

Lemma startswith_nil s : startswith s [] = true.
Proof. destruct s; reflexivity. Qed.

Lemma startswith_until_bs : forall k w y z,
  forallb (except "\") w = true ->
  bs_or_end y = true -> bs_or_end z = true ->
  startswith (k ++ y) w = startswith (k ++ z) w.
Proof.
  assert (Hb : forall y x w, except "\" x = true -> bs_or_end y = true ->
                startswith y (x :: w) = false).
  { intros [|a y] x w Hx Hy; [reflexivity|]. cbn [bs_or_end] in Hy.
    apply only_eq in Hy. subst a. cbn [startswith].
    unfold except in Hx. apply negb_true_iff in Hx.
    rewrite Hx. reflexivity. }
  induction k as [|b k IH]; intros w y z Hw Hy Hz.
  - cbn [app]. destruct w as [|x w]; [rewrite !startswith_nil; reflexivity|].
    cbn [forallb] in Hw. apply andb_true_iff in Hw as [Hx _].
    rewrite !Hb by assumption. reflexivity.
  - destruct w as [|x w]; [rewrite !startswith_nil; reflexivity|].
    cbn [forallb] in Hw. apply andb_true_iff in Hw as [_ Hw].
    cbn [app startswith]. rewrite (IH w y z Hw Hy Hz). reflexivity.
Qed.

(** Where there was no formula before the substitution there is none
    after it. *)
Lemma eqn_at_none_stable a rest pre adj :
  eqn_at (a :: rest) = None -> eqn_at (a :: eqn_sub pre rest adj) = None.
Proof.
  intros H. unfold eqn_at in H.
  destruct (entry_at opener_table (a :: rest)) as [[o g]|] eqn:E.
  - pose proof (entry_at_some _ _ _ E) as [Hin [r1 Hr]]. cbn [fst] in Hr.
    rewrite Hr, skipn_app_length in H.
    destruct (first_closer r1) as [[b [c g']]|] eqn:F; [discriminate|].
    destruct (opener_head o g Hin) as (o' & -> & Ho').
    injection Hr as -> ->.
    rewrite no_closer_sub by (apply first_closer_nonbs_app; assumption).
    unfold eqn_at. rewrite E.
    change (skipn (length ("\"%char :: o')) ("\"%char :: o' ++ r1))
      with (skipn (length o') (o' ++ r1)).
    rewrite skipn_app_length, F. reflexivity.
  - destruct (entry_at opener_table (a :: eqn_sub pre rest adj))
      as [[o g]|] eqn:E2; [|unfold eqn_at; rewrite E2; reflexivity].
    exfalso.
    pose proof (entry_at_some _ _ _ E2) as [Hin [r2 Hr]]. cbn [fst] in Hr.
    destruct (opener_head o g Hin) as (o' & -> & Ho').
    injection Hr as -> Hs.
    destruct (eqn_sub_until_bs rest pre adj)
      as (k & y & z & Hrest & Hsub & Hk & Hy & Hz).
    assert (S1 : startswith (k ++ y) o' = true).
    { rewrite <- Hsub. apply startswith_iff. eauto. }
    rewrite (startswith_until_bs k o' y z Ho' Hy Hz), <- Hrest in S1.
    apply startswith_iff in S1 as [r3 Hr3].
    apply (entry_at_none _ _ ("\"%char :: o', g) r3 E Hin).
    cbn [fst app]. rewrite Hr3. reflexivity.
Qed.

(** A collapsed formula is a formula, and collapses to itself. *)
Lemma eqn_at_collapsed o g c g' r :
  In (o, g) opener_table -> In (c, g') closer_table ->
  eqn_at (o ++ T " xxx " ++ c ++ r) = Some (o, T " xxx ", c).
Proof.
  intros Ho Hc. unfold eqn_at.
  pose proof (opener_entry (o, g) (T " xxx " ++ c ++ r) Ho) as Eo.
  cbn [fst] in Eo. rewrite Eo, skipn_app_length.
  change (T " xxx " ++ c ++ r)
    with (" "%char :: "x"%char :: "x"%char :: "x"%char :: " "%char :: c ++ r).
  rewrite !first_closer_step by (apply no_closer_here; reflexivity).
  pose proof (closer_entry (c, g') r Hc) as Ec. cbn [fst] in Ec.
  rewrite (first_closer_here _ _ Ec). reflexivity.
Qed.

Lemma eqn_sub_idem : forall rest pre adj pre' adj',
  eqn_sub pre' (eqn_sub pre rest adj) adj' = eqn_sub pre rest adj.
Proof.
  apply (eqn_induction
    (fun rest => forall pre adj pre' adj',
       eqn_sub pre' (eqn_sub pre rest adj) adj' = eqn_sub pre rest adj)).
  - intros. rewrite !eqn_sub_nil. reflexivity.
  - intros a rest E IH pre adj pre' adj'.
    rewrite (eqn_sub_keep pre a rest adj E).
    rewrite eqn_sub_keep by (apply eqn_at_none_stable; exact E).
    rewrite IH. reflexivity.
  - intros o b c r E IH pre adj pre' adj'.
    rewrite (eqn_sub_hit pre o b c r adj E).
    destruct (eqn_at_split _ _ _ _ E) as (g & g' & r0 & _ & Ho & Hc & _).
    rewrite (eqn_sub_hit pre' o (T " xxx ") c _ adj'
               (eqn_at_collapsed o g c g' _ Ho Hc)).
    rewrite IH. reflexivity.
Qed.

(** X19: [stripeqns] is idempotent: applied to its own result it
    changes nothing, on every text. *)
Theorem stripeqns_idempotent t : stripeqns (stripeqns t) = stripeqns t.
Proof. exact (eqn_sub_idem t [] false [] false). Qed.

(** * Verbatim and listing blocks *)

Lemma rmatch_lit A p r cs k :
  rmatch (lit_text A) (Cursor p r) cs k =
  if startswith r A
  then k (Cursor (rev A ++ p) (skipn (length A) r)) cs
  else None.
Proof.
  destruct (startswith r A) eqn:S.
  - apply startswith_iff in S as [r' ->]. rewrite skipn_app_length.
    destruct (rmatch (lit_text A) (Cursor p (A ++ r')) cs k) as [res|] eqn:E.
    + apply rmatch_sound in E as (c2 & cs2 & M & Hk).
      apply inv_lit in M as (r2 & Hr & -> & ->).
      apply app_inv_head in Hr. subst r2. symmetry. exact Hk.
    + symmetry. apply (rmatch_complete _ _ _ _ E).
      apply matches_lit_text_intro.
  - destruct (rmatch (lit_text A) (Cursor p r) cs k) as [res|] eqn:E;
      [|reflexivity].
    apply rmatch_sound in E as (c2 & cs2 & M & _).
    apply inv_lit in M as (r2 & -> & _).
    rewrite startswith_app in S. discriminate.
Qed.

Lemma first_at_split B : forall rest b,
  first_at B rest = Some b -> exists r, rest = b ++ B ++ r.
Proof.
  induction rest as [|x rest IH]; intros b H; cbn [first_at] in H.
  - destruct (startswith [] B) eqn:S; [|discriminate].
    injection H as <-. apply startswith_iff in S. exact S.
  - destruct (startswith (x :: rest) B) eqn:S.
    + injection H as <-. apply startswith_iff in S. exact S.
    + destruct (first_at B rest) as [b0|] eqn:F; [|discriminate].
      injection H as <-. destruct (IH _ eq_refl) as [r ->].
      exists r. reflexivity.
Qed.

Lemma lazy_first_at B : forall rest pre cs,
  star_lazy dotall pre rest cs
    (fun c' cs' => rmatch (lit_text B) c' cs' accept) =
  match first_at B rest with
  | Some b =>
      Some (Cursor (rev (b ++ B) ++ pre) (skipn (length (b ++ B)) rest), cs)
  | None => None
  end.
Proof.
  induction rest as [|x rest IH]; intros pre cs.
  - cbn [star_lazy first_at]. rewrite rmatch_lit.
    destruct (startswith [] B); reflexivity.
  - cbn [star_lazy first_at]. rewrite rmatch_lit.
    destruct (startswith (x :: rest) B); [reflexivity|].
    cbn [dotall]. rewrite IH.
    destruct (first_at B rest) as [b|]; [|reflexivity].
    cbn [app rev length skipn]. rewrite <- !app_assoc. reflexivity.
Qed.

Lemma block_match_at A B pre rest :
  match_at (block_re A B) (Cursor pre rest) =
  match block_at A B rest with
  | Some b =>
      Some (Cursor (rev (b ++ B) ++ rev A ++ pre)
                   (skipn (length (b ++ B)) (skipn (length A) rest)), [])
  | None => None
  end.
Proof.
  unfold match_at, block_re, block_at, few. cbn [rmatch]. rewrite rmatch_lit.
  destruct (startswith rest A); [|reflexivity].
  cbn [before after]. apply lazy_first_at.
Qed.

Lemma collapse_block_skip A B t : forall w r,
  collapse_block A B t (length w) (w ++ r) = collapse_block A B t 0 r.
Proof.
  induction w as [|a w IH]; intros r.
  - cbn [length app]. destruct r; reflexivity.
  - cbn [length app collapse_block]. apply IH.
Qed.

Lemma block_at_split A B rest b :
  block_at A B rest = Some b -> exists r, rest = A ++ b ++ B ++ r.
Proof.
  unfold block_at. destruct (startswith rest A) eqn:S; [|discriminate].
  apply startswith_iff in S as [r0 ->]. rewrite skipn_app_length.
  intros F. apply first_at_split in F as [r ->]. eauto.
Qed.

(** A substitution of a fixed text for the blocks from [A] to the first
    [B] after it. *)
Lemma block_sub A B t :
  A <> [] ->
  forall n rest pre adj,
    length rest <= n ->
    sub_from (block_re A B) [TLit t] pre rest adj =
    collapse_block A B t 0 rest.
Proof.
  intros HA. induction n as [|n IH]; intros rest pre adj Hn.
  - destruct rest; [|cbn [length] in Hn; lia].
    apply sub_from_nil. rewrite block_match_at. unfold block_at.
    destruct A as [|a A]; [congruence|]. reflexivity.
  - destruct rest as [|a rest].
    + apply sub_from_nil. rewrite block_match_at. unfold block_at.
      destruct A as [|a A]; [congruence|]. reflexivity.
    + cbn [collapse_block].
      destruct (block_at A B (a :: rest)) as [b|] eqn:E.
      * pose proof (block_at_split _ _ _ _ E) as [r Hr].
        assert (Hm : match_at (block_re A B)
                       (Cursor pre ((A ++ b ++ B) ++ r)) =
                     Some (Cursor (rev (A ++ b ++ B) ++ pre) r, [])).
        { rewrite block_match_at, <- !app_assoc, <- Hr, E, Hr.
          rewrite skipn_app_length.
          replace (b ++ B ++ r) with ((b ++ B) ++ r)
            by (rewrite <- app_assoc; reflexivity).
          rewrite skipn_app_length. f_equal. f_equal. f_equal.
          rewrite !rev_app_distr, <- !app_assoc. reflexivity. }
        assert (Hne : A ++ b ++ B <> []).
        { intros H. apply app_eq_nil in H as [H _]. congruence. }
        replace (a :: rest) with ((A ++ b ++ B) ++ r)
          by (rewrite Hr, <- !app_assoc; reflexivity).
        rewrite (sub_from_hit _ _ pre _ r [] adj Hne Hm).
        cbn [expand flat_map expand_item]. rewrite app_nil_r. f_equal.
        rewrite IH.
        -- destruct (A ++ b ++ B) as [|a0 w] eqn:Ew; [congruence|].
           assert (Hrest : rest = w ++ r).
           { assert (H2 : a :: rest = (a0 :: w) ++ r).
             { rewrite <- Ew, <- !app_assoc. exact Hr. }
             injection H2 as _ H2. exact H2. }
           rewrite Hrest.
           replace (length (a0 :: w) - 1) with (length w)
             by (cbn [length]; lia).
           symmetry. apply collapse_block_skip.
        -- assert (Hl : length (a :: rest) = length ((A ++ b ++ B) ++ r))
             by (rewrite Hr, <- !app_assoc; reflexivity).
           rewrite length_app in Hl.
           destruct (A ++ b ++ B); [congruence|].
           cbn [length] in *. lia.
      * rewrite sub_from_keep by (rewrite block_match_at, E; reflexivity).
        f_equal. apply IH. cbn [length] in Hn. lia.
Qed.

(** X20: the two block substitutions of [stripcomments] work from left
    to right: everything from a verbatim begin command to the first
    verbatim end command after it becomes the two commands with a space
    between them, a begin command with no end command after it is left
    alone, and then the listing blocks of the result are treated in the
    same way. *)
Theorem collapse_blocks_plain fstr :
  collapse_blocks fstr =
  collapse_block (T "\begin{lstlisting}") (T "\end{lstlisting}")
    (T "\begin{lstlisting} \end{lstlisting}") 0
    (collapse_block (T "\begin{verbatim}") (T "\end{verbatim}")
       (T "\begin{verbatim} \end{verbatim}") 0 fstr).
Proof.
  assert (HV : T "\begin{verbatim}" <> []) by discriminate.
  assert (HL : T "\begin{lstlisting}" <> []) by discriminate.
  unfold collapse_blocks, re_sub.
  pose proof (block_sub (T "\begin{verbatim}") (T "\end{verbatim}")
                (T "\begin{verbatim} \end{verbatim}") HV
                (length fstr) fstr [] false (Nat.le_refl _)) as G1.
  unfold sub_from in G1.
  change (block_re (T "\begin{verbatim}") (T "\end{verbatim}"))
    with verbatim_re in G1.
  rewrite G1. clear G1.
  set (s1 := collapse_block (T "\begin{verbatim}") (T "\end{verbatim}")
               (T "\begin{verbatim} \end{verbatim}") 0 fstr).
  pose proof (block_sub (T "\begin{lstlisting}") (T "\end{lstlisting}")
                (T "\begin{lstlisting} \end{lstlisting}") HL
                (length s1) s1 [] false (Nat.le_refl _)) as G2.
  unfold sub_from in G2.
  change (block_re (T "\begin{lstlisting}") (T "\end{lstlisting}"))
    with lstlisting_re in G2.
  exact G2.
Qed.

(** X21: in a set of foils, the first three reports of [checkfoils] list
    the lines that hold the literal texts of the italic and small-capitals
    commands and of the start of an equation environment, anywhere in the
    line and in the order of the text; the fourth report is what the
    footnote pattern finds. *)
Theorem checkfoils_lines fstr :
  checkfoils fstr =
  reportlines (filter (contains (T "\textit")) (split_nl fstr)) Textit ++
  reportlines (filter (contains (T "\textsc")) (split_nl fstr)) Textsc ++
  reportlines (filter (contains (T "\begin{equation}")) (split_nl fstr))
    EquationEnv ++
  reportlines (re_findall footnote_re fstr) MissingTie.
Proof.
  unfold checkfoils.
  rewrite !(findall_lines (holding _)) by reflexivity.
  rewrite !(filter_lines (line_hit (holding _)) (contains _))
    by (intros; apply holding_hit; assumption).
  reflexivity.
Qed.

Lemma footnote_match u l2 rest :
  count_nl u = 0 -> count_nl l2 = 0 -> line_end rest = true ->
  match_at footnote_re
    (Cursor [] ((u ++ T "\footnote{" ++ NL :: l2) ++ rest)) =
  Some (Cursor (rev (u ++ T "\footnote{" ++ NL :: l2) ++ []) rest, []).
Proof.
  intros Hu Hl Hr. unfold match_at, footnote_re, many.
  rewrite <- app_assoc.
  cbn [rmatch before after at_bol].
  apply star_greedy_through; [apply forallb_dot, Hu|].
  pose proof (tail_to_eol l2 (NL :: rev (T "\footnote{") ++ rev u ++ [])
                rest [] Hl Hr) as G.
  transitivity (rmatch (many dot ;; Eol)
                  (Cursor (NL :: rev (T "\footnote{") ++ rev u ++ [])
                          (l2 ++ rest))
                  [] accept).
  - reflexivity.
  - rewrite G. f_equal. f_equal. f_equal.
    rewrite !app_nil_r, !rev_app_distr. cbn [rev app T list_ascii_of_string].
    rewrite <- !app_assoc. reflexivity.
Qed.

Lemma footnote_at_end p : match_at footnote_re (Cursor p []) = None.
Proof.
  unfold match_at, footnote_re, many. cbn [rmatch before after].
  destruct (at_bol _); reflexivity.
Qed.

(** X22: when the first line of a text ends with the opening of a
    footnote and a second line follows, the first entry of the footnote
    report of [checkfoils] is these two lines together, whatever else
    they and the lines after them hold, even when the second line starts
    with a tie: the character other than a tie that the pattern asks for
    after the brace is the line break.  When nothing follows the two
    lines, it is the only entry of that report. *)
Theorem footnote_spans_lines u l2 rest :
  count_nl u = 0 -> count_nl l2 = 0 -> line_end rest = true ->
  exists more,
    In (MissingTie, (u ++ T "\footnote{" ++ NL :: l2) :: more)
       (checkfoils ((u ++ T "\footnote{" ++ NL :: l2) ++ rest)) /\
    (rest = [] -> more = []).
Proof.
  intros Hu Hl Hr.
  pose proof (footnote_match u l2 rest Hu Hl Hr) as M.
  set (w := u ++ T "\footnote{" ++ NL :: l2) in *.
  assert (Hw : w <> []) by (subst w; destruct u; discriminate).
  exists (flat_map hit_text (scan footnote_re (rev w ++ []) rest 0 true)).
  split.
  - unfold checkfoils.
    apply in_or_app. right. apply in_or_app. right. apply in_or_app. right.
    unfold re_findall.
    rewrite (scan_hit footnote_re [] w rest [] false Hw M).
    left. reflexivity.
  - intros ->. rewrite scan_end by apply footnote_at_end. reflexivity.
Qed.

Lemma footnote_spans_lines_witness :
  exists more,
    In (MissingTie,
        (T "as shown" ++ T "\footnote{" ++ NL :: T "~See the book.}")
          :: more)
       (checkfoils
          ((T "as shown" ++ T "\footnote{" ++ NL :: T "~See the book.}")
             ++ NL :: T "More text.")) /\
    (NL :: T "More text." = [] -> more = []).
Proof.
  apply (footnote_spans_lines (T "as shown") (T "~See the book.}")
           (NL :: T "More text."));
    reflexivity.
Defined.
